(** * DreamRecorder: the entry store, the tag editor and the list view

    A shallow embedding of the state-handling code of the Dream Recorder
    application (src/App.tsx, src/components/DreamCard.tsx, the analysis
    service and the shared type declarations), with the properties of its
    specification stated and proved over it.

    Conventions of the embedding.
    - A JavaScript string is the [string] of the bytes of its UTF-8
      encoding. The strings of the model are the well-formed ones, those
      with no surrogate that stands alone; on these, equality, prefixes and
      substrings are the same on bytes as on code units.
    - A JavaScript number is a [JS.number]: a decimal [m / 10^k], the
      negative zero, [NaN] or an infinity. A reading of the clock is an
      integer [Z].
    - A JavaScript object is the list of its own enumerable properties in
      the order of the platform. The store holds such objects, since
      nothing in the program checks what a stored text or a response of
      the service parses to; the cards and the list view are modelled on
      the entries of the declared type, [DreamEntry].
    - [JSON.parse] of the platform is a parameter of the program. The model
      has a parser of its own, proved to read back what [JSON.stringify]
      prints, and a platform is asked to agree with it where the model has
      a result.
    - A React state update [setDreams(f)] is the function [f] on the list;
      renders and effects are the events of a state machine, in which the
      save effect runs after the render that follows an update.
    - [localStorage] is a finite map from keys to strings, with a quota
      that is a parameter. *)

From Stdlib Require Import ZArith String Ascii List Bool Lia.
From stdpp Require Import base tactics option list strings pretty gmap.

Open Scope string_scope.
Open Scope list_scope.

(** ** Primitives of the platform *)

Module JS.

(** Truthiness of a string: only the empty string is falsy. *)
Definition truthy (s : string) : bool :=
  match s with
  | EmptyString => false
  | String _ _ => true
  end.

(** [a || b] on strings. *)
Definition or_else (a b : string) : string := if truthy a then a else b.

(** [s.startsWith(p)]. *)
Fixpoint startsWith (s p : string) : bool :=
  match p, s with
  | EmptyString, _ => true
  | String _ _, EmptyString => false
  | String a p', String b s' => Ascii.eqb a b && startsWith s' p'
  end.

(** What follows the prefix [p] in [s], when [s] starts with [p]. *)
Fixpoint strip_prefix (p s : string) : option string :=
  match p with
  | EmptyString => Some s
  | String a p' =>
      match s with
      | EmptyString => None
      | String b s' => if Ascii.eqb a b then strip_prefix p' s' else None
      end
  end.

(** [s.includes(q)]: [q] occurs in [s] at some position. *)
Fixpoint includes (s q : string) : bool :=
  startsWith s q ||
  match s with
  | EmptyString => false
  | String _ s' => includes s' q
  end.

(** [l.join(sep)] on an array of strings. *)
Definition join (l : list string) (sep : string) : string :=
  String.concat sep l.

(** White space in the sense of [String.prototype.trim] (the WhiteSpace and
    LineTerminator code points), each in its UTF-8 encoding: TAB, LF, VT,
    FF, CR, SPACE, U+00A0, U+1680, U+2000 to U+200A, U+2028, U+2029, U+202F,
    U+205F, U+3000 and U+FEFF. *)
Definition bytes2 (a b : ascii) : string := String a (String b EmptyString).
Definition bytes3 (a b c : ascii) : string :=
  String a (String b (String c EmptyString)).

Definition whiteSpace : list string :=
  [ String "009" EmptyString; String "010" EmptyString;
    String "011" EmptyString; String "012" EmptyString;
    String "013" EmptyString; String " " EmptyString;
    bytes2 "194" "160"; bytes3 "225" "154" "128";
    bytes3 "226" "128" "128"; bytes3 "226" "128" "129";
    bytes3 "226" "128" "130"; bytes3 "226" "128" "131";
    bytes3 "226" "128" "132"; bytes3 "226" "128" "133";
    bytes3 "226" "128" "134"; bytes3 "226" "128" "135";
    bytes3 "226" "128" "136"; bytes3 "226" "128" "137";
    bytes3 "226" "128" "138"; bytes3 "226" "128" "168";
    bytes3 "226" "128" "169"; bytes3 "226" "128" "175";
    bytes3 "226" "129" "159"; bytes3 "227" "128" "128";
    bytes3 "239" "187" "191" ]%char.

(** What follows the first of the texts [ws] that [s] starts with. *)
Fixpoint strip_any (ws : list string) (s : string) : option string :=
  match ws with
  | [] => None
  | w :: ws' =>
      match strip_prefix w s with
      | Some rest => Some rest
      | None => strip_any ws' s
      end
  end.

(** [s] without the texts of [ws] that it starts with, one after the
    other; [fuel] bounds their number. *)
Fixpoint strip_all (ws : list string) (fuel : nat) (s : string) : string :=
  match fuel with
  | O => s
  | S fuel' =>
      match strip_any ws s with
      | Some rest => strip_all ws fuel' rest
      | None => s
      end
  end.

Definition trimStart (s : string) : string :=
  strip_all whiteSpace (String.length s) s.

Definition trimEnd (s : string) : string :=
  String.rev (strip_all (String.rev <$> whiteSpace) (String.length s)
                (String.rev s)).

(** [s.trim()]. *)
Definition trim (s : string) : string := trimEnd (trimStart s).

(** [n.toString()] for an integer below 10^21 in absolute value: plain
    decimal digits with a leading minus sign. *)
Definition toString (n : Z) : string := pretty n.

(** [l.findIndex(p)]: the position of the first element satisfying [p]. *)
Fixpoint findIndex {A} (p : A → bool) (l : list A) : option nat :=
  match l with
  | [] => None
  | x :: l' => if p x then Some 0 else S <$> findIndex p l'
  end.

(** [l.includes(x)] on an array of strings. *)
Definition array_includes (l : list string) (x : string) : bool :=
  existsb (String.eqb x) l.

(** [k] characters taken from [rest] and then from [pad] over and over. *)
Fixpoint cycle (k : nat) (pad rest : string) : string :=
  match k with
  | O => EmptyString
  | S k' =>
      match rest with
      | String c r => String c (cycle k' pad r)
      | EmptyString =>
          match pad with
          | String c r => String c (cycle k' pad r)
          | EmptyString => EmptyString
          end
      end
  end.

(** [s.padStart(targetLength, padString)]. *)
Definition padStart (s : string) (targetLength : nat) (padString : string) : string :=
  cycle (targetLength - String.length s) padString padString +:+ s.

(** A value that may be [undefined], as a template literal prints it. *)
Definition template (o : option string) : string :=
  match o with
  | Some s => s
  | None => "undefined"
  end.

(** *** Numbers

    A number that is finite is written [Dec m k], the decimal [m / 10^k],
    in normal form: [k] is 0, or the last digit of [m] is not 0. It stands
    for the double nearest to that decimal, which is the double that
    prints as it; this is exact for the decimals with at most 15
    significant digits in the range of the normal doubles and for the
    integers up to 2^53, and these are the finite numbers of the model. *)
Inductive number :=
| Dec (m : Z) (k : nat)
| NegZero
| NaN
| Infinity (negative : bool).

(** An integer as a number. *)
Definition Int (z : Z) : number := Dec z 0.

Global Instance number_eq_dec : EqDecision number.
Proof. solve_decision. Defined.

(** [Number.isFinite(n)]. *)
Definition isFinite (n : number) : bool :=
  match n with
  | Dec _ _ | NegZero => true
  | NaN | Infinity _ => false
  end.

Definition normal (n : number) : bool :=
  match n with
  | Dec m (S _) => negb (m mod 10 =? 0)%Z
  | _ => true
  end.

(** [F] in exactly [f] digits. *)
Fixpoint digits_fixed (f : nat) (F : N) : string :=
  match f with
  | O => EmptyString
  | S f' =>
      String (pretty_N_char (F / 10 ^ N.of_nat f'))
        (digits_fixed f' (F mod 10 ^ N.of_nat f'))
  end.

(** [M] without its zeros at the end; [fuel] bounds their number. *)
Fixpoint strip_zeros (fuel : nat) (M : N) : N :=
  match fuel with
  | O => M
  | S fuel' =>
      if ((M mod 10 =? 0) && negb (M =? 0))%N then strip_zeros fuel' (M / 10)
      else M
  end.

(** The number of decimal digits of [M]. *)
Definition width (M : N) : nat := String.length (pretty M).

(** The digits [s] of [Number::toString] for the magnitude [M / 10^k]. *)
Definition significand (M : N) (k : nat) : N :=
  match k with
  | O => strip_zeros (width M) M
  | S _ => M
  end.

(** Its [n]: the position of the decimal point after the first digit of
    the magnitude. *)
Definition point (M : N) (k : nat) : Z := Z.of_nat (width M) - Z.of_nat k.

(** The magnitudes that [Number::toString] prints without an exponent. *)
Definition plain (M : N) (k : nat) : bool :=
  ((-6 <? point M k) && (point M k <=? 21))%Z.

(** The magnitudes for which the decimal is the number: at most 15
    significant digits, or an integer up to 2^53. *)
Definition exact (M : N) (k : nat) : bool :=
  (width (significand M k) <=? 15)%nat
  || match k with O => (M <=? 2 ^ 53)%N | S _ => false end.

(** [Number::toString] on a magnitude other than 0, steps 5 to 10. *)
Definition magnitude_toString (M : N) (k : nat) : string :=
  if plain M k then
    pretty (M / 10 ^ N.of_nat k)%N
    +:+ match k with
        | O => EmptyString
        | S _ => String "." (digits_fixed k (M mod 10 ^ N.of_nat k))
        end
  else
    match pretty (significand M k) with
    | String d r =>
        String d match r with
                 | EmptyString => EmptyString
                 | String _ _ => String "." r
                 end
        +:+ "e" +:+ (if (0 <=? point M k - 1)%Z then "+" else "-")
        +:+ pretty (Z.abs_N (point M k - 1))
    | EmptyString => EmptyString
    end.

(** [n.toString()]. *)
Definition Number_toString (n : number) : string :=
  match n with
  | Dec 0 _ => "0"
  | Dec (Z.pos p) k => magnitude_toString (N.pos p) k
  | Dec (Z.neg p) k => String "-" (magnitude_toString (N.pos p) k)
  | NegZero => "0"
  | NaN => "NaN"
  | Infinity false => "Infinity"
  | Infinity true => "-Infinity"
  end.

(** [a === b] on numbers: [NaN] differs from every number and the two
    zeros are equal. *)
Definition is_zero (n : number) : bool :=
  match n with
  | Dec 0 _ | NegZero => true
  | _ => false
  end.

Definition number_strict_eq (a b : number) : bool :=
  match a, b with
  | NaN, _ | _, NaN => false
  | _, _ => is_zero a && is_zero b || bool_decide (a = b)
  end.

End JS.

(** ** The JSON text format of the platform

    [JSON.stringify] and [JSON.parse] on the values that JSON texts carry:
    null, booleans, numbers, strings, arrays and objects. The properties of
    an object are listed in the order of the platform: those whose name is
    an array index first, in ascending order, then the others in the order
    in which they were created.

    The parser of the model has three results. [Parsed v] and
    [SyntaxError] are the results of the platform. [Unmodelled] says
    nothing about the platform: it is the result for a numeral whose
    number is not one of the model (more than 15 significant digits, or
    printed with an exponent), and for a [\u] escape of a surrogate that
    stands alone. *)

Module JSON.

#[warnings="-register-all"]
Inductive value :=
| Null
| Bool (b : bool)
| Num (n : JS.number)
| Str (s : string)
| Arr (elements : list value)
| Obj (properties : list (string * value)).

(** The own enumerable properties of an object, in the order of the
    platform. *)
Definition members : Type := list (string * value).

Definition dquote : ascii := "034"%char.
Definition backslash : ascii := "\"%char.

(** *** Printing *)

Definition hex_digit (n : N) : ascii :=
  match n with
  | 0 => "0" | 1 => "1" | 2 => "2" | 3 => "3" | 4 => "4" | 5 => "5"
  | 6 => "6" | 7 => "7" | 8 => "8" | 9 => "9" | 10 => "a" | 11 => "b"
  | 12 => "c" | 13 => "d" | 14 => "e" | _ => "f"
  end%N%char.

(** One byte inside a string literal, put in front of [k]. The bytes from
    128 up, which belong to characters outside ASCII, are printed as they
    are. *)
Definition quote_char (c : ascii) (k : string) : string :=
  let n := N_of_ascii c in
  if (n =? 8)%N then String backslash (String "b" k)
  else if (n =? 9)%N then String backslash (String "t" k)
  else if (n =? 10)%N then String backslash (String "n" k)
  else if (n =? 12)%N then String backslash (String "f" k)
  else if (n =? 13)%N then String backslash (String "r" k)
  else if (n =? 34)%N then String backslash (String dquote k)
  else if (n =? 92)%N then String backslash (String backslash k)
  else if (n <? 32)%N then
    String backslash (String "u" (String "0" (String "0"
      (String (hex_digit (n / 16)) (String (hex_digit (n mod 16)) k)))))
  else String c k.

Fixpoint quote_chars (s : string) (k : string) : string :=
  match s with
  | EmptyString => k
  | String c s' => quote_char c (quote_chars s' k)
  end.

(** A string literal, put in front of [k]. *)
Definition quote (s : string) (k : string) : string :=
  String dquote (quote_chars s (String dquote k)).

(** A number: [null] when it is not finite. *)
Definition number_text (n : JS.number) : string :=
  if JS.isFinite n then JS.Number_toString n else "null".

(** The elements of an array, separated by commas, put in front of [k]. *)
Definition print_elements (print : value → string → string)
    : list value → string → string :=
  fix elements l k :=
    match l with
    | [] => k
    | [v] => print v k
    | v :: l' => print v (String "," (elements l' k))
    end.

(** The properties of an object, separated by commas, put in front of [k]. *)
Definition print_members (print : value → string → string)
    : list (string * value) → string → string :=
  fix members l k :=
    match l with
    | [] => k
    | [(key, v)] => quote key (String ":" (print v k))
    | (key, v) :: l' =>
        quote key (String ":" (print v (String "," (members l' k))))
    end.

(** [print v k] is the text of [v] put in front of [k]. *)
Fixpoint print (v : value) (k : string) : string :=
  match v with
  | Null => "null" +:+ k
  | Bool true => "true" +:+ k
  | Bool false => "false" +:+ k
  | Num n => number_text n +:+ k
  | Str s => quote s k
  | Arr l => String "[" (print_elements print l (String "]" k))
  | Obj l => String "{" (print_members print l (String "}" k))
  end.

Definition stringify (v : value) : string := print v "".

(** *** Parsing *)

Inductive result (A : Type) :=
| Parsed (a : A)
| SyntaxError
| Unmodelled.
Arguments Parsed {A} a.
Arguments SyntaxError {A}.
Arguments Unmodelled {A}.

Definition is_ws (c : ascii) : bool :=
  match c with
  | " " | "009" | "010" | "013" => true
  | _ => false
  end%char.

Fixpoint skip_ws (s : string) : string :=
  match s with
  | EmptyString => EmptyString
  | String c s' => if is_ws c then skip_ws s' else s
  end.

Definition hex_value (c : ascii) : option N :=
  let n := N_of_ascii c in
  if (48 <=? n)%N && (n <=? 57)%N then Some (n - 48)%N
  else if (97 <=? n)%N && (n <=? 102)%N then Some (n - 87)%N
  else if (65 <=? n)%N && (n <=? 70)%N then Some (n - 55)%N
  else None.

(** The code unit of a [\u] escape with four hexadecimal digits. *)
Definition code_unit (a b c d : ascii) : option N :=
  match hex_value a, hex_value b, hex_value c, hex_value d with
  | Some h3, Some h2, Some h1, Some h0 =>
      Some (4096 * h3 + 256 * h2 + 16 * h1 + h0)%N
  | _, _, _, _ => None
  end.

Definition is_high_surrogate (u : N) : bool :=
  ((55296 <=? u) && (u <? 56320))%N.

Definition is_low_surrogate (u : N) : bool :=
  ((56320 <=? u) && (u <? 57344))%N.

(** The UTF-8 encoding of a code point, put in front of [k]. *)
Definition utf8 (cp : N) (k : string) : string :=
  let byte (n : N) := ascii_of_N n in
  (if cp <? 128 then String (byte cp) k
   else if cp <? 2048 then
     String (byte (192 + cp / 64)) (String (byte (128 + cp mod 64)) k)
   else if cp <? 65536 then
     String (byte (224 + cp / 4096))
       (String (byte (128 + cp / 64 mod 64))
          (String (byte (128 + cp mod 64)) k))
   else
     String (byte (240 + cp / 262144))
       (String (byte (128 + cp / 4096 mod 64))
          (String (byte (128 + cp / 64 mod 64))
             (String (byte (128 + cp mod 64)) k))))%N.

(** The code unit of a one-letter escape. *)
Definition simple_escape (e : ascii) : option ascii :=
  let n := N_of_ascii e in
  if (n =? 34)%N then Some dquote
  else if (n =? 92)%N then Some backslash
  else if (n =? 47)%N then Some "/"%char
  else if (n =? 98)%N then Some "008"%char
  else if (n =? 102)%N then Some "012"%char
  else if (n =? 110)%N then Some "010"%char
  else if (n =? 114)%N then Some "013"%char
  else if (n =? 116)%N then Some "009"%char
  else None.

(** [put s] in front of the characters that were read. *)
Definition cons_chars (put : string → string) (r : result (string * string))
    : result (string * string) :=
  match r with
  | Parsed (s, rest) => Parsed (put s, rest)
  | SyntaxError => SyntaxError
  | Unmodelled => Unmodelled
  end.

(** The characters of a string literal after its opening quote, and what
    follows the closing quote. An escape of a high surrogate must be
    followed by one of a low surrogate, with which it makes one code
    point. *)
Fixpoint parse_chars (s : string) : result (string * string) :=
  match s with
  | EmptyString => SyntaxError
  | String c s' =>
      if Ascii.eqb c dquote then Parsed (EmptyString, s')
      else if Ascii.eqb c backslash then
        match s' with
        | EmptyString => SyntaxError
        | String e s'' =>
            match simple_escape e with
            | Some c' => cons_chars (String c') (parse_chars s'')
            | None =>
                if Ascii.eqb e "u" then
                  match s'' with
                  | String h1 (String h2 (String h3 (String h4 s3))) =>
                      match code_unit h1 h2 h3 h4 with
                      | Some u =>
                          if is_low_surrogate u then Unmodelled
                          else if is_high_surrogate u then
                            match s3 with
                            | String b (String e'
                                (String l1 (String l2 (String l3 (String l4 s4))))) =>
                                if Ascii.eqb b backslash && Ascii.eqb e' "u" then
                                  match code_unit l1 l2 l3 l4 with
                                  | Some lo =>
                                      if is_low_surrogate lo then
                                        cons_chars
                                          (utf8 (65536 + (u - 55296) * 1024
                                                 + (lo - 56320))%N)
                                          (parse_chars s4)
                                      else Unmodelled
                                  | None => Unmodelled
                                  end
                                else Unmodelled
                            | _ => Unmodelled
                            end
                          else cons_chars (utf8 u) (parse_chars s3)
                      | None => SyntaxError
                      end
                  | _ => SyntaxError
                  end
                else SyntaxError
            end
        end
      else if (N_of_ascii c <? 32)%N then SyntaxError
      else cons_chars (String c) (parse_chars s')
  end.

Definition digit_value (c : ascii) : option N :=
  let n := N_of_ascii c in
  if (48 <=? n)%N && (n <=? 57)%N then Some (n - 48)%N else None.

(** The longest run of digits at the head of [s], read after [acc]. *)
Fixpoint read_digits (acc : N) (s : string) : N * string :=
  match s with
  | EmptyString => (acc, EmptyString)
  | String c s' =>
      match digit_value c with
      | Some d => read_digits (10 * acc + d) s'
      | None => (acc, s)
      end
  end.

(** The same, with the number of the digits. *)
Fixpoint read_fraction (acc : N) (count : nat) (s : string) : N * nat * string :=
  match s with
  | EmptyString => (acc, count, EmptyString)
  | String c s' =>
      match digit_value c with
      | Some d => read_fraction (10 * acc + d) (S count) s'
      | None => (acc, count, s)
      end
  end.

Definition starts_with_digit (s : string) : bool :=
  match s with
  | String c _ => bool_decide (is_Some (digit_value c))
  | EmptyString => false
  end.

(** [0], or a digit other than [0] followed by digits. *)
Definition parse_int (s : string) : option (N * string) :=
  match s with
  | EmptyString => None
  | String c s' =>
      match digit_value c with
      | Some 0%N => if starts_with_digit s' then None else Some (0%N, s')
      | Some d => Some (read_digits d s')
      | None => None
      end
  end.

(** A point followed by one digit or more, or nothing. *)
Definition parse_fraction (s : string) : option (N * nat * string) :=
  match s with
  | String "." s' =>
      if starts_with_digit s' then Some (read_fraction 0 0 s') else None
  | _ => Some (0%N, O, s)
  end.

(** [e] or [E], a sign or none, and one digit or more; or nothing. *)
Definition parse_exponent (s : string) : option (Z * string) :=
  let digits (negative : bool) (s' : string) :=
    if starts_with_digit s' then
      let '(e, rest) := read_digits 0 s' in
      Some (if negative then (- Z.of_N e)%Z else Z.of_N e, rest)
    else None in
  match s with
  | String c s' =>
      if Ascii.eqb c "e" || Ascii.eqb c "E" then
        match s' with
        | String "+" s'' => digits false s''
        | String "-" s'' => digits true s''
        | _ => digits false s'
        end
      else Some (0%Z, s)
  | EmptyString => Some (0%Z, s)
  end.

(** [M / 10^q] with the zeros at the end of [M] taken off [q]. *)
Fixpoint normalize (q : nat) (M : N) : N * nat :=
  match q with
  | O => (M, O)
  | S q' => if (M mod 10 =? 0)%N then normalize q' (M / 10)%N else (M, q)
  end.

(** The number of a numeral with the integer digits [int], the [f] fraction
    digits [frac] and the exponent [E], when it is a number of the model: a
    zero, a decimal that is printed without an exponent and is exact as a
    number, or an infinity for a magnitude of 10^309 or more. *)
Definition make_number (negative : bool) (int frac : N) (f : nat) (E : Z)
    : option JS.number :=
  let M := (int * 10 ^ N.of_nat f + frac)%N in
  if (M =? 0)%N then Some (if negative then JS.NegZero else JS.Dec 0 0)
  else
    let n := (Z.of_nat (JS.width M) + E - Z.of_nat f)%Z in
    if (309 <? n)%Z then Some (JS.Infinity negative)
    else if negb ((-6 <? n) && (n <=? 21))%Z then None
    else
      let p := (E - Z.of_nat f)%Z in
      let '(M', k) :=
        if (0 <=? p)%Z then ((M * 10 ^ Z.to_N p)%N, O)
        else normalize (Z.to_nat (- p)) M in
      if JS.exact M' k
      then Some (JS.Dec (if negative then - Z.of_N M' else Z.of_N M')%Z k)
      else None.

Definition parse_number (s : string) : result (value * string) :=
  let '(negative, s1) :=
    match s with
    | String "-" s' => (true, s')
    | _ => (false, s)
    end in
  match parse_int s1 with
  | Some (int, s2) =>
      match parse_fraction s2 with
      | Some (frac, f, s3) =>
          match parse_exponent s3 with
          | Some (E, s4) =>
              match make_number negative int frac f E with
              | Some n => Parsed (Num n, s4)
              | None => Unmodelled
              end
          | None => SyntaxError
          end
      | None => SyntaxError
      end
  | None => SyntaxError
  end.

(** The rest of a keyword whose first letter has been read. *)
Definition expect (word : string) (v : value) (s : string)
    : result (value * string) :=
  match JS.strip_prefix word s with
  | Some rest => Parsed (v, rest)
  | None => SyntaxError
  end.

(** *** Objects *)

(** The number of a property name that is an array index: the decimal text,
    without a zero in front, of an integer from 0 to 2^32 - 2. *)
Definition array_index (key : string) : option N :=
  match parse_int key with
  | Some (n, EmptyString) => if (n <=? 4294967294)%N then Some n else None
  | _ => None
  end.

(** Whether a new property [key] is listed before the property [k']: it is
    an array index, and [k'] is a larger one or none. *)
Definition comes_before (key k' : string) : bool :=
  match array_index key with
  | Some i =>
      match array_index k' with
      | Some j => (i <? j)%N
      | None => true
      end
  | None => false
  end.

(** [o[key]], [None] for [undefined]. *)
Fixpoint get (key : string) (l : members) : option value :=
  match l with
  | [] => None
  | (k', v) :: l' => if String.eqb k' key then Some v else get key l'
  end.

Fixpoint replace_member (key : string) (v : value) (l : members) : members :=
  match l with
  | [] => []
  | (k', v') :: l' =>
      if String.eqb k' key then (k', v) :: l'
      else (k', v') :: replace_member key v l'
  end.

Fixpoint insert_member (key : string) (v : value) (l : members) : members :=
  match l with
  | [] => [(key, v)]
  | (k', v') :: l' =>
      if comes_before key k' then (key, v) :: l
      else (k', v') :: insert_member key v l'
  end.

(** Defining the property [key]: a property that is there keeps its place
    and takes the new value; a new one takes its place in the order. *)
Definition set_member (key : string) (v : value) (l : members) : members :=
  match get key l with
  | Some _ => replace_member key v l
  | None => insert_member key v l
  end.

(** [{...base, ...source}]: the properties of [source] are defined on a copy
    of [base] one after the other. *)
Definition spread (base source : members) : members :=
  fold_left (λ acc kv, set_member (fst kv) (snd kv) acc) source base.

(** The code units of a string, each as a string: the characters of one to
    three bytes. A character of four bytes is two surrogates, which are not
    strings of the model. *)
Fixpoint code_units (fuel : nat) (s : string) : option (list string) :=
  match fuel, s with
  | _, EmptyString => Some []
  | O, String _ _ => None
  | S fuel', String a s1 =>
      let n := N_of_ascii a in
      if (n <? 128)%N then cons (String a EmptyString) <$> code_units fuel' s1
      else if (n <? 224)%N then
        match s1 with
        | String b s2 => cons (JS.bytes2 a b) <$> code_units fuel' s2
        | EmptyString => None
        end
      else if (n <? 240)%N then
        match s1 with
        | String b (String c s3) => cons (JS.bytes3 a b c) <$> code_units fuel' s3
        | _ => None
        end
      else None
  end.

(** The own enumerable properties that a spread [...v] reads: the properties
    of an object, the elements of an array and the code units of a string
    under their indices, and none of any other value. *)
Definition own_props (v : value) : option members :=
  match v with
  | Obj l => Some l
  | Arr l => Some (imap (λ i x, (pretty (N.of_nat i), x)) l)
  | Str s =>
      imap (λ i u, (pretty (N.of_nat i), Str u))
      <$> code_units (String.length s) s
  | Null | Bool _ | Num _ => Some []
  end.

(** [a === b], for a property that may be [undefined], on values that are
    not both arrays or objects. Two arrays or objects are equal when they
    are one object in memory, which a value does not tell; the model takes
    them for different, and what is proved of comparisons is proved for
    values that are not both arrays or objects. *)
Definition strict_eq (a b : option value) : bool :=
  match a, b with
  | None, None => true
  | Some Null, Some Null => true
  | Some (Bool x), Some (Bool y) => Bool.eqb x y
  | Some (Num x), Some (Num y) => JS.number_strict_eq x y
  | Some (Str x), Some (Str y) => String.eqb x y
  | _, _ => false
  end.

(** *** The parser *)

Fixpoint parse_value (fuel : nat) (s : string) : result (value * string) :=
  match fuel with
  | O => SyntaxError
  | S fuel' =>
      match skip_ws s with
      | EmptyString => SyntaxError
      | String c s' =>
          if Ascii.eqb c "n" then expect "ull" Null s'
          else if Ascii.eqb c "t" then expect "rue" (Bool true) s'
          else if Ascii.eqb c "f" then expect "alse" (Bool false) s'
          else if Ascii.eqb c dquote then
            match parse_chars s' with
            | Parsed (str, rest) => Parsed (Str str, rest)
            | SyntaxError => SyntaxError
            | Unmodelled => Unmodelled
            end
          else if Ascii.eqb c "[" then
            match skip_ws s' with
            | String "]" rest => Parsed (Arr [], rest)
            | _ => parse_elements fuel' s' []
            end
          else if Ascii.eqb c "{" then
            match skip_ws s' with
            | String "}" rest => Parsed (Obj [], rest)
            | _ => parse_members fuel' s' []
            end
          else parse_number (String c s')
      end
  end
with parse_elements (fuel : nat) (s : string) (acc : list value)
    : result (value * string) :=
  match fuel with
  | O => SyntaxError
  | S fuel' =>
      match parse_value fuel' s with
      | Parsed (v, rest) =>
          match skip_ws rest with
          | String "," rest' => parse_elements fuel' rest' (v :: acc)
          | String "]" rest' => Parsed (Arr (List.rev (v :: acc)), rest')
          | _ => SyntaxError
          end
      | SyntaxError => SyntaxError
      | Unmodelled => Unmodelled
      end
  end
with parse_members (fuel : nat) (s : string) (acc : members)
    : result (value * string) :=
  match fuel with
  | O => SyntaxError
  | S fuel' =>
      match skip_ws s with
      | String c s' =>
          if Ascii.eqb c dquote then
            match parse_chars s' with
            | Parsed (key, rest) =>
                match skip_ws rest with
                | String ":" rest' =>
                    match parse_value fuel' rest' with
                    | Parsed (v, rest'') =>
                        match skip_ws rest'' with
                        | String "," rest3 =>
                            parse_members fuel' rest3 (set_member key v acc)
                        | String "}" rest3 =>
                            Parsed (Obj (set_member key v acc), rest3)
                        | _ => SyntaxError
                        end
                    | SyntaxError => SyntaxError
                    | Unmodelled => Unmodelled
                    end
                | _ => SyntaxError
                end
            | SyntaxError => SyntaxError
            | Unmodelled => Unmodelled
            end
          else SyntaxError
      | EmptyString => SyntaxError
      end
  end.

(** [JSON.parse] on the texts of the model: one value with nothing but
    white space after it. A text has fewer nested values than characters,
    so that the parser never stops for want of [fuel]. *)
Definition parse (s : string) : result value :=
  match parse_value (S (String.length s)) s with
  | Parsed (v, rest) =>
      match skip_ws rest with
      | EmptyString => Parsed v
      | String _ _ => SyntaxError
      end
  | SyntaxError => SyntaxError
  | Unmodelled => Unmodelled
  end.

(** A parser of a platform, [None] for its [SyntaxError], agrees with the
    model when it has the results of the model wherever the model has one
    of the two results of the platform. *)
Definition agrees (JSON_parse : string → option value) : Prop :=
  ∀ text,
    match parse text with
    | Parsed v => JSON_parse text = Some v
    | SyntaxError => JSON_parse text = None
    | Unmodelled => True
    end.

(** *** The values that a text carries unchanged *)

(** The finite numbers of the model that are printed without an exponent;
    the zero among them is the positive one. *)
Definition storable_number (n : JS.number) : bool :=
  match n with
  | JS.Dec m k =>
      JS.normal n && JS.plain (Z.abs_N m) k && JS.exact (Z.abs_N m) k
  | _ => false
  end.

(** Property names as the platform lists them: no name twice, and none
    that would have been listed before an earlier one. *)
Fixpoint canonical_keys (ks : list string) : bool :=
  match ks with
  | [] => true
  | k :: ks' =>
      forallb (λ k', negb (String.eqb k' k) && negb (comes_before k' k)) ks'
      && canonical_keys ks'
  end.

#[warnings="-register-all"]
Inductive storable : value → Prop :=
| storable_Null : storable Null
| storable_Bool b : storable (Bool b)
| storable_Num n : storable_number n = true → storable (Num n)
| storable_Str s : storable (Str s)
| storable_Arr l : Forall storable l → storable (Arr l)
| storable_Obj l :
    canonical_keys (fst <$> l) = true →
    Forall (λ kv, storable (snd kv)) l →
    storable (Obj l).

(** The number of parser steps that a value takes. *)
Fixpoint weight (v : value) : nat :=
  match v with
  | Arr l => S (sum_list_with (λ v, S (weight v)) l)
  | Obj l => S (sum_list_with (λ kv, S (weight (snd kv))) l)
  | _ => 1
  end.

(** *** Vocabulary of the round trip *)

(** What may follow a numeral in a printed value: the end of the text, or a
    separator or closing bracket. *)
Definition value_end (k : string) : bool :=
  match k with
  | EmptyString => true
  | String c _ => Ascii.eqb c "," || Ascii.eqb c "]" || Ascii.eqb c "}"
  end.

(** The first character of a printed number. *)
Definition number_start (c : ascii) : bool :=
  Ascii.eqb c "-" || bool_decide (is_Some (digit_value c)).

(** The first character of a printed value. *)
Definition value_start (c : ascii) : bool :=
  number_start c || Ascii.eqb c "n" || Ascii.eqb c "t" || Ascii.eqb c "f"
  || Ascii.eqb c dquote || Ascii.eqb c "[" || Ascii.eqb c "{".

(** What the round trip of one value asks of the parser. *)
Definition reads_back (v : value) : Prop :=
  ∀ fuel k, (weight v ≤ fuel)%nat → value_end k = true →
            parse_value fuel (print v k) = Parsed (v, k).

End JSON.

(** ** The shared type declarations *)

(** [DreamEntry]. The optional [audioBlob] field of the declaration is never
    assigned by any code path (its own comment says it is not stored), so the
    record leaves it out. An optional field that is absent is [None]. *)
Record DreamEntry := mkDreamEntry {
  id : string;
  timestamp : JS.number;
  audioBase64 : option string;
  transcription : string;
  tags : list string;
  mood : string;
  lucidityScore : JS.number;
  isProcessing : bool;
  generatedImage : option string
}.

(** Object spreads [{...d, field: v}] used by the handlers. *)
Definition with_tags (d : DreamEntry) (ts : list string) : DreamEntry :=
  {| id := id d; timestamp := timestamp d; audioBase64 := audioBase64 d;
     transcription := transcription d; tags := ts; mood := mood d;
     lucidityScore := lucidityScore d; isProcessing := isProcessing d;
     generatedImage := generatedImage d |}.

(** ** The records as JavaScript values

    An entry in memory is a JavaScript object. [entry_to_json] is the object
    of an entry that has the declared properties and no others, in the order
    in which the program creates them: those of the literal of [newDream],
    then [generatedImage]. An optional property that is absent is left
    out. *)

Definition optional_member (key : string) (o : option string) : JSON.members :=
  match o with
  | Some s => [(key, JSON.Str s)]
  | None => []
  end.

Definition entry_props (d : DreamEntry) : JSON.members :=
  [("id", JSON.Str (id d)); ("timestamp", JSON.Num (timestamp d))]
  ++ optional_member "audioBase64" (audioBase64 d)
  ++ [("transcription", JSON.Str (transcription d));
      ("tags", JSON.Arr (JSON.Str <$> tags d));
      ("mood", JSON.Str (mood d));
      ("lucidityScore", JSON.Num (lucidityScore d));
      ("isProcessing", JSON.Bool (isProcessing d))]
  ++ optional_member "generatedImage" (generatedImage d).

Definition entry_to_json (d : DreamEntry) : JSON.value :=
  JSON.Obj (entry_props d).

(** The array of a list of objects. *)
Definition array_of (dreams : list JSON.members) : JSON.value :=
  JSON.Arr (JSON.Obj <$> dreams).

Definition dreams_to_json (dreams : list DreamEntry) : JSON.value :=
  array_of (entry_props <$> dreams).

(** ** The analysis service: [analyzeDreamAudio] *)

Module GeminiService.

(** How an asynchronous call ends: its promise resolves to a value, or it
    rejects with an error. *)
Inductive outcome (A : Type) :=
| Resolved (a : A)
| Rejected (error : string).
Arguments Resolved {A} a.
Arguments Rejected {A} error.

Definition bind {A B} (x : outcome A) (f : A → outcome B) : outcome B :=
  match x with
  | Resolved a => f a
  | Rejected e => Rejected e
  end.

(** [try { body } catch (error) { handler }]. *)
Definition try_catch {A} (body : outcome A) (handler : string → outcome A)
    : outcome A :=
  match body with
  | Resolved a => Resolved a
  | Rejected e => handler e
  end.

Notation "'await' x ← e ; k" := (bind e (λ x, k))
  (at level 10, x name, e at level 100, k at level 200, only parsing).

(** [\w] of the regular expression. *)
Definition is_word_char (c : ascii) : bool :=
  let n := N_of_ascii c in
  ((48 <=? n) && (n <=? 57) || (65 <=? n) && (n <=? 90)
   || (97 <=? n) && (n <=? 122) || (n =? 95))%N.

Fixpoint skip_word_chars (s : string) : string :=
  match s with
  | EmptyString => EmptyString
  | String c s' => if is_word_char c then skip_word_chars s' else s
  end.

(** [cleanBase64]: the prefix [data:audio/], one or more word characters
    and [;base64,] is removed when the text starts with it. *)
Definition cleanBase64 (b64 : string) : string :=
  match JS.strip_prefix "data:audio/" b64 with
  | Some (String c r) =>
      if is_word_char c then
        match JS.strip_prefix ";base64," (skip_word_chars r) with
        | Some rest => rest
        | None => b64
        end
      else b64
  | _ => b64
  end.

(** The part of the response of [ai.models.generateContent] that the
    program reads: [response.text], a string or [undefined]. *)
Record GenerateContentResponse := { text : option string }.

(** The object of the literal that is returned when the analysis fails. *)
Definition fallback : JSON.value :=
  JSON.Obj
    [("transcription", JSON.Str "Analysis failed. Please try again later.");
     ("tags", JSON.Arr [JSON.Str "Error"]);
     ("mood", JSON.Str "Unknown");
     ("lucidityScore", JSON.Num (JS.Int 0))].

Section Service.
(** The request to the model, as a function of the MIME type and the audio
    data that the program puts into it. *)
Variable generateContent : string → string → outcome GenerateContentResponse.
(** [JSON.parse] of the platform; [None] when it throws. *)
Variable JSON_parse : string → option JSON.value.

Definition analyzeDreamAudio (audioBase64 mimeType : string) : outcome JSON.value :=
  try_catch
    (await response ← generateContent mimeType (cleanBase64 audioBase64);
     match text response with
     | Some t =>
         if JS.truthy t then
           match JSON_parse t with
           | Some v => Resolved v
           | None => Rejected "SyntaxError"
           end
         else Rejected "No response from Gemini"
     | None => Rejected "No response from Gemini"
     end)
    (λ error, Resolved fallback).
End Service.

(** *** [generateDreamImage] *)

Definition newline : string := String "010" EmptyString.

(** The prompt of the image request, a template literal over four lines. *)
Definition image_prompt (transcription mood : string) : string :=
  "Create an artistic, ethereal, and dreamlike illustration of the following dream description. "
  +:+ newline +:+ "    Mood: " +:+ mood +:+ ". "
  +:+ newline +:+ "    Dream: " +:+ transcription +:+ ". "
  +:+ newline
  +:+ "    Art style: Digital fantasy art, soft lighting, moss and forest tones, surrealist, mysterious.".

(** [part.inlineData]: both fields are optional in the declarations of the
    service. *)
Record InlineData := { mimeType : option string; data : option string }.
Record Part := { inlineData : option InlineData }.
Record Content := { parts : option (list Part) }.
Record Candidate := { content : option Content }.

(** The part of the response that [generateDreamImage] reads. *)
Record ImageResponse := { candidates : option (list Candidate) }.

(** [response.candidates?.[0]?.content?.parts || []]. *)
Definition response_parts (response : ImageResponse) : list Part :=
  match candidates response with
  | Some (candidate :: _) =>
      match content candidate with
      | Some c => default [] (parts c)
      | None => []
      end
  | _ => []
  end.

(** The loop over the parts: the data URL of the first part that has
    [inlineData], or [null]. *)
Fixpoint first_inline_image (ps : list Part) : option string :=
  match ps with
  | [] => None
  | part :: ps' =>
      match inlineData part with
      | Some d =>
          Some ("data:" +:+ JS.template (mimeType d) +:+ ";base64,"
                +:+ JS.template (data d))
      | None => first_inline_image ps'
      end
  end.

Section Illustration.
(** The image request, as a function of its prompt. *)
Variable generateContent : string → outcome ImageResponse.

Definition generateDreamImage (transcription mood : string)
    : outcome (option string) :=
  try_catch
    (await response ← generateContent (image_prompt transcription mood);
     Resolved (first_inline_image (response_parts response)))
    (λ error, Resolved None).
End Illustration.

(** *** [interpretDreams] *)

Section Interpretation.
(** [new Date(ts).toLocaleDateString()] with the defaults of the host. *)
Variable toLocaleDateString : JS.number → string.
(** The text request, as a function of its contents. *)
Variable generateContent : string → outcome GenerateContentResponse.

(** The template literal that [dreams.map] builds for one entry. *)
Definition dream_block (d : DreamEntry) : string :=
  "Date: " +:+ toLocaleDateString (timestamp d)
  +:+ newline +:+ "       Mood: " +:+ mood d
  +:+ newline +:+ "       Tags: " +:+ JS.join (tags d) ", "
  +:+ newline +:+ "       Content: " +:+ transcription d.

Definition dreamContext (dreams : list DreamEntry) : string :=
  JS.join (dream_block <$> dreams) (newline +:+ newline).

(** The [contents] of the request. *)
Definition interpret_contents (dreams : list DreamEntry) : string :=
  "Here are several dreams from my journal:" +:+ newline +:+ newline
  +:+ dreamContext dreams +:+ newline +:+ newline +:+ newline
  +:+ "      Based on these dreams, please provide a psychological or symbolic interpretation."
  +:+ newline
  +:+ "      Identify common themes, recurring symbols, and potential emotional undercurrents."
  +:+ newline
  +:+ "      Answer the question: " +:+ String JSON.dquote "Why am I dreaming about this?"
  +:+ String JSON.dquote " in a supportive, insightful, and mystical tone."
  +:+ newline
  +:+ "      Keep the response concise (under 200 words) but profound.".

Definition interpretDreams (dreams : list DreamEntry) : outcome string :=
  try_catch
    (await response ← generateContent (interpret_contents dreams);
     Resolved
       match text response with
       | Some t => JS.or_else t "Could not generate interpretation."
       | None => "Could not generate interpretation."
       end)
    (λ error, Resolved "Failed to interpret dreams. Please try again.").
End Interpretation.

End GeminiService.

(** [{...dream, transcription: t}]. *)
Definition with_transcription (d : DreamEntry) (t : string) : DreamEntry :=
  {| id := id d; timestamp := timestamp d; audioBase64 := audioBase64 d;
     transcription := t; tags := tags d; mood := mood d;
     lucidityScore := lucidityScore d; isProcessing := isProcessing d;
     generatedImage := generatedImage d |}.

(** [{...dream, transcription: t, generatedImage: image}]. *)
Definition with_image (d : DreamEntry) (t image : string) : DreamEntry :=
  {| id := id d; timestamp := timestamp d; audioBase64 := audioBase64 d;
     transcription := t; tags := tags d; mood := mood d;
     lucidityScore := lucidityScore d; isProcessing := isProcessing d;
     generatedImage := Some image |}.

(** What a handler of the card has done when it returns: called [onUpdate],
    shown an [alert], or neither. *)
Inductive card_effect (R : Type) :=
| Updated (r : R)
| Alerted (message : string)
| NoEffect.
Arguments Updated {R} r.
Arguments Alerted {R} message.
Arguments NoEffect {R}.

(** ** src/components/DreamCard.tsx: the tag editor *)

Module DreamCard.

(** The handlers call the optional [onUpdate] property with a patched copy
    of the card's entry. [R] is whatever the callback produces; [None]
    means that the callback was not invoked. *)
Section Handlers.
Context {R : Type}.
Variable onUpdate : option (DreamEntry → R).
Variable dream : DreamEntry.

(** [addTag], with [newTag] the content of the input box. *)
Definition addTag (newTag : string) : option R :=
  match onUpdate with
  | Some f =>
      if JS.truthy (JS.trim newTag)
      then Some (f (with_tags dream (tags dream ++ [JS.trim newTag])))
      else None
  | None => None
  end.

(** [removeTag]. *)
Definition removeTag (tagToRemove : string) : option R :=
  match onUpdate with
  | Some f =>
      Some (f (with_tags dream
                 (List.filter (λ t, negb (String.eqb t tagToRemove)) (tags dream))))
  | None => None
  end.

(** [handleTranscriptionBlur], with [editedTranscription] the content of the
    text area. *)
Definition handleTranscriptionBlur (editedTranscription : string) : option R :=
  match onUpdate with
  | Some f =>
      if negb (String.eqb editedTranscription (transcription dream))
      then Some (f (with_transcription dream editedTranscription))
      else None
  | None => None
  end.

(** [handleGenerateImage]: what the handler has done once its promise is
    settled. [dream] and [editedTranscription] are those of the render in
    which the button was pressed. *)
Definition handleGenerateImage
    (generateDreamImage : string → string → GeminiService.outcome (option string))
    (editedTranscription : string) : GeminiService.outcome (card_effect R) :=
  match onUpdate with
  | None => GeminiService.Resolved NoEffect
  | Some f =>
      GeminiService.bind (generateDreamImage editedTranscription (mood dream))
        (λ imageBase64,
           GeminiService.Resolved
             match imageBase64 with
             | Some image =>
                 if JS.truthy image
                 then Updated (f (with_image dream editedTranscription image))
                 else Alerted "Failed to generate image. Please try again."
             | None => Alerted "Failed to generate image. Please try again."
             end)
  end.
End Handlers.

End DreamCard.

(** ** src/components/RecorderButton.tsx: the recorder *)

Module RecorderButton.

(** [formatTime]. *)
Definition formatTime (seconds : Z) : string :=
  let mins := (seconds / 60)%Z in
  let secs := Z.rem seconds 60 in
  JS.toString mins +:+ ":" +:+ JS.padStart (JS.toString secs) 2 "0".

(** The state of the component: the two React states, the three refs, and
    what the browser holds for it, namely the interval timers that are
    running, the recorders that are recording and the next free handle. A
    chunk of recorded data is the string of its bytes. *)
Record State := mkState {
  isRecording : bool;
  duration : Z;
  mediaRecorderRef : option positive;
  chunksRef : list string;
  timerRef : option positive;
  intervals : list positive;
  recorders : list positive;
  next_handle : positive
}.

Definition initial : State :=
  {| isRecording := false; duration := 0; mediaRecorderRef := None;
     chunksRef := []; timerRef := None; intervals := []; recorders := [];
     next_handle := 1 |}.

(** What happens to the component. [startRecording] runs in two parts, up to
    the [await] on [getUserMedia] and from there on; until the second part
    has run the button still starts a recording. *)
Inductive Event :=
| MicrophoneGranted
| MicrophoneDenied
| DataAvailable (data : string)
| Tick (timer : positive)
| StopClicked
| RecorderStopped.

(** What the component does to its surroundings. *)
Inductive Output :=
| RecordingComplete (audioBlob : string)
| Alert (message : string).

(** [startRecording] after [getUserMedia] has resolved. *)
Definition start_granted (st : State) : State :=
  let recorder := next_handle st in
  let timer := Pos.succ recorder in
  {| isRecording := true;
     duration := 0;
     mediaRecorderRef := Some recorder;
     chunksRef := [];
     timerRef := Some timer;
     intervals := timer :: intervals st;
     recorders := recorder :: recorders st;
     next_handle := Pos.succ timer |}.

(** [mediaRecorder.ondataavailable]. *)
Definition ondataavailable (data : string) (st : State) : State :=
  if (0 <? String.length data)%nat then
    {| isRecording := isRecording st; duration := duration st;
       mediaRecorderRef := mediaRecorderRef st;
       chunksRef := chunksRef st ++ [data];
       timerRef := timerRef st; intervals := intervals st;
       recorders := recorders st; next_handle := next_handle st |}
  else st.

(** The callback of [setInterval], when the timer is still running. *)
Definition tick (timer : positive) (st : State) : State :=
  if bool_decide (timer ∈ intervals st) then
    {| isRecording := isRecording st; duration := (duration st + 1)%Z;
       mediaRecorderRef := mediaRecorderRef st; chunksRef := chunksRef st;
       timerRef := timerRef st; intervals := intervals st;
       recorders := recorders st; next_handle := next_handle st |}
  else st.

(** [stopRecording]. *)
Definition stopRecording (st : State) : State :=
  match mediaRecorderRef st with
  | Some recorder =>
      if isRecording st then
        {| isRecording := false; duration := duration st;
           mediaRecorderRef := mediaRecorderRef st; chunksRef := chunksRef st;
           timerRef := None;
           intervals :=
             match timerRef st with
             | Some timer => List.filter (λ t, negb (Pos.eqb t timer)) (intervals st)
             | None => intervals st
             end;
           recorders := List.filter (λ r, negb (Pos.eqb r recorder)) (recorders st);
           next_handle := next_handle st |}
      else st
  | None => st
  end.

(** [mediaRecorder.onstop]: the blob of the chunks collected so far. *)
Definition onstop (st : State) : string :=
  String.concat "" (chunksRef st).

Definition step (st : State) (e : Event) : State * list Output :=
  match e with
  | MicrophoneGranted => (start_granted st, [])
  | MicrophoneDenied =>
      (st, [Alert "Could not access microphone. Please check permissions."])
  | DataAvailable data => (ondataavailable data st, [])
  | Tick timer => (tick timer st, [])
  | StopClicked => (stopRecording st, [])
  | RecorderStopped => (st, [RecordingComplete (onstop st)])
  end.

Definition run (es : list Event) (st : State) : State :=
  fold_left (λ st e, fst (step st e)) es st.

End RecorderButton.

(** ** src/App.tsx: the store *)

(** [d.id === updatedDream.id], on the entries of the declared type, whose
    ids are strings, and on the objects that the store holds at run time,
    whose ids are whatever was stored or spread into them. *)
Class SameId (E : Type) := same_id : E → E → bool.

Global Instance DreamEntry_same_id : SameId DreamEntry :=
  λ d u, String.eqb (id d) (id u).

Global Instance members_same_id : SameId JSON.members :=
  λ d u, JSON.strict_eq (JSON.get "id" d) (JSON.get "id" u).

Module App.

(** [handleUpdateDream]: the state update it hands to [setDreams]. *)
Definition handleUpdateDream {E} `{SameId E} (updatedDream : E)
    (prev : list E) : list E :=
  List.map (λ d, if same_id d updatedDream then updatedDream else d) prev.

(** *** Recording *)

Definition autoTranscribe : bool := true.

(** [newDream] of [handleRecordingComplete]: [now_id] and [now_timestamp]
    are the two readings of [Date.now()], which are integers, and
    [base64Audio] is the resolved value of [blobToBase64]. *)
Definition newDream (now_id now_timestamp : Z) (base64Audio : string) : DreamEntry :=
  {| id := JS.toString now_id;
     timestamp := JS.Int now_timestamp;
     audioBase64 := Some base64Audio;
     transcription := "Processing...";
     tags := [];
     mood := "";
     lucidityScore := JS.Int 0;
     isProcessing := true;
     generatedImage := None |}.

(** [{...d, ...analysis, isProcessing: false}], with [analysis] the own
    enumerable properties of the value that [analyzeDreamAudio] resolved
    to, which is all that the spread reads of it. *)
Definition with_analysis (d analysis : JSON.members) : JSON.members :=
  JSON.set_member "isProcessing" (JSON.Bool false) (JSON.spread d analysis).

(** [{...d, transcription: "Audio Log (Untranscribed)", mood: "Recorded",
    isProcessing: false}]. *)
Definition with_manual_save (d : JSON.members) : JSON.members :=
  JSON.set_member "isProcessing" (JSON.Bool false)
    (JSON.set_member "mood" (JSON.Str "Recorded")
       (JSON.set_member "transcription" (JSON.Str "Audio Log (Untranscribed)")
          d)).

(** The first state update of [handleRecordingComplete]. *)
Definition insert_dream {E} (newDream : E) (prev : list E) : list E :=
  newDream :: prev.

(** [d.id === newDream.id], where [newDream.id] is a string. *)
Definition is_newDream (newDream : DreamEntry) (d : JSON.members) : bool :=
  JSON.strict_eq (JSON.get "id" d) (Some (JSON.Str (id newDream))).

(** Its second state update, once [analyzeDreamAudio] has resolved. *)
Definition complete_dream (newDream : DreamEntry) (analysis : JSON.members)
    (prev : list JSON.members) : list JSON.members :=
  if autoTranscribe then
    List.map (λ d, if is_newDream newDream d then with_analysis d analysis else d)
      prev
  else
    List.map (λ d, if is_newDream newDream d then with_manual_save d else d) prev.

(** The mutations of the store: the two state updates of a recording and
    the update by id, with the object that a card hands over. *)
Inductive Mutation :=
| RecordingInserted (now_id now_timestamp : Z) (base64Audio : string)
| AnalysisResolved (newDream : DreamEntry) (analysis : JSON.members)
| DreamUpdated (updatedDream : JSON.members).

Definition update_of (m : Mutation) : list JSON.members → list JSON.members :=
  match m with
  | RecordingInserted now_id now_timestamp base64Audio =>
      insert_dream (entry_props (newDream now_id now_timestamp base64Audio))
  | AnalysisResolved newDream analysis => complete_dream newDream analysis
  | DreamUpdated updatedDream => handleUpdateDream updatedDream
  end.

(** [handleRecordingComplete] as the state updates that it issues, in
    order. [blob] is how [blobToBase64] ended: when it rejects, the handler
    stops at its first [await], before any update. Otherwise it issues the
    insert and then, after the [await] on the analysis, the completion with
    the properties of the resolved analysis; other handlers may run during
    that [await]. *)
Definition handleRecordingComplete (blob : GeminiService.outcome string)
    (now_id now_timestamp : Z) (analysis : JSON.members) : list Mutation :=
  match blob with
  | GeminiService.Resolved base64Audio =>
      [RecordingInserted now_id now_timestamp base64Audio;
       AnalysisResolved (newDream now_id now_timestamp base64Audio) analysis]
  | GeminiService.Rejected _ => []
  end.

(** The busy flag of the application once the handler has ended:
    [setIsProcessing(true)] comes before the first [await] and
    [setIsProcessing(false)] after the last, so that the flag stays up when
    [blobToBase64] rejects. *)
Definition busy_after (blob : GeminiService.outcome string) : bool :=
  match blob with
  | GeminiService.Resolved _ => false
  | GeminiService.Rejected _ => true
  end.

(** *** Persistence, and the renders and effects of React *)

Section Store.
(** [JSON.parse] of the platform; [None] when it throws. *)
Variable JSON_parse : string → option JSON.value.
(** Whether the contents of a storage are within the quota of the origin. *)
Variable within_quota : gmap string string → bool.

(** The load effect of the first render: the value that it hands to
    [setDreams], if it gets that far. Nothing stored, an empty text and a
    text that [JSON.parse] rejects (the [catch] only logs) all leave the
    state alone. *)
Definition load_effect (localStorage : gmap string string) : option JSON.value :=
  match localStorage !! "dream_journal" with
  | Some saved => if JS.truthy saved then JSON_parse saved else None
  | None => None
  end.

(** The state [dreams] of the render that follows the load effect. *)
Definition dreams_after_mount (localStorage : gmap string string) : JSON.value :=
  default (JSON.Arr []) (load_effect localStorage).

(** [localStorage.setItem(key, text)]; [None] when it throws because the
    quota is exceeded, and the storage is then as it was. *)
Definition setItem (key text : string) (localStorage : gmap string string)
    : option (gmap string string) :=
  let stored := <[key := text]> localStorage in
  if within_quota stored then Some stored else None.

(** The application: the state [dreams] of the last render, the storage,
    whether the save effect of that render has yet to run, and whether the
    application is still mounted. *)
Record AppState := mkAppState {
  st_dreams : list JSON.members;
  st_localStorage : gmap string string;
  st_unsaved : bool;
  st_mounted : bool
}.

(** The save effect. An exception in an effect that no error boundary
    catches unmounts the application. *)
Definition save_effect (st : AppState) : AppState :=
  match setItem "dream_journal" (JSON.stringify (array_of (st_dreams st)))
          (st_localStorage st) with
  | Some stored =>
      {| st_dreams := st_dreams st; st_localStorage := stored;
         st_unsaved := false; st_mounted := true |}
  | None =>
      {| st_dreams := st_dreams st; st_localStorage := st_localStorage st;
         st_unsaved := false; st_mounted := false |}
  end.

(** What happens to the application: a state update [setDreams(f)] takes
    part in the next render, and the effects of the last render are run.
    React runs the effects of a render before it renders again, and renders
    several updates at once when they come together: a series of updates
    with no [Effects] in between is one render. The save effect depends on
    [dreams], which every update replaces by a new array. Nothing happens
    to an application that is unmounted. *)
Inductive Event :=
| Mutate (m : Mutation)
| Effects.

Definition step (st : AppState) (e : Event) : AppState :=
  if st_mounted st then
    match e with
    | Mutate m =>
        {| st_dreams := update_of m (st_dreams st);
           st_localStorage := st_localStorage st;
           st_unsaved := true; st_mounted := true |}
    | Effects => if st_unsaved st then save_effect st else st
    end
  else st.

Definition run (es : list Event) (st : AppState) : AppState :=
  fold_left step es st.

(** The application once the effects of its first render have run. That
    render has the empty list, so that the save effect stores the text of
    the empty list; before it, the load effect has read the storage and
    called [setDreams] with the array [loaded] of objects, or not at all. *)
Definition mount (localStorage : gmap string string)
    (loaded : option (list JSON.members)) : AppState :=
  let first :=
    save_effect {| st_dreams := []; st_localStorage := localStorage;
                   st_unsaved := true; st_mounted := true |} in
  match loaded with
  | Some dreams =>
      if st_mounted first then
        {| st_dreams := dreams; st_localStorage := st_localStorage first;
           st_unsaved := true; st_mounted := true |}
      else first
  | None => first
  end.

(** The states that the application passes through when what is stored is
    nothing that parses or an array of objects. *)
Inductive reachable : AppState → Prop :=
| reachable_mount localStorage loaded :
    load_effect localStorage = array_of <$> loaded →
    reachable (mount localStorage loaded)
| reachable_step st e : reachable st → reachable (step st e).
End Store.

(** One section of the list view: [{ date, dreams }]. *)
Record Group := mkGroup { date : string; dreams : list DreamEntry }.

(** [existingGroup.dreams.push(dream)]. *)
Definition push_dream (dream : DreamEntry) (g : Group) : Group :=
  {| date := date g; dreams := dreams g ++ [dream] |}.

(** What [renderList] shows below the search box. *)
Inductive ListScreen :=
| VoidIsSilent
| NoDreamsFound
| Timeline (groups : list Group).

Section ListView.
(** [s.toLowerCase()] follows the Unicode tables of the host, and
    [new Date(ts).toLocaleDateString(undefined, { weekday: 'long',
    month: 'long', day: 'numeric' })] its locale and time zone: both are
    parameters of the list view. *)
Variable toLowerCase : string → string.
Variable toLocaleDateString : JS.number → string.

(** The callback of [dreams.filter], with [query] already lower-cased. *)
Definition keeps (query : string) (d : DreamEntry) : bool :=
  if negb (JS.truthy query) then true
  else
    let dateStr := toLowerCase (toLocaleDateString (timestamp d)) in
    let tagsStr := toLowerCase (JS.join (tags d) " ") in
    let text := toLowerCase (JS.or_else (transcription d) "") in
    JS.includes text query || JS.includes tagsStr query
    || JS.includes dateStr query.

(** Step 1 of [groupedDreams]. *)
Definition filtered (dreams : list DreamEntry) (searchQuery : string)
    : list DreamEntry :=
  let query := toLowerCase searchQuery in
  List.filter (keeps query) dreams.

(** The callback of [filtered.reduce]. [acc.find] returns the first group
    with the entry's date label, an object that [acc] itself holds, so
    the [push] on it shows in [acc] at that group's position. *)
Definition add_to_groups (acc : list Group) (dream : DreamEntry) : list Group :=
  let dateKey := toLocaleDateString (timestamp dream) in
  match JS.findIndex (λ g, String.eqb (date g) dateKey) acc with
  | Some i => alter (push_dream dream) i acc
  | None => acc ++ [ {| date := dateKey; dreams := [dream] |} ]
  end.

(** Step 2 of [groupedDreams]. *)
Definition grouped (filtered : list DreamEntry) : list Group :=
  fold_left add_to_groups filtered [].

Definition groupedDreams (dreams : list DreamEntry) (searchQuery : string)
    : list Group :=
  grouped (filtered dreams searchQuery).

(** The three-way conditional of [renderList]. *)
Definition renderList (dreams : list DreamEntry) (searchQuery : string)
    : ListScreen :=
  if (length dreams =? 0)%nat then VoidIsSilent
  else if (length (groupedDreams dreams searchQuery) =? 0)%nat then NoDreamsFound
  else Timeline (groupedDreams dreams searchQuery).
End ListView.


(** *** The interpretation view *)

(** [toggleDreamSelection]: the state update it hands to
    [setSelectedDreamIds]. *)
Definition toggleDreamSelection (id : string) (prev : list string) : list string :=
  if JS.array_includes prev id
  then List.filter (λ dId, negb (String.eqb dId id)) prev
  else prev ++ [id].

(** The state of the interpretation workflow. *)
Record OracleState := mkOracleState {
  selectedDreamIds : list string;
  isInterpreting : bool;
  interpretationResult : option string
}.

(** [dreams.filter(d => selectedDreamIds.includes(d.id))]. *)
Definition selectedDreams (dreams : list DreamEntry) (selected : list string)
    : list DreamEntry :=
  List.filter (λ d, JS.array_includes selected (id d)) dreams.

(** [handleInterpretSelected]: the state once the handler is done.
    [interpretDreams] is the call to the service; the handler has no
    [catch], so a rejected call would leave the state as it was set before
    the [await]. *)
Definition handleInterpretSelected
    (interpretDreams : list DreamEntry → GeminiService.outcome string)
    (dreams : list DreamEntry) (st : OracleState) : OracleState :=
  if (length (selectedDreamIds st) =? 0)%nat then st
  else
    let requesting :=
      {| selectedDreamIds := selectedDreamIds st;
         isInterpreting := true;
         interpretationResult := None |} in
    match interpretDreams (selectedDreams dreams (selectedDreamIds st)) with
    | GeminiService.Resolved result =>
        {| selectedDreamIds := selectedDreamIds st;
           isInterpreting := false;
           interpretationResult := Some result |}
    | GeminiService.Rejected _ => requesting
    end.

(** [renderInterpretation] shows the result when [interpretationResult] is
    truthy and the list to select from otherwise. *)
Definition shows_result (st : OracleState) : bool :=
  match interpretationResult st with
  | Some result => JS.truthy result
  | None => false
  end.

(** The events that change the store or the selection of the
    interpretation view: a state update [setDreams(update)], and a click on
    the row of an entry of the store. *)
Inductive UiEvent :=
| StoreUpdated (update : list DreamEntry → list DreamEntry)
| RowClicked (row : nat).

(** The store together with the selection. A click on a row that is not
    there cannot happen and changes nothing. *)
Definition ui_step (st : list DreamEntry * list string) (e : UiEvent)
    : list DreamEntry * list string :=
  match e with
  | StoreUpdated update => (update (fst st), snd st)
  | RowClicked row =>
      match fst st !! row with
      | Some dream => (fst st, toggleDreamSelection (id dream) (snd st))
      | None => st
      end
  end.

Definition ui_run (es : list UiEvent) (st : list DreamEntry * list string)
    : list DreamEntry * list string :=
  fold_left ui_step es st.

End App.

(** ** A host to run the list view on

    The application takes lower-casing, date formatting, the parser of JSON
    texts and the quota of the storage from its host. This host lower-cases
    the letters of ASCII, formats dates as the [en-US] locale does in the
    UTC time zone, parses the texts of the model and has a quota on the
    number of bytes, which gives the examples something to compute with. *)

Module Host.

Definition lower_char (c : ascii) : ascii :=
  let n := N_of_ascii c in
  if ((65 <=? n) && (n <=? 90))%N then ascii_of_N (n + 32) else c.

Fixpoint toLowerCase (s : string) : string :=
  match s with
  | EmptyString => EmptyString
  | String c s' => String (lower_char c) (toLowerCase s')
  end.

Definition weekday_name (n : Z) : string :=
  match n with
  | 0 => "Sunday" | 1 => "Monday" | 2 => "Tuesday" | 3 => "Wednesday"
  | 4 => "Thursday" | 5 => "Friday" | _ => "Saturday"
  end%Z.

Definition month_name (n : Z) : string :=
  match n with
  | 1 => "January" | 2 => "February" | 3 => "March" | 4 => "April"
  | 5 => "May" | 6 => "June" | 7 => "July" | 8 => "August"
  | 9 => "September" | 10 => "October" | 11 => "November" | _ => "December"
  end%Z.

(** Month and day of the month of a day counted from 1 January 1970, in the
    proleptic Gregorian calendar. *)
Definition month_and_day (days : Z) : Z * Z :=
  (let z := days + 719468 in
   let era := z / 146097 in
   let doe := z - era * 146097 in
   let yoe := (doe - doe / 1460 + doe / 36524 - doe / 146096) / 365 in
   let doy := doe - (365 * yoe + yoe / 4 - yoe / 100) in
   let mp := (5 * doy + 2) / 153 in
   let d := doy - (153 * mp + 2) / 5 + 1 in
   let m := if mp <? 10 then mp + 3 else mp - 9 in
   (m, d))%Z.

(** The time value of [new Date(ts)]: the integer part of a finite number
    within 8.64e15 of zero. *)
Definition time_value (ts : JS.number) : option Z :=
  match ts with
  | JS.Dec m k =>
      let t := (m ÷ 10 ^ Z.of_nat k)%Z in
      if (Z.abs t <=? 8640000000000000)%Z then Some t else None
  | JS.NegZero => Some 0%Z
  | JS.NaN | JS.Infinity _ => None
  end.

(** [new Date(ts).toLocaleDateString('en-US', { weekday: 'long', month:
    'long', day: 'numeric', timeZone: 'UTC' })]. *)
Definition toLocaleDateString (ts : JS.number) : string :=
  match time_value ts with
  | Some t =>
      let days := (t / 86400000)%Z in
      let '(m, d) := month_and_day days in
      weekday_name ((days + 4) mod 7) +:+ ", " +:+ month_name m +:+ " "
      +:+ JS.toString d
  | None => "Invalid Date"
  end.

(** A parser that throws on the texts that the model leaves open. *)
Definition JSON_parse (text : string) : option JSON.value :=
  match JSON.parse text with
  | JSON.Parsed v => Some v
  | JSON.SyntaxError | JSON.Unmodelled => None
  end.

(** The number of bytes of the keys and texts of a storage. *)
Definition storage_size (localStorage : gmap string string) : nat :=
  map_fold (λ key text n, String.length key + String.length text + n)%nat O
    localStorage.

(** A quota of [capacity] bytes. *)
Definition within_quota (capacity : nat) (localStorage : gmap string string) : bool :=
  (storage_size localStorage <=? capacity)%nat.

End Host.

(** ** Sample data for the examples *)

Module Sample.

Definition flying : DreamEntry :=
  {| id := "1700000000000"; timestamp := JS.Int 1700000000000;
     audioBase64 := Some "QUJD"; transcription := "Flying over water";
     tags := ["Flying"; "Water"]; mood := "Calm"; lucidityScore := JS.Int 7;
     isProcessing := false; generatedImage := None |}.

Definition chased : DreamEntry :=
  {| id := "1699990000000"; timestamp := JS.Int 1699990000000;
     audioBase64 := None; transcription := "Chased by a dog";
     tags := ["Chased"; "Dog"; "Chased"]; mood := "Anxious"; lucidityScore := JS.Int 2;
     isProcessing := false; generatedImage := Some "data:image/png;base64,AA" |}.

Definition forest : DreamEntry :=
  {| id := "1699900000000"; timestamp := JS.Int 1699900000000;
     audioBase64 := None; transcription := "Lost in a forest";
     tags := ["Forest"]; mood := "Curious"; lucidityScore := JS.Int 4;
     isProcessing := false; generatedImage := None |}.

(** An entry of a recording that ended in the same millisecond as that of
    [flying], and so has its id. *)
Definition twin : DreamEntry :=
  {| id := "1700000000000"; timestamp := JS.Int 1700000000000;
     audioBase64 := Some "REVG"; transcription := "Processing...";
     tags := []; mood := ""; lucidityScore := JS.Int 0;
     isProcessing := true; generatedImage := None |}.

(** An entry whose score is not finite, as after an analysis whose text
    has the numeral [1e999] for the score. *)
Definition boundless : DreamEntry :=
  {| id := "1699800000000"; timestamp := JS.Int 1699800000000;
     audioBase64 := None; transcription := "Falling without end";
     tags := ["Falling"]; mood := "Uneasy"; lucidityScore := JS.Infinity false;
     isProcessing := false; generatedImage := None |}.

(** The store, newest first. *)
Definition dreams : list DreamEntry := [flying; chased; forest].

(** The stores of the examples hold the objects of these entries. *)
Definition store : list JSON.members := entry_props <$> dreams.

(** The properties of an analysis as the service is asked to give it, with
    a score that is not an integer. *)
Definition analysis : JSON.members :=
  [("transcription", JSON.Str "A red door");
   ("tags", JSON.Arr [JSON.Str "Door"]);
   ("mood", JSON.Str "Tense");
   ("lucidityScore", JSON.Num (JS.Dec 75 1))].

(** A response of the image service: a part of text, then a picture. *)
Definition painted : GeminiService.ImageResponse :=
  {| GeminiService.candidates :=
       Some [ {| GeminiService.content :=
                   Some {| GeminiService.parts :=
                             Some [ {| GeminiService.inlineData := None |};
                                    {| GeminiService.inlineData :=
                                         Some {| GeminiService.mimeType := Some "image/png";
                                                 GeminiService.data := Some "iVBOR" |} |} ] |} |} ] |}.

(** A recording in progress, and what arrives after the stop. *)
Definition capture : list RecorderButton.Event :=
  [RecorderButton.DataAvailable "ab"; RecorderButton.Tick 2;
   RecorderButton.DataAvailable ""; RecorderButton.Tick 2;
   RecorderButton.Tick 7].

Definition flush : list RecorderButton.Event :=
  [RecorderButton.DataAvailable "cd"; RecorderButton.Tick 2].

End Sample.

(** ** Vocabulary of the specification *)

(** [q] occurs in [s] as a substring. *)
Definition is_substring (q s : string) : Prop := ∃ pre post, s = pre +:+ q +:+ post.

(** The filter rule as the specification words it: the query is empty, or
    its lower-cased form occurs in the lower-cased transcription, in the
    lower-cased tags joined by spaces, or in the lower-cased date label. *)
Definition Keep (toLowerCase : string → string) (toLocaleDateString : JS.number → string)
    (searchQuery : string) (d : DreamEntry) : Prop :=
  searchQuery = "" ∨
  is_substring (toLowerCase searchQuery) (toLowerCase (transcription d)) ∨
  is_substring (toLowerCase searchQuery) (toLowerCase (JS.join (tags d) " ")) ∨
  is_substring (toLowerCase searchQuery)
    (toLowerCase (toLocaleDateString (timestamp d))).

(** The labels of a list in the order in which a left-to-right pass meets
    each of them for the first time. *)
Definition see (seen : list string) (x : string) : list string :=
  if decide (x ∈ seen) then seen else seen ++ [x].

Definition first_seen (labels : list string) : list string :=
  fold_left see labels [].

(** What holds of the accumulator [acc] once the entries [done] have been
    folded in. *)
Record grouping_inv (toLocaleDateString : JS.number → string)
    (done : list DreamEntry) (acc : list App.Group) : Prop := {
  inv_dates :
    App.date <$> acc
    = first_seen ((λ d, toLocaleDateString (timestamp d)) <$> done);
  inv_nodup : NoDup (App.date <$> acc);
  inv_members :
    Forall (λ g, App.dreams g
                 = filter (λ d, toLocaleDateString (timestamp d) = App.date g) done)
      acc;
  inv_nonempty : Forall (λ g, App.dreams g ≠ []) acc;
  inv_covered :
    Forall (λ d, toLocaleDateString (timestamp d) ∈ App.date <$> acc) done;
  inv_perm : concat (App.dreams <$> acc) ≡ₚ done
}.

(** The persisted form is the in-memory form: the storage holds the text
    of the list of the state. *)
Definition persisted (st : App.AppState) : Prop :=
  App.st_localStorage st !! "dream_journal"
    = Some (JSON.stringify (array_of (App.st_dreams st))).

(** The entries of the declared type whose numbers a text carries
    unchanged. *)
Definition storable_entry (d : DreamEntry) : bool :=
  JSON.storable_number (timestamp d) && JSON.storable_number (lucidityScore d).

(** The state updates of a series of events, in order. *)
Definition mutations (es : list App.Event) : list App.Mutation :=
  omap (λ e, match e with
             | App.Mutate m => Some m
             | App.Effects => None
             end) es.

(** A series of state updates applied to a store. *)
Definition apply_all (ms : list App.Mutation) (prev : list JSON.members)
    : list JSON.members :=
  fold_left (λ dreams m, App.update_of m dreams) ms prev.

(** The ids of a store, in its order: the property [id] of each entry,
    [None] where there is none. *)
Definition ids (prev : list JSON.members) : list (option JSON.value) :=
  JSON.get "id" <$> prev.

(** The id that a recording gets from a reading of the clock. *)
Definition id_of_clock (now : Z) : option JSON.value :=
  Some (JSON.Str (JS.toString now)).

(** Every entry of the store has a string for its id. *)
Definition string_ids (prev : list JSON.members) : Prop :=
  Forall (λ d, ∃ s, JSON.get "id" d = Some (JSON.Str s)) prev.

(** The clock readings that the recordings of a run turn into ids. *)
Definition clock_readings (ms : list App.Mutation) : list Z :=
  omap (λ m, match m with
             | App.RecordingInserted now_id _ _ => Some now_id
             | _ => None
             end) ms.

(** A state update that gives no entry another id: an insert, an update by
    id, or a completion whose analysis has no property [id], which the
    spread would copy into the entry. *)
Definition keeps_ids (m : App.Mutation) : Prop :=
  match m with
  | App.AnalysisResolved _ analysis => JSON.get "id" analysis = None
  | _ => True
  end.

(** The store holds a pending entry with the id [X]. *)
Definition pending_in (X : string) (prev : list JSON.members) : Prop :=
  ∃ d, d ∈ prev ∧ JSON.get "id" d = Some (JSON.Str X)
       ∧ JSON.get "isProcessing" d = Some (JSON.Bool true).

(** A state update other than the completion of a recording with the id
    [X]: an insert, the completion of a recording with another id, or an
    update by id whose entry, when it carries [X], is pending itself. *)
Definition leaves_pending (X : string) (m : App.Mutation) : Prop :=
  match m with
  | App.RecordingInserted _ _ _ => True
  | App.AnalysisResolved nd _ => id nd ≠ X
  | App.DreamUpdated u =>
      JSON.get "id" u = Some (JSON.Str X) →
      JSON.get "isProcessing" u = Some (JSON.Bool true)
  end.

(** Two entries that differ in their tags at most. *)
Definition same_but_tags (d1 d : DreamEntry) : Prop :=
  id d1 = id d ∧ timestamp d1 = timestamp d ∧
  audioBase64 d1 = audioBase64 d ∧ transcription d1 = transcription d ∧
  mood d1 = mood d ∧ lucidityScore d1 = lucidityScore d ∧
  isProcessing d1 = isProcessing d ∧ generatedImage d1 = generatedImage d.

(** A text of word characters only. *)
Fixpoint is_word (w : string) : bool :=
  match w with
  | EmptyString => true
  | String c w' => GeminiService.is_word_char c && is_word w'
  end.

(** The character of a decimal digit. *)
Definition decimal_digit (k : Z) : ascii := ascii_of_N (48 + Z.to_N k).

(** The events of a recording in progress: data and ticks of timers. *)
Definition is_capture (e : RecorderButton.Event) : bool :=
  match e with
  | RecorderButton.DataAvailable _ | RecorderButton.Tick _ => true
  | _ => false
  end.

(** The data of a series of events that the recorder keeps: that of the
    events with data of positive size, in their order. *)
Definition recorded (es : list RecorderButton.Event) : list string :=
  omap (λ e, match e with
             | RecorderButton.DataAvailable data =>
                 if (0 <? String.length data)%nat then Some data else None
             | _ => None
             end) es.

(** The number of ticks of one timer in a series of events. *)
Definition ticks (timer : positive) (es : list RecorderButton.Event) : nat :=
  length (List.filter (λ e, match e with
                            | RecorderButton.Tick t => Pos.eqb t timer
                            | _ => false
                            end) es).

(** The component at rest: not recording, and nothing of it left running
    in the browser. *)
Definition idle (st : RecorderButton.State) : Prop :=
  RecorderButton.isRecording st = false ∧ RecorderButton.timerRef st = None ∧
  RecorderButton.intervals st = [] ∧ RecorderButton.recorders st = [].

(** An event that takes no id out of the store: a click, or a state update
    after which every id of the store is still there. *)
Definition keeps_store_ids (e : App.UiEvent) : Prop :=
  match e with
  | App.StoreUpdated update => ∀ prev, id <$> prev ⊆ id <$> update prev
  | App.RowClicked _ => True
  end.

(** The selection after a series of clicks on rows, from an empty one. *)
Definition selection_after (clicks : list string) : list string :=
  fold_left (λ sel x, App.toggleDreamSelection x sel) clicks [].

(** * Properties *)

(** ** Update by id *)

Section UpdateById.
Implicit Types (prev : list DreamEntry) (u d : DreamEntry).

Lemma handleUpdateDream_lookup_by {E} `{SameId E} (x : E) (l : list E) (i : nat) :
  App.handleUpdateDream x l !! i = (λ y, if same_id y x then x else y) <$> l !! i.
Proof. unfold App.handleUpdateDream. apply list_lookup_fmap. Qed.

Lemma handleUpdateDream_lookup u prev (i : nat) :
  App.handleUpdateDream u prev !! i =
  (λ d, if String.eqb (id d) (id u) then u else d) <$> prev !! i.
Proof. exact (handleUpdateDream_lookup_by u prev i). Qed.

Lemma handleUpdateDream_idempotent u prev :
  App.handleUpdateDream u (App.handleUpdateDream u prev)
  = App.handleUpdateDream u prev.
Proof.
  unfold App.handleUpdateDream, same_id, DreamEntry_same_id.
  rewrite List.map_map. apply List.map_ext.
  intros d. destruct (String.eqb (id d) (id u)) eqn:E; [|by rewrite E].
  by rewrite String.eqb_refl.
Qed.

Lemma handleUpdateDream_absent u prev :
  Forall (λ d, id d ≠ id u) prev → App.handleUpdateDream u prev = prev.
Proof.
  unfold App.handleUpdateDream, same_id, DreamEntry_same_id.
  induction 1 as [|d l Hd _ IH]; simpl; [done|].
  rewrite IH. apply String.eqb_neq in Hd. by rewrite Hd.
Qed.

(** C6. Update by id replaces every entry that carries the id, not one
    entry: when no entry carries the id of the patched entry the store is
    returned as it was; otherwise the result has the same length, and at
    every position it holds the patched entry where the old entry carried
    that id and the old entry itself everywhere else, so order is kept. *)
Theorem handleUpdateDream_frame u prev :
  (Forall (λ d, id d ≠ id u) prev → App.handleUpdateDream u prev = prev) ∧
  length (App.handleUpdateDream u prev) = length prev ∧
  (∀ (i : nat) d, prev !! i = Some d →
     (id d = id u → App.handleUpdateDream u prev !! i = Some u) ∧
     (id d ≠ id u → App.handleUpdateDream u prev !! i = Some d)).
Proof.
  split; [apply handleUpdateDream_absent|].
  split; [apply length_map|].
  intros i d Hi. rewrite handleUpdateDream_lookup, Hi. simpl.
  split; intros Hid.
  - apply String.eqb_eq in Hid. by rewrite Hid.
  - apply String.eqb_neq in Hid. by rewrite Hid.
Qed.

(** Two entries that carry one id are both replaced by one update: of the
    two old entries, which differ, neither is left. *)
Lemma handleUpdateDream_replaces_every_match :
  let u := with_tags Sample.flying ["Sea"] in
  Sample.twin ≠ Sample.flying ∧ Sample.twin ≠ u ∧ Sample.flying ≠ u ∧
  App.handleUpdateDream u [Sample.twin; Sample.flying; Sample.forest]
  = [u; u; Sample.forest].
Proof. vm_compute. repeat split; congruence. Qed.
End UpdateById.

(** ** The tag editor *)

Section Tags.
Implicit Types (d : DreamEntry) (t u : string) (l : list string).

Lemma List_filter_stdpp {A} (f : A → bool) (P : A → Prop)
    `{!∀ x, Decision (P x)} (l : list A) :
  (∀ x, f x = true ↔ P x) → List.filter f l = filter P l.
Proof.
  intros Hf. induction l as [|x l IH]; simpl; [done|].
  rewrite filter_cons, IH. destruct (f x) eqn:E.
  - apply Hf in E. by rewrite decide_True.
  - rewrite decide_False; [done|]. intros HP. apply Hf in HP. congruence.
Qed.

Lemma neqb_true t u : negb (String.eqb u t) = true ↔ u ≠ t.
Proof. rewrite negb_true_iff. apply String.eqb_neq. Qed.

(** What [removeTag] leaves of a tag list. *)
Lemma removeTag_filter l t :
  List.filter (λ u, negb (String.eqb u t)) l = filter (λ u, u ≠ t) l.
Proof. apply List_filter_stdpp. intros u. apply neqb_true. Qed.

Lemma filter_ne_absent l t : t ∉ l → filter (λ u, u ≠ t) l = l.
Proof.
  induction l as [|x l IH]; [done|]. intros Hx.
  apply not_elem_of_cons in Hx as [Hne Hl].
  rewrite filter_cons_True by done. by rewrite IH.
Qed.

Lemma with_tags_same d : with_tags d (tags d) = d.
Proof. by destruct d. Qed.

Lemma truthy_nonempty s : JS.truthy s = true ↔ s ≠ "".
Proof. destruct s; simpl; split; congruence. Qed.

Lemma same_but_tags_with_tags d l : same_but_tags (with_tags d l) d.
Proof. by destruct d. Qed.

(** C9. Removal is idempotent and addition does not deduplicate. With the
    callback [f] installed, removing [t] hands [f] an entry [d1] that is
    [d] with the tags other than [t]; removing [t] again from [d1] hands it
    [d1] once more, so that updating the store a second time changes
    nothing; and [d1] is [d] itself when [t] is not among the tags of [d].
    Adding a text whose trimmed form [t] is not empty hands [f] an entry
    [d2] that is [d] with [t] appended at the end of its tags, whether or
    not [t] was already there: [t] then occurs once more than before, and
    twice or more when it was there. A text whose trimmed form is empty
    adds nothing. *)
Theorem removeTag_idempotent_addTag_keeps_duplicates
    {R} (f : DreamEntry → R) d t :
  (∃ d1, DreamCard.removeTag (Some f) d t = Some (f d1) ∧
         tags d1 = filter (λ u, u ≠ t) (tags d) ∧
         same_but_tags d1 d ∧
         DreamCard.removeTag (Some f) d1 t = Some (f d1) ∧
         (∀ prev, App.handleUpdateDream d1 (App.handleUpdateDream d1 prev)
                  = App.handleUpdateDream d1 prev) ∧
         (t ∉ tags d → d1 = d)) ∧
  (∀ newTag, JS.trim newTag = t → t ≠ "" →
     ∃ d2, DreamCard.addTag (Some f) d newTag = Some (f d2) ∧
           tags d2 = tags d ++ [t] ∧
           same_but_tags d2 d ∧
           length (filter (λ u, u = t) (tags d2)) =
           S (length (filter (λ u, u = t) (tags d))) ∧
           (t ∈ tags d → ¬ NoDup (tags d2))) ∧
  (∀ newTag, JS.trim newTag = "" → DreamCard.addTag (Some f) d newTag = None).
Proof.
  split; [|split].
  - exists (with_tags d (filter (λ u, u ≠ t) (tags d))).
    unfold DreamCard.removeTag. simpl. rewrite !removeTag_filter.
    split; [done|]. split; [done|].
    split; [apply same_but_tags_with_tags|]. split; [|split].
    + do 3 f_equal. rewrite list_filter_filter.
      apply list_filter_iff. tauto.
    + apply handleUpdateDream_idempotent.
    + intros Hnot. rewrite filter_ne_absent by done. apply with_tags_same.
  - intros newTag Htrim Hne. exists (with_tags d (tags d ++ [t])).
    split; [|split; [done|split; [apply same_but_tags_with_tags|split]]].
    + unfold DreamCard.addTag. rewrite Htrim.
      apply truthy_nonempty in Hne. by rewrite Hne.
    + simpl. rewrite filter_app, length_app.
      rewrite filter_cons_True, filter_nil by done. simpl. lia.
    + simpl. intros Hin Hnd. apply NoDup_app in Hnd as (_ & Hdis & _).
      apply (Hdis t Hin). by left.
  - intros newTag Htrim. unfold DreamCard.addTag. by rewrite Htrim.
Qed.

(** C10. One removal deletes every occurrence of the tag and nothing else:
    the tag list handed to the callback does not contain [t], it is the
    old list with exactly the elements different from [t] kept in their
    old order, and every other tag occurs in it as often as before. *)
Theorem removeTag_removes_all {R} (f : DreamEntry → R) d t :
  ∃ d1, DreamCard.removeTag (Some f) d t = Some (f d1) ∧
        d1 = with_tags d (tags d1) ∧
        (t ∉ tags d1) ∧
        tags d1 = filter (λ u, u ≠ t) (tags d) ∧
        sublist (tags d1) (tags d) ∧
        (∀ u, u ≠ t →
           filter (λ v, v = u) (tags d1) = filter (λ v, v = u) (tags d)).
Proof.
  exists (with_tags d (filter (λ u, u ≠ t) (tags d))).
  unfold DreamCard.removeTag. rewrite removeTag_filter. simpl.
  split; [done|]. split; [done|]. split.
  { rewrite list_elem_of_filter. tauto. }
  split; [done|]. split; [apply sublist_filter|].
  intros u Hu. rewrite list_filter_filter.
  apply list_filter_iff. intros v. split; [tauto|].
  intros ->. done.
Qed.
End Tags.

(** ** Substring search *)

Section Strings.
Implicit Types (s q p : string).

Lemma app_String a s p : String a s +:+ p = String a (s +:+ p).
Proof. reflexivity. Qed.

Lemma app_empty_l s : "" +:+ s = s.
Proof. reflexivity. Qed.

Lemma startsWith_spec s p : JS.startsWith s p = true ↔ ∃ post, s = p +:+ post.
Proof.
  revert s. induction p as [|a p IH]; intros s; simpl.
  - split; [intros _; by exists s|by destruct s].
  - destruct s as [|b s]; simpl.
    + split; [done|]. intros [post H]. rewrite app_String in H. discriminate.
    + rewrite andb_true_iff, IH, Ascii.eqb_eq. split.
      * intros [-> [post ->]]. by exists post.
      * intros [post H]. rewrite app_String in H.
        injection H as -> ->. eauto.
Qed.

Lemma includes_spec s q : JS.includes s q = true ↔ is_substring q s.
Proof.
  unfold is_substring. induction s as [|a s IH].
  - cbn [JS.includes]. rewrite orb_false_r, startsWith_spec. split.
    + intros [post ->]. by exists "", post.
    + intros [[|b pre] [post H]].
      * by exists post.
      * rewrite app_String in H. discriminate.
  - cbn [JS.includes]. rewrite orb_true_iff, startsWith_spec, IH. split.
    + intros [[post ->]|[pre [post ->]]].
      * by exists "", post.
      * by exists (String a pre), post.
    + intros [[|b pre] [post H]].
      * left. by exists post.
      * right. rewrite app_String in H. injection H as -> ->. eauto.
Qed.

Lemma includes_empty s : JS.includes s "" = true.
Proof. apply includes_spec. by exists "", s. Qed.

Global Instance is_substring_dec q s : Decision (is_substring q s).
Proof.
  destruct (JS.includes s q) eqn:E.
  - left. by apply includes_spec.
  - right. intros H. apply includes_spec in H. congruence.
Defined.
End Strings.

(** ** The list view: filtering *)

Section Filtering.
Variable toLowerCase : string → string.
Variable toLocaleDateString : JS.number → string.
Hypothesis toLowerCase_empty : toLowerCase "" = "".

Local Abbreviation keeps := (App.keeps toLowerCase toLocaleDateString).
Local Abbreviation filtered := (App.filtered toLowerCase toLocaleDateString).
Local Abbreviation Keep' := (Keep toLowerCase toLocaleDateString).

Global Instance Keep_dec q d : Decision (Keep' q d).
Proof. unfold Keep. apply _. Defined.

Lemma or_else_empty s : JS.or_else s "" = s.
Proof. by destruct s. Qed.

Lemma is_substring_empty s : is_substring "" s.
Proof. by exists "", s. Qed.

Lemma keeps_Keep q d : keeps (toLowerCase q) d = true ↔ Keep' q d.
Proof.
  unfold App.keeps, Keep. rewrite or_else_empty.
  destruct (JS.truthy (toLowerCase q)) eqn:Hq; simpl.
  - rewrite !orb_true_iff, !includes_spec. split; [tauto|].
    intros [->|H]; [|tauto].
    rewrite toLowerCase_empty in Hq. discriminate.
  - split; [intros _|done].
    destruct (toLowerCase q); [|discriminate].
    right. left. apply is_substring_empty.
Qed.

Lemma filtered_filter dreams q : filtered dreams q = filter (Keep' q) dreams.
Proof.
  unfold App.filtered. apply List_filter_stdpp. intros d. apply keeps_Keep.
Qed.

(** C1. The filter keeps exactly the entries that the rule of the
    specification accepts, in their old order and as often as they occur:
    an entry is in the result exactly when it is in the store and the
    query is empty or its lower-cased form occurs in the lower-cased
    transcription, tag text or date label; the empty query keeps the whole
    store. *)
Theorem filtered_spec dreams searchQuery :
  filtered dreams searchQuery = filter (Keep' searchQuery) dreams ∧
  (∀ d, d ∈ filtered dreams searchQuery ↔ d ∈ dreams ∧ Keep' searchQuery d) ∧
  sublist (filtered dreams searchQuery) dreams ∧
  filtered dreams "" = dreams.
Proof.
  rewrite !filtered_filter. split; [done|]. split.
  { intros d. rewrite list_elem_of_filter. tauto. }
  split; [apply sublist_filter|].
  induction dreams as [|d l IH]; [done|].
  rewrite filter_cons_True, IH; [done|by left].
Qed.
End Filtering.

(** ** The list view: grouping *)

Section FindIndex.
Context {A : Type}.
Implicit Types (p : A → bool) (l : list A).

Lemma findIndex_Some p l i :
  JS.findIndex p l = Some i →
  ∃ x, l !! i = Some x ∧ p x = true ∧
       ∀ j y, (j < i)%nat → l !! j = Some y → p y = false.
Proof.
  revert i. induction l as [|x l IH]; intros i; simpl; [done|].
  destruct (p x) eqn:Hx.
  - intros [= <-]. exists x. repeat split; [done|]. intros; lia.
  - destruct (JS.findIndex p l) as [k|]; [|done].
    intros [= <-]. destruct (IH k eq_refl) as (y & Hy & Hpy & Hfirst).
    exists y. repeat split; [done..|].
    intros [|j] z Hj; simpl; [congruence|].
    apply Hfirst. lia.
Qed.

Lemma findIndex_None p l :
  JS.findIndex p l = None → Forall (λ x, p x = false) l.
Proof.
  induction l as [|x l IH]; simpl; [constructor|].
  destruct (p x) eqn:Hx; [done|].
  destruct (JS.findIndex p l); [done|]. intros _. constructor; auto.
Qed.
End FindIndex.

Section Grouping.
Variable toLocaleDateString : JS.number → string.

Local Abbreviation label := (λ d : DreamEntry, toLocaleDateString (timestamp d)).
Local Abbreviation add_to_groups := (App.add_to_groups toLocaleDateString).
Local Abbreviation grouped := (App.grouped toLocaleDateString).
Local Abbreviation grouping_inv := (grouping_inv toLocaleDateString).

Lemma grouping_inv_nil : grouping_inv [] [].
Proof. by split; try constructor. Qed.

Lemma first_seen_snoc l x : first_seen (l ++ [x]) = see (first_seen l) x.
Proof. unfold first_seen. by rewrite fold_left_app. Qed.

Lemma dates_alter dream (i : nat) (acc : list App.Group) :
  App.date <$> alter (App.push_dream dream) i acc = App.date <$> acc.
Proof.
  apply list_eq. intros j. rewrite !list_lookup_fmap, list_lookup_alter.
  case_decide; [subst|done]. by destruct (acc !! j).
Qed.

Lemma NoDup_fmap_lookup_inj {B C} (f : B → C) (l : list B) (i j : nat) x y :
  NoDup (f <$> l) → l !! i = Some x → l !! j = Some y → f x = f y → i = j.
Proof.
  intros Hnd Hi Hj Hf.
  eapply NoDup_lookup; [exact Hnd| |].
  - rewrite list_lookup_fmap, Hi. reflexivity.
  - rewrite list_lookup_fmap, Hj. simpl. by rewrite Hf.
Qed.

Lemma filter_none {B} (P : B → Prop) `{!∀ x, Decision (P x)} (l : list B) :
  Forall (λ x, ¬ P x) l → filter P l = [].
Proof.
  induction 1 as [|x l Hx _ IH]; [done|]. by rewrite filter_cons_False.
Qed.

Lemma concat_alter_push dream (acc : list App.Group) (i : nat) g :
  acc !! i = Some g →
  concat (App.dreams <$> alter (App.push_dream dream) i acc)
  ≡ₚ concat (App.dreams <$> acc) ++ [dream].
Proof.
  revert i. induction acc as [|h acc IH]; intros [|i] Hi; try done; simpl.
  - rewrite <- !(assoc_L (++)). f_equiv. apply Permutation_app_comm.
  - rewrite <- (assoc_L (++)). f_equiv. by apply IH.
Qed.

Lemma grouping_inv_step done acc dream :
  grouping_inv done acc → grouping_inv (done ++ [dream]) (add_to_groups acc dream).
Proof.
  intros [Hdates Hnd Hmem Hne Hcov Hperm]. unfold App.add_to_groups.
  destruct (JS.findIndex _ acc) as [i|] eqn:Hfind.
  - apply findIndex_Some in Hfind as (g & Hg & Hkey & _).
    apply String.eqb_eq in Hkey.
    assert (label dream ∈ App.date <$> acc) as Hin.
    { apply list_elem_of_fmap. exists g. split; [done|].
      by eapply list_elem_of_lookup_2. }
    split.
    + rewrite dates_alter, fmap_app. cbn [fmap list_fmap].
      rewrite first_seen_snoc. unfold see. rewrite <- Hdates. by rewrite decide_True.
    + by rewrite dates_alter.
    + apply Forall_lookup. intros j h Hj.
      rewrite list_lookup_alter in Hj. rewrite filter_app.
      case_decide as Hij.
      * subst j. rewrite Hg in Hj. simpl in Hj. injection Hj as <-. simpl.
        rewrite (proj1 (Forall_lookup _ _) Hmem _ _ Hg).
        by rewrite filter_cons_True, filter_nil.
      * rewrite (proj1 (Forall_lookup _ _) Hmem _ _ Hj).
        rewrite filter_cons_False, filter_nil, app_nil_r; [done|].
        intros Heq. apply Hij.
        eapply (NoDup_fmap_lookup_inj App.date); [done..|congruence].
    + apply Forall_lookup. intros j h Hj.
      rewrite list_lookup_alter in Hj. case_decide.
      * subst j. rewrite Hg in Hj. injection Hj as <-. simpl.
        by destruct (App.dreams g).
      * by apply (proj1 (Forall_lookup _ _) Hne _ _ Hj).
    + rewrite dates_alter. apply Forall_app. split; [done|].
      by constructor.
    + rewrite (concat_alter_push _ _ _ _ Hg). by rewrite Hperm.
  - apply findIndex_None in Hfind.
    assert (label dream ∉ App.date <$> acc) as Hnotin.
    { intros (g & Hkey & Hg)%list_elem_of_fmap.
      rewrite Forall_forall in Hfind. specialize (Hfind g Hg). simpl in Hfind.
      apply String.eqb_neq in Hfind. congruence. }
    split.
    + rewrite !fmap_app. cbn [fmap list_fmap].
      rewrite first_seen_snoc. unfold see. rewrite <- Hdates. by rewrite decide_False.
    + rewrite fmap_app. apply NoDup_app. split; [done|]. split.
      * intros x Hx [->|[]%elem_of_nil]%elem_of_cons. done.
      * apply NoDup_singleton.
    + apply Forall_app. split.
      * apply Forall_forall. intros g Hg.
        rewrite Forall_forall in Hmem. rewrite filter_app, <- (Hmem g Hg).
        rewrite filter_cons_False, filter_nil, app_nil_r; [done|].
        intros Heq. apply Hnotin. rewrite Heq. by apply list_elem_of_fmap_2.
      * constructor; [|constructor]. simpl. rewrite filter_app.
        rewrite filter_cons_True, filter_nil by done.
        rewrite filter_none; [done|].
        eapply Forall_impl; [exact Hcov|]. simpl. intros d Hd Heq.
        apply Hnotin. by rewrite <- Heq.
    + apply Forall_app. split; [done|]. by constructor.
    + rewrite fmap_app. apply Forall_app. split.
      * eapply Forall_impl; [exact Hcov|]. simpl. intros d Hd.
        apply elem_of_app. by left.
      * constructor; [|constructor]. apply elem_of_app. right. by left.
    + rewrite fmap_app, concat_app. simpl. by rewrite Hperm, ?app_nil_r.
Qed.

Lemma grouped_snoc l d : grouped (l ++ [d]) = add_to_groups (grouped l) d.
Proof. unfold App.grouped. by rewrite fold_left_app. Qed.

Lemma grouped_inv l : grouping_inv l (grouped l).
Proof.
  induction l as [|d l IH] using rev_ind; [apply grouping_inv_nil|].
  rewrite grouped_snoc. by apply grouping_inv_step.
Qed.

(** C2. Grouping a list of entries gives groups none of which is empty and
    no two of which carry the same date label; the labels of the groups are
    the labels of the entries in first-seen order of a left-to-right pass;
    each group holds exactly the entries with its label, in input order; the
    groups together hold the input entries, each as often as it occurs; and
    an entry lies in the group of its own label and in no other group. *)
Theorem grouped_spec (l : list DreamEntry) :
  Forall (λ g, App.dreams g ≠ []) (grouped l) ∧
  NoDup (App.date <$> grouped l) ∧
  App.date <$> grouped l = first_seen (label <$> l) ∧
  Forall (λ g, App.dreams g = filter (λ d, label d = App.date g) l) (grouped l) ∧
  concat (App.dreams <$> grouped l) ≡ₚ l ∧
  (∀ d, d ∈ l →
     ∃ g, g ∈ grouped l ∧ App.date g = label d ∧ d ∈ App.dreams g ∧
          ∀ g', g' ∈ grouped l → d ∈ App.dreams g' → g' = g).
Proof.
  destruct (grouped_inv l) as [Hdates Hnd Hmem Hne Hcov Hperm].
  repeat (split; [done|]).
  intros d Hd. rewrite Forall_forall in Hmem. rewrite Forall_forall in Hcov.
  destruct (proj1 (list_elem_of_fmap _ _ _) (Hcov d Hd)) as (g & Hdate & Hg).
  exists g. split; [done|]. split; [done|]. split.
  { rewrite (Hmem g Hg). apply list_elem_of_filter. split; [|done].
    by simpl. }
  intros g' Hg' Hin. rewrite (Hmem g' Hg') in Hin.
  apply list_elem_of_filter in Hin as [Hlab _].
  apply list_elem_of_lookup in Hg as [i Hi].
  apply list_elem_of_lookup in Hg' as [j Hj].
  assert (j = i) as ->.
  { eapply (NoDup_fmap_lookup_inj App.date); [done..|congruence]. }
  congruence.
Qed.
End Grouping.

(** ** The JSON text format: printing and parsing are inverse *)

Ltac ascii_cases c := destruct c as [[] [] [] [] [] [] [] []].

Section JSONStrings.
Import JSON.

(** Every byte reads back from the way it is printed. *)
Lemma parse_chars_quote_char c r :
  parse_chars (quote_char c r) = cons_chars (String c) (parse_chars r).
Proof. ascii_cases c; reflexivity. Qed.

(** A string literal reads back as the string it was printed from. *)
Lemma parse_chars_quote_chars s k :
  parse_chars (quote_chars s (String dquote k)) = Parsed (s, k).
Proof.
  induction s as [|c s IH]; [reflexivity|].
  cbn [quote_chars]. by rewrite parse_chars_quote_char, IH.
Qed.

Lemma length_quote_chars s k :
  (String.length k ≤ String.length (quote_chars s k))%nat.
Proof.
  induction s as [|c s IH]; [done|]. cbn [quote_chars].
  etrans; [exact IH|]. generalize (quote_chars s k). intros r.
  unfold quote_char. repeat case_match; simpl; lia.
Qed.
End JSONStrings.

Section JSONNumbers.
Import JSON.
Implicit Types (x acc M F : N) (s k : string) (c : ascii) (f : nat).

Lemma value_end_digits k : value_end k = true → starts_with_digit k = false.
Proof. destruct k as [|c k]; [done|]. ascii_cases c; done. Qed.

Lemma value_end_ws k : value_end k = true → skip_ws k = k.
Proof. destruct k as [|c k]; [done|]. ascii_cases c; done. Qed.

Lemma value_end_fraction k : value_end k = true → parse_fraction k = Some (0%N, O, k).
Proof. destruct k as [|c k]; [done|]. ascii_cases c; done. Qed.

Lemma value_end_exponent k : value_end k = true → parse_exponent k = Some (0%Z, k).
Proof. destruct k as [|c k]; [done|]. ascii_cases c; done. Qed.

Lemma read_digits_stop acc k : starts_with_digit k = false → read_digits acc k = (acc, k).
Proof.
  destruct k as [|c k]; [done|]. simpl.
  destruct (digit_value c); [|done].
  intros H. apply bool_decide_eq_false in H. destruct H. eauto.
Qed.

Lemma read_fraction_stop acc f k :
  starts_with_digit k = false → read_fraction acc f k = (acc, f, k).
Proof.
  destruct k as [|c k]; [done|]. simpl.
  destruct (digit_value c); [|done].
  intros H. apply bool_decide_eq_false in H. destruct H. eauto.
Qed.

Lemma digit_value_pretty x : (x < 10)%N → digit_value (pretty_N_char x) = Some x.
Proof.
  intros Hx.
  assert (x = 0 ∨ x = 1 ∨ x = 2 ∨ x = 3 ∨ x = 4 ∨ x = 5 ∨ x = 6 ∨ x = 7
          ∨ x = 8 ∨ x = 9)%N as Hcases by lia.
  repeat (destruct Hcases as [->|Hcases]; [reflexivity|]). by subst.
Qed.

Lemma pretty_N_go_app x s k : pretty_N_go x s +:+ k = pretty_N_go x (s +:+ k).
Proof.
  revert s. induction (N.lt_wf_0 x) as [x _ IH]. intros s.
  destruct (decide (x = 0)%N) as [->|Hx]; [by rewrite !pretty_N_go_0|].
  rewrite (pretty_N_go_step x s), (pretty_N_go_step x (s +:+ k)) by lia.
  rewrite IH by (apply N.div_lt; lia). reflexivity.
Qed.

(** Reading the digits of [x] after [acc] is reading nothing after the
    number that [acc] and the digits of [x] spell together. *)
Lemma read_digits_pretty x s acc :
  ∃ n : N, read_digits acc (pretty_N_go x s) = read_digits (acc * 10 ^ n + x) s.
Proof.
  revert s acc. induction (N.lt_wf_0 x) as [x _ IH]. intros s acc.
  destruct (decide (x = 0)%N) as [->|Hx].
  { exists 0%N. rewrite pretty_N_go_0. f_equal. lia. }
  rewrite pretty_N_go_step by lia.
  destruct (IH (x / 10)%N) with (s := String (pretty_N_char (x mod 10)) s)
    (acc := acc) as [n Hn]; [apply N.div_lt; lia|].
  exists (N.succ n). rewrite Hn. cbn [read_digits].
  rewrite digit_value_pretty by (apply N.mod_lt; lia).
  f_equal. rewrite N.pow_succ_r'.
  pose proof (N.div_mod x 10). lia.
Qed.

(** The digits of a positive number start with a digit other than zero. *)
Lemma pretty_N_go_head x s :
  (0 < x)%N →
  ∃ c s' d, pretty_N_go x s = String c s' ∧ digit_value c = Some d ∧ d ≠ 0%N.
Proof.
  revert s. induction (N.lt_wf_0 x) as [x _ IH]. intros s Hx.
  rewrite pretty_N_go_step by done.
  destruct (decide (x / 10 = 0)%N) as [Hq|Hq].
  - rewrite Hq, pretty_N_go_0.
    assert (x < 10)%N by (apply N.div_small_iff in Hq; lia).
    exists (pretty_N_char (x mod 10)), s, x.
    rewrite N.mod_small by done. rewrite digit_value_pretty by done.
    split; [done|]. split; [done|lia].
  - apply IH; [apply N.div_lt; lia|by apply N.neq_0_lt_0].
Qed.

Lemma parse_int_pretty x k :
  starts_with_digit k = false → parse_int (pretty x +:+ k) = Some (x, k).
Proof.
  intros Hk. unfold pretty, pretty_N. case_decide as Hx.
  - subst x. rewrite app_String, app_empty_l. cbn. by rewrite Hk.
  - rewrite pretty_N_go_app, app_empty_l.
    destruct (pretty_N_go_head x k) as (c & s' & d & Heq & Hc & Hd); [lia|].
    destruct (read_digits_pretty x k 0) as [n Hn].
    rewrite Heq in Hn |- *. cbn [read_digits] in Hn. rewrite Hc in Hn.
    unfold parse_int. rewrite Hc.
    replace (10 * 0 + d)%N with d in Hn by lia.
    replace (0 * 10 ^ n + x)%N with x in Hn by lia.
    rewrite (read_digits_stop x k) in Hn by done.
    destruct d; [done|]. by rewrite Hn.
Qed.

Lemma pretty_N_head x k :
  ∃ c s' d, pretty x +:+ k = String c s' ∧ digit_value c = Some d.
Proof.
  unfold pretty, pretty_N. case_decide as Hx.
  - by exists "0"%char, k, 0%N.
  - rewrite pretty_N_go_app, app_empty_l.
    destruct (pretty_N_go_head x k) as (c & s' & d & Heq & Hc & _); [lia|].
    by exists c, s', d.
Qed.

Lemma digit_not_minus c d s :
  digit_value c = Some d →
  match String c s with String "-" s' => (true, s') | _ => (false, String c s) end
  = (false, String c s).
Proof. ascii_cases c; try discriminate; reflexivity. Qed.

(** The fraction digits read back as their number and their count. *)
Lemma read_fraction_digits_fixed f F acc count k :
  (F < 10 ^ N.of_nat f)%N → starts_with_digit k = false →
  read_fraction acc count (JS.digits_fixed f F +:+ k)
  = ((acc * 10 ^ N.of_nat f + F)%N, (count + f)%nat, k).
Proof.
  revert F acc count. induction f as [|f IH]; intros F acc count HF Hk.
  - cbn [JS.digits_fixed]. rewrite app_empty_l, read_fraction_stop by done.
    simpl in HF. do 2 f_equal; [|lia]. simpl. lia.
  - cbn [JS.digits_fixed]. rewrite app_String. cbn [read_fraction].
    assert (0 < 10 ^ N.of_nat f)%N as Hpos by (apply N.neq_0_lt_0, N.pow_nonzero; lia).
    assert (10 ^ N.of_nat (S f) = 10 * 10 ^ N.of_nat f)%N as Hpow.
    { rewrite Nat2N.inj_succ. apply N.pow_succ_r'. }
    rewrite digit_value_pretty.
    2:{ apply N.Div0.div_lt_upper_bound. lia. }
    rewrite IH; [|apply N.mod_lt; lia|done].
    rewrite Hpow.
    replace ((10 * acc + F / 10 ^ N.of_nat f) * 10 ^ N.of_nat f
             + F mod 10 ^ N.of_nat f)%N
      with (acc * (10 * 10 ^ N.of_nat f) + F)%N
      by (pose proof (N.div_mod F (10 ^ N.of_nat f)); lia).
    by replace (S count + f)%nat with (count + S f)%nat by lia.
Qed.

Lemma digits_fixed_head f F k :
  starts_with_digit (JS.digits_fixed (S f) F +:+ k) = true.
Proof.
  cbn [JS.digits_fixed]. rewrite app_String. cbn [starts_with_digit].
  apply bool_decide_eq_true.
  generalize (F / 10 ^ N.of_nat f)%N. intros x. unfold pretty_N_char.
  repeat case_match; eauto.
Qed.

Lemma app_empty_r s : s +:+ "" = s.
Proof. induction s as [|c s IH]; [done|]. rewrite app_String. by rewrite IH. Qed.

Lemma app_assoc_string s1 s2 s3 : (s1 +:+ s2) +:+ s3 = s1 +:+ (s2 +:+ s3).
Proof. induction s1 as [|c s IH]; [done|]. rewrite !app_String. by rewrite IH. Qed.

Lemma magnitude_toString_head M (k0 : nat) k :
  ∃ c s' d, JS.magnitude_toString M k0 +:+ k = String c s' ∧ digit_value c = Some d.
Proof.
  unfold JS.magnitude_toString. destruct (JS.plain M k0).
  - rewrite app_assoc_string. apply pretty_N_head.
  - destruct (pretty_N_head (JS.significand M k0) "") as (c & s' & d & Heq & Hc).
    rewrite app_empty_r in Heq. rewrite Heq.
    exists c. rewrite !app_String. eauto.
Qed.

Lemma width_pos M : (1 ≤ JS.width M)%nat.
Proof.
  unfold JS.width. destruct (pretty_N_head M "") as (c & s' & d & Heq & _).
  assert (pretty M = String c s') as ->; [|simpl; lia].
  rewrite <- Heq. clear. induction (pretty M) as [|a s IH]; [done|].
  rewrite app_String. by rewrite <- IH.
Qed.

(** The magnitude of a number of the model that is printed without an
    exponent reads back. *)
Lemma make_number_magnitude (negative : bool) M (k0 : nat) :
  (0 < M)%N → JS.plain M k0 = true → JS.exact M k0 = true →
  match k0 with O => True | S _ => (M mod 10 ≠ 0)%N end →
  make_number negative (M / 10 ^ N.of_nat k0) (M mod 10 ^ N.of_nat k0) k0 0
  = Some (JS.Dec (if negative then - Z.of_N M else Z.of_N M) k0).
Proof.
  intros HM Hplain Hexact Hnormal. unfold make_number.
  assert (10 ^ N.of_nat k0 ≠ 0)%N as Hpow by (apply N.pow_nonzero; lia).
  assert (M / 10 ^ N.of_nat k0 * 10 ^ N.of_nat k0 + M mod 10 ^ N.of_nat k0 = M)%N
    as -> by (pose proof (N.div_mod M (10 ^ N.of_nat k0)); lia).
  rewrite (proj2 (N.eqb_neq M 0)) by lia.
  unfold JS.plain, JS.point in Hplain. apply andb_true_iff in Hplain as [Hlo Hhi].
  replace (Z.of_nat (JS.width M) + 0 - Z.of_nat k0)%Z
    with (Z.of_nat (JS.width M) - Z.of_nat k0)%Z by lia.
  assert ((309 <? Z.of_nat (JS.width M) - Z.of_nat k0)%Z = false) as ->.
  { apply Z.ltb_ge. apply Z.leb_le in Hhi. lia. }
  rewrite Hlo, Hhi. cbn [andb negb].
  destruct k0 as [|k0].
  - change (0 <=? 0 - Z.of_nat 0)%Z with true.
    change (Z.to_N (0 - Z.of_nat 0)) with 0%N. cbv beta iota.
    rewrite N.pow_0_r, N.mul_1_r. by rewrite Hexact.
  - assert ((0 <=? 0 - Z.of_nat (S k0))%Z = false) as -> by (apply Z.leb_gt; lia).
    replace (Z.to_nat (- (0 - Z.of_nat (S k0)))) with (S k0) by lia.
    cbn [normalize]. rewrite (proj2 (N.eqb_neq _ _) Hnormal).
    by rewrite Hexact.
Qed.

Lemma parse_number_magnitude (negative : bool) M (k0 : nat) k :
  (0 < M)%N → JS.plain M k0 = true → JS.exact M k0 = true →
  match k0 with O => True | S _ => (M mod 10 ≠ 0)%N end →
  value_end k = true →
  match parse_int (JS.magnitude_toString M k0 +:+ k) with
  | Some (int, s2) =>
      match parse_fraction s2 with
      | Some (frac, f, s3) =>
          match parse_exponent s3 with
          | Some (E, s4) =>
              match make_number negative int frac f E with
              | Some n => Parsed (Num n, s4)
              | None => Unmodelled
              end
          | None => SyntaxError
          end
      | None => SyntaxError
      end
  | None => SyntaxError
  end = Parsed (Num (JS.Dec (if negative then - Z.of_N M else Z.of_N M) k0), k).
Proof.
  intros HM Hplain Hexact Hnormal Hk.
  pose proof (make_number_magnitude negative M k0 HM Hplain Hexact Hnormal) as Hmake.
  unfold JS.magnitude_toString. rewrite Hplain.
  destruct k0 as [|k0].
  - cbn [N.of_nat] in *. rewrite N.pow_0_r, N.div_1_r in *.
    rewrite N.mod_1_r in Hmake.
    assert (pretty M +:+ "" = pretty M) as ->.
    { generalize (pretty M). intros s. induction s as [|c s IH]; [done|].
      rewrite app_String. by rewrite IH. }
    rewrite parse_int_pretty by (by apply value_end_digits).
    rewrite value_end_fraction, value_end_exponent by done.
    by rewrite Hmake.
  - assert ((pretty (M / 10 ^ N.of_nat (S k0))%N
             +:+ String "." (JS.digits_fixed (S k0) (M mod 10 ^ N.of_nat (S k0)))) +:+ k
            = pretty (M / 10 ^ N.of_nat (S k0))%N
              +:+ String "." (JS.digits_fixed (S k0) (M mod 10 ^ N.of_nat (S k0)) +:+ k))
      as ->.
    { generalize (pretty (M / 10 ^ N.of_nat (S k0))%N). intros s.
      induction s as [|c s IH]; [done|]. rewrite !app_String. by rewrite IH. }
    rewrite parse_int_pretty by done.
    cbn [parse_fraction]. rewrite digits_fixed_head.
    rewrite read_fraction_digits_fixed;
      [|apply N.mod_lt, N.pow_nonzero; lia|by apply value_end_digits].
    rewrite value_end_exponent by done.
    rewrite N.mul_0_l, N.add_0_l, Nat.add_0_l. by rewrite Hmake.
Qed.

(** A printed number of the model reads back as the number. *)
Lemma parse_number_text (n : JS.number) k :
  storable_number n = true → value_end k = true →
  parse_number (number_text n +:+ k) = Parsed (Num n, k).
Proof.
  intros Hn Hk. destruct n as [m k0| | |]; try done.
  unfold storable_number in Hn.
  apply andb_true_iff in Hn as [[Hnormal Hplain]%andb_true_iff Hexact].
  unfold number_text. cbn [JS.isFinite JS.Number_toString].
  destruct m as [|p|p].
  - destruct k0 as [|k0]; [|done].
    change ("0" +:+ k) with (String "0" k). unfold parse_number.
    cbn [parse_int]. change (digit_value "0") with (Some 0%N).
    rewrite value_end_digits, value_end_fraction, value_end_exponent by done.
    reflexivity.
  - cbn [Z.abs_N] in *.
    assert (match k0 with O => True | S _ => (N.pos p mod 10 ≠ 0)%N end) as Hnz.
    { destruct k0; [done|]. cbn [JS.normal] in Hnormal.
      apply negb_true_iff, Z.eqb_neq in Hnormal. intros H. apply Hnormal.
      change (Z.pos p) with (Z.of_N (N.pos p)).
      change 10%Z with (Z.of_N 10). rewrite <- N2Z.inj_mod. by rewrite H. }
    destruct (magnitude_toString_head (N.pos p) k0 k) as (c & s' & d & Heq & Hc).
    unfold parse_number. rewrite Heq, (digit_not_minus _ _ _ Hc), <- Heq.
    by apply (parse_number_magnitude false).
  - cbn [Z.abs_N] in *.
    assert (match k0 with O => True | S _ => (N.pos p mod 10 ≠ 0)%N end) as Hnz.
    { destruct k0; [done|]. cbn [JS.normal] in Hnormal.
      apply negb_true_iff, Z.eqb_neq in Hnormal. intros H. apply Hnormal.
      change (Z.neg p) with (- Z.of_N (N.pos p))%Z.
      change 10%Z with (Z.of_N 10).
      rewrite Z.mod_opp_l_z; [done|done|].
      rewrite <- N2Z.inj_mod. by rewrite H. }
    rewrite app_String. unfold parse_number.
    by apply (parse_number_magnitude true).
Qed.

(** Every printed number starts as a value does. *)
Lemma number_text_head (n : JS.number) k :
  ∃ c s', number_text n +:+ k = String c s' ∧ value_start c = true.
Proof.
  assert (∀ M (k0 : nat) k', ∃ c s', JS.magnitude_toString M k0 +:+ k' = String c s'
                                      ∧ number_start c = true) as Hmag.
  { intros M k0 k'.
    destruct (magnitude_toString_head M k0 k') as (c & s' & d & Heq & Hc).
    exists c, s'. split; [done|]. unfold number_start. rewrite Hc.
    rewrite bool_decide_eq_true_2 by eauto. apply orb_true_r. }
  unfold number_text. destruct n as [m k0| | |]; cbn [JS.isFinite].
  - destruct m as [|p|p]; cbn [JS.Number_toString].
    + by exists "0"%char, k.
    + destruct (Hmag (N.pos p) k0 k) as (c & s' & Heq & Hc).
      exists c, s'. split; [done|]. unfold value_start. by rewrite Hc.
    + rewrite app_String. by eexists _, _.
  - by exists "0"%char, k.
  - by eexists _, _.
  - by eexists _, _.
Qed.
End JSONNumbers.

Section JSONValues.
Import JSON.
Implicit Types (v : value) (k s : string) (c : ascii) (fuel : nat).

(** Induction on values that reaches into arrays and objects. *)
Lemma value_nested_ind (P : value → Prop) :
  P Null → (∀ b, P (Bool b)) → (∀ n, P (Num n)) → (∀ s, P (Str s)) →
  (∀ l, Forall P l → P (Arr l)) →
  (∀ l, Forall (λ kv, P (snd kv)) l → P (Obj l)) →
  ∀ v, P v.
Proof.
  intros HNull HBool HNum HStr HArr HObj. fix IH 1.
  intros [|b|n|s|l|l].
  - exact HNull.
  - apply HBool.
  - apply HNum.
  - apply HStr.
  - apply HArr. induction l as [|v l IHl]; constructor; [apply IH|exact IHl].
  - apply HObj.
    induction l as [|[key v] l IHl]; constructor; [apply IH|exact IHl].
Qed.

Lemma print_head v k : ∃ c s', print v k = String c s' ∧ value_start c = true.
Proof.
  destruct v as [|[]|n|s|l|l]; try (by eexists _, _).
  apply number_text_head.
Qed.

Lemma parse_value_number fuel c s :
  number_start c = true → parse_value (S fuel) (String c s) = parse_number (String c s).
Proof. ascii_cases c; try discriminate; reflexivity. Qed.

Lemma parse_value_elements fuel c s :
  value_start c = true →
  parse_value (S fuel) (String "[" (String c s)) = parse_elements fuel (String c s) [].
Proof. ascii_cases c; try discriminate; reflexivity. Qed.

Lemma parse_value_print_elements fuel v l k :
  parse_value (S fuel) (String "[" (print_elements print (v :: l) k)) =
  parse_elements fuel (print_elements print (v :: l) k) [].
Proof.
  assert (∃ c s', print_elements print (v :: l) k = String c s'
                  ∧ value_start c = true) as (c & s' & -> & Hc).
  { destruct l; apply print_head. }
  by apply parse_value_elements.
Qed.

(** *** Objects *)

Lemma canonical_keys_app (ks1 ks2 : list string) :
  canonical_keys (ks1 ++ ks2) = true → canonical_keys ks1 = true.
Proof.
  induction ks1 as [|key ks1 IH]; [done|]. cbn [app canonical_keys].
  rewrite !andb_true_iff, forallb_app, andb_true_iff.
  intros [[? ?] ?]. split; auto.
Qed.

Lemma canonical_keys_snoc (ks : list string) key :
  canonical_keys (ks ++ [key]) = true →
  Forall (λ k', k' ≠ key ∧ comes_before key k' = false) ks.
Proof.
  induction ks as [|k' ks IH]; [done|]. cbn [app canonical_keys].
  rewrite andb_true_iff, forallb_app, andb_true_iff. cbn [forallb].
  rewrite !andb_true_iff, !negb_true_iff.
  intros [[_ [[Hne Hcb] _]] Hrest]. constructor; [|by apply IH].
  split; [|done]. apply String.eqb_neq in Hne. congruence.
Qed.

(** A property that the platform lists last is appended. *)
Lemma set_member_last key v (l : members) :
  canonical_keys (fst <$> (l ++ [(key, v)])) = true →
  set_member key v l = l ++ [(key, v)].
Proof.
  rewrite fmap_app. intros H%canonical_keys_snoc. unfold set_member.
  assert (get key l = None) as ->.
  { induction l as [|[k' v'] l IH]; [done|]. inversion_clear H as [|?? [Hne _] Hl].
    cbn [get]. simpl in Hne. apply String.eqb_neq in Hne. rewrite Hne. auto. }
  induction l as [|[k' v'] l IH]; [done|]. inversion_clear H as [|?? [_ Hcb] Hl].
  cbn [insert_member]. simpl in Hcb. rewrite Hcb. by rewrite IH.
Qed.

Lemma parse_members_key fuel key r acc :
  parse_members (S fuel) (quote key (String ":" r)) acc =
  match parse_value fuel r with
  | Parsed (v, rest) =>
      match skip_ws rest with
      | String "," rest3 => parse_members fuel rest3 (set_member key v acc)
      | String "}" rest3 => Parsed (Obj (set_member key v acc), rest3)
      | _ => SyntaxError
      end
  | SyntaxError => SyntaxError
  | Unmodelled => Unmodelled
  end.
Proof.
  unfold quote. cbn [parse_members skip_ws].
  change (is_ws dquote) with false. cbv iota.
  change (Ascii.eqb dquote dquote) with true. cbv iota.
  rewrite parse_chars_quote_chars. reflexivity.
Qed.

Lemma parse_elements_print (l : list value) :
  Forall reads_back l → l ≠ [] →
  ∀ fuel acc k,
    (sum_list_with (λ v, S (weight v)) l ≤ fuel)%nat →
    parse_elements fuel (print_elements print l (String "]" k)) acc
    = Parsed (Arr (List.rev acc ++ l), k).
Proof.
  induction 1 as [|v l Hv Hl IH]; [done|]. intros _ fuel acc k Hfuel.
  cbn [sum_list_with] in Hfuel.
  destruct fuel as [|fuel]; [lia|]. destruct l as [|w l].
  - cbn [print_elements parse_elements].
    rewrite Hv by (done || simpl in *; lia). by cbn.
  - change (print_elements print (v :: w :: l) (String "]" k))
      with (print v (String "," (print_elements print (w :: l) (String "]" k)))).
    cbn [parse_elements]. rewrite Hv by (done || simpl in *; lia).
    cbn [skip_ws is_ws]. rewrite IH by (done || simpl in *; lia).
    cbn [List.rev]. by rewrite <- (assoc_L (++)).
Qed.

Lemma parse_members_print (l : members) :
  Forall (λ kv, reads_back (snd kv)) l → l ≠ [] →
  ∀ fuel acc k,
    canonical_keys (fst <$> (acc ++ l)) = true →
    (sum_list_with (λ kv, S (weight (snd kv))) l ≤ fuel)%nat →
    parse_members fuel (print_members print l (String "}" k)) acc
    = Parsed (Obj (acc ++ l), k).
Proof.
  induction 1 as [|[key v] l Hv Hl IH]; [done|].
  intros _ fuel acc k Hcan Hfuel. cbn [sum_list_with snd] in Hfuel. simpl in Hv.
  assert (set_member key v acc = acc ++ [(key, v)]) as Hset.
  { apply set_member_last.
    replace (acc ++ (key, v) :: l) with ((acc ++ [(key, v)]) ++ l) in Hcan
      by (by rewrite <- (assoc_L (++))).
    rewrite fmap_app in Hcan. by apply canonical_keys_app in Hcan. }
  destruct fuel as [|fuel]; [lia|]. destruct l as [|[key' w] l].
  - cbn [print_members]. rewrite parse_members_key.
    rewrite Hv by (done || simpl in *; lia). cbn [skip_ws is_ws].
    by rewrite Hset.
  - change (print_members print ((key, v) :: (key', w) :: l) (String "}" k))
      with (quote key (String ":" (print v
              (String "," (print_members print ((key', w) :: l) (String "}" k)))))).
    rewrite parse_members_key.
    rewrite Hv by (done || simpl in *; lia). cbn [skip_ws is_ws].
    rewrite Hset.
    rewrite IH; [by rewrite <- (assoc_L (++))|done| |simpl in *; lia].
    by rewrite <- (assoc_L (++)).
Qed.

(** Every value that a text carries unchanged reads back from its text,
    whatever follows it. *)
Lemma parse_value_print v : storable v → reads_back v.
Proof.
  induction v as [|b|n|s|l IH|l IH] using value_nested_ind;
    intros Hwf fuel k Hfuel Hk; (destruct fuel as [|fuel]; [simpl in Hfuel; lia|]).
  - reflexivity.
  - by destruct b.
  - inversion_clear Hwf as [| |? Hn| | |]. cbn [print].
    destruct (number_text_head n k) as (c & s' & Heq & Hc).
    assert (number_start c = true) as Hc'.
    { destruct n as [m k0| | |]; try done.
      unfold number_text in Heq. cbn [JS.isFinite] in Heq.
      destruct m as [|p|p]; cbn [JS.Number_toString] in Heq.
      - by injection Heq as <- _.
      - destruct (magnitude_toString_head (N.pos p) k0 k) as (c' & s'' & d & Heq' & Hd).
        rewrite Heq' in Heq. injection Heq as <- _. unfold number_start.
        rewrite Hd. rewrite bool_decide_eq_true_2 by eauto. apply orb_true_r.
      - rewrite app_String in Heq. by injection Heq as <- _. }
    rewrite Heq, parse_value_number by done. rewrite <- Heq.
    by apply parse_number_text.
  - cbn [print]. unfold quote. cbn [parse_value skip_ws].
    change (is_ws dquote) with false. cbv iota.
    change (Ascii.eqb dquote "n") with false.
    change (Ascii.eqb dquote "t") with false.
    change (Ascii.eqb dquote "f") with false.
    change (Ascii.eqb dquote dquote) with true. cbv iota.
    by rewrite parse_chars_quote_chars.
  - inversion_clear Hwf as [| | | |? Hall|]. cbn [print].
    destruct l as [|v l]; [reflexivity|].
    rewrite parse_value_print_elements.
    rewrite parse_elements_print; [done| |done|simpl in *; lia].
    apply Forall_forall. intros w Hw.
    rewrite Forall_forall in IH. rewrite Forall_forall in Hall. auto.
  - inversion_clear Hwf as [| | | | |? Hnd Hall]. cbn [print].
    destruct l as [|[key v] l]; [reflexivity|].
    assert (parse_value (S fuel)
              (String "{" (print_members print ((key, v) :: l) (String "}" k)))
            = parse_members fuel
                (print_members print ((key, v) :: l) (String "}" k)) []) as ->.
    { by destruct l as [|[??] ?]. }
    rewrite parse_members_print; [done| |done|done|simpl in *; lia].
    apply Forall_forall. intros w Hw.
    rewrite Forall_forall in IH. rewrite Forall_forall in Hall. auto.
Qed.

Lemma length_app_string s k :
  String.length (s +:+ k) = (String.length s + String.length k)%nat.
Proof. induction s as [|c s IH]; [done|]. rewrite app_String. simpl. by rewrite IH. Qed.

Lemma length_number_text (n : JS.number) : (1 ≤ String.length (number_text n))%nat.
Proof.
  destruct (number_text_head n "") as (c & s' & Heq & _).
  apply (f_equal String.length) in Heq. rewrite length_app_string in Heq.
  simpl in Heq. lia.
Qed.

Lemma length_quote s k : (2 + String.length k ≤ String.length (quote s k))%nat.
Proof.
  unfold quote. pose proof (length_quote_chars s (String dquote k)).
  simpl in *. lia.
Qed.

(** The text of a value has at least as many characters as the parser takes
    steps on it. *)
Lemma length_print v k :
  (weight v + String.length k ≤ String.length (print v k))%nat.
Proof.
  revert k. induction v as [|b|n|s|l IH|l IH] using value_nested_ind; intros k.
  - cbn [print]. rewrite length_app_string. simpl. lia.
  - destruct b; cbn [print]; rewrite length_app_string; simpl; lia.
  - cbn [print]. rewrite length_app_string. pose proof (length_number_text n).
    simpl. lia.
  - cbn [print weight]. pose proof (length_quote s k). lia.
  - cbn [print weight String.length].
    enough (∀ k', (sum_list_with (λ v, S (weight v)) l + String.length k'
                   ≤ String.length (print_elements print l k') + 1)%nat) as H.
    { specialize (H (String "]" k)). simpl in H. lia. }
    induction IH as [|v l' Hv _ IHl]; intros k'; [simpl; lia|].
    destruct l' as [|w l''].
    + specialize (Hv k'). simpl. lia.
    + change (print_elements print (v :: w :: l'') k')
        with (print v (String "," (print_elements print (w :: l'') k'))).
      specialize (Hv (String "," (print_elements print (w :: l'') k'))).
      specialize (IHl k'). cbn [sum_list_with String.length] in *. lia.
  - cbn [print weight String.length].
    enough (∀ k', (sum_list_with (λ kv, S (weight (snd kv))) l + String.length k'
                   ≤ String.length (print_members print l k') + 1)%nat) as H.
    { specialize (H (String "}" k)). simpl in H. lia. }
    induction IH as [|[key v] l' Hv _ IHl]; intros k'; [simpl; lia|].
    simpl in Hv. destruct l' as [|[key' w] l''].
    + cbn [print_members sum_list_with snd].
      pose proof (length_quote key (String ":" (print v k'))) as Hq.
      specialize (Hv k'). cbn [String.length] in Hq. lia.
    + change (print_members print ((key, v) :: (key', w) :: l'') k')
        with (quote key (String ":" (print v
                (String "," (print_members print ((key', w) :: l'') k'))))).
      pose proof (length_quote key (String ":" (print v
                (String "," (print_members print ((key', w) :: l'') k'))))) as Hq.
      specialize (Hv (String "," (print_members print ((key', w) :: l'') k'))).
      specialize (IHl k'). cbn [sum_list_with snd String.length] in *. lia.
Qed.

(** [JSON.parse(JSON.stringify(v))] is [v]. *)
Lemma parse_stringify v : storable v → parse (stringify v) = Parsed v.
Proof.
  intros Hwf. unfold parse, stringify.
  rewrite (parse_value_print v Hwf); [done| |done].
  pose proof (length_print v ""). simpl in *. lia.
Qed.

Lemma stringify_nonempty v : stringify v ≠ "".
Proof.
  unfold stringify. destruct (print_head v "") as (c & s' & -> & _). done.
Qed.
End JSONValues.

(** ** Objects: reading a property after a definition or a spread *)

Section JSONObjects.
Import JSON.
Implicit Types (l base source : members) (key : string) (v : value).

Lemma get_None key l : get key l = None ↔ key ∉ fst <$> l.
Proof.
  induction l as [|[k' v'] l IH].
  { split; [intros _; apply not_elem_of_nil|done]. }
  cbn [get fmap list_fmap fst]. rewrite not_elem_of_cons.
  destruct (String.eqb_spec k' key) as [->|Hne]; [by split; [|intros []]|].
  rewrite IH. split; [by split|by intros []].
Qed.

Lemma get_Some_NoDup key v l :
  NoDup (fst <$> l) → get key l = Some v ↔ (key, v) ∈ l.
Proof.
  induction l as [|[k' v'] l IH].
  { intros _. split; [done|]. intros Hin. by apply elem_of_nil in Hin. }
  rewrite fmap_cons. cbn [fst get]. intros [Hk' Hnd]%NoDup_cons.
  rewrite elem_of_cons. destruct (String.eqb_spec k' key) as [->|Hne].
  - split; [intros [= ->]; by left|].
    intros [[= ->]|Hin]; [done|]. destruct Hk'.
    apply list_elem_of_fmap. by exists (key, v).
  - rewrite (IH Hnd). split; [by right|]. intros [[= -> ->]|Hin]; done.
Qed.

Lemma get_reverse key l : NoDup (fst <$> l) → get key (reverse l) = get key l.
Proof.
  intros Hnd. assert (NoDup (fst <$> reverse l)) as Hnd'.
  { by rewrite fmap_reverse, reverse_Permutation. }
  destruct (get key l) as [v|] eqn:Hget.
  - apply get_Some_NoDup; [done|]. apply elem_of_reverse.
    by apply get_Some_NoDup in Hget.
  - apply get_None. apply get_None in Hget.
    by rewrite fmap_reverse, elem_of_reverse.
Qed.

Lemma get_replace_member key key' v l :
  get key (replace_member key' v l)
  = if String.eqb key' key
    then match get key l with Some _ => Some v | None => None end
    else get key l.
Proof.
  induction l as [|[k' v'] l IH]; [by destruct (String.eqb key' key)|].
  cbn [replace_member]. destruct (String.eqb_spec k' key') as [->|Hne].
  - cbn [get]. by destruct (String.eqb key' key).
  - cbn [get]. rewrite IH.
    destruct (String.eqb_spec k' key) as [->|Hne2]; [|done].
    by rewrite (proj2 (String.eqb_neq _ _) (not_eq_sym Hne)).
Qed.

Lemma get_insert_member key key' v l :
  get key' l = None →
  get key (insert_member key' v l)
  = if String.eqb key' key then Some v else get key l.
Proof.
  induction l as [|[k' v'] l IH]; [done|]. cbn [get insert_member].
  destruct (String.eqb_spec k' key') as [->|Hne]; [done|]. intros Hnone.
  destruct (comes_before key' k'); [done|].
  cbn [get]. rewrite (IH Hnone).
  destruct (String.eqb_spec k' key) as [->|Hne2]; [|done].
  by rewrite (proj2 (String.eqb_neq _ _) (not_eq_sym Hne)).
Qed.

(** Reading a property of an object on which a property was defined. *)
Lemma get_set_member key key' v l :
  get key (set_member key' v l)
  = if String.eqb key' key then Some v else get key l.
Proof.
  unfold set_member. destruct (get key' l) as [v'|] eqn:Hget.
  - rewrite get_replace_member.
    destruct (String.eqb_spec key' key) as [->|]; [by rewrite Hget|done].
  - by apply get_insert_member.
Qed.

Lemma spread_snoc base source key v :
  spread base (source ++ [(key, v)]) = set_member key v (spread base source).
Proof. unfold spread. by rewrite fold_left_app. Qed.

(** Reading a property of a spread: the last of that name in the source,
    or that of the base. *)
Lemma get_spread key base source :
  get key (spread base source)
  = match get key (reverse source) with
    | Some v => Some v
    | None => get key base
    end.
Proof.
  induction source as [|[k' v'] source IH] using rev_ind; [done|].
  rewrite spread_snoc, get_set_member, reverse_app. cbn [reverse app get].
  change (reverse [(k', v')]) with [(k', v')]. cbn [app get].
  by destruct (String.eqb k' key).
Qed.

Lemma get_spread_None key base source :
  get key source = None → get key (spread base source) = get key base.
Proof.
  intros Hnone. rewrite get_spread.
  assert (get key (reverse source) = None) as ->; [|done].
  apply get_None. apply get_None in Hnone.
  by rewrite fmap_reverse, elem_of_reverse.
Qed.

Lemma get_spread_Some key base source v :
  NoDup (fst <$> source) → get key source = Some v →
  get key (spread base source) = Some v.
Proof. intros Hnd Hget. by rewrite get_spread, get_reverse, Hget. Qed.

(** Comparing with a string is being that string. *)
Lemma strict_eq_Str (a : option value) s :
  strict_eq a (Some (Str s)) = true ↔ a = Some (Str s).
Proof.
  destruct a as [[| | |s'| |]|]; cbn; try (split; [done|intros [=]]).
  rewrite String.eqb_eq. split; congruence.
Qed.

Lemma strict_eq_Str_l (b : option value) s :
  strict_eq (Some (Str s)) b = true ↔ b = Some (Str s).
Proof.
  destruct b as [[| | |s'| |]|]; cbn; try (split; [done|intros [=]]).
  rewrite String.eqb_eq. split; congruence.
Qed.
End JSONObjects.
(** ** The records as JavaScript values *)

Section TypedValues.
Implicit Types (d : DreamEntry).

Lemma storable_strings (l : list string) :
  Forall JSON.storable (JSON.Str <$> l).
Proof. induction l; constructor; [constructor|done]. Qed.

(** The object of an entry is carried unchanged when its two numbers
    are. *)
Lemma entry_to_json_storable d :
  storable_entry d = true → JSON.storable (entry_to_json d).
Proof.
  intros [Hts Hscore]%andb_true_iff.
  destruct d as [i ts [audio|] text tgs md score busy [image|]];
    cbn in Hts, Hscore;
    (constructor;
     [vm_compute; reflexivity
     |repeat constructor; try done; apply storable_strings]).
Qed.

Lemma dreams_to_json_storable (dreams : list DreamEntry) :
  forallb storable_entry dreams = true → JSON.storable (dreams_to_json dreams).
Proof.
  intros Hall. constructor. induction dreams as [|d l IH]; [constructor|].
  cbn [forallb] in Hall. apply andb_true_iff in Hall as [Hd Hl].
  constructor; [by apply entry_to_json_storable|by apply IH].
Qed.

(** Different entries have different objects. *)
Lemma Str_fmap_inj (l1 l2 : list string) :
  JSON.Str <$> l1 = JSON.Str <$> l2 → l1 = l2.
Proof.
  revert l2. induction l1 as [|s l1 IH]; intros [|s2 l2] H; try done.
  cbn [fmap list_fmap] in H. injection H as -> Hl. f_equal. by apply IH.
Qed.

Lemma entry_props_inj d1 d2 : entry_props d1 = entry_props d2 → d1 = d2.
Proof.
  destruct d1 as [i1 ts1 [audio1|] text1 tgs1 md1 score1 busy1 [image1|]];
    destruct d2 as [i2 ts2 [audio2|] text2 tgs2 md2 score2 busy2 [image2|]];
    unfold entry_props; cbn [id timestamp audioBase64 transcription tags mood
                             lucidityScore isProcessing generatedImage
                             optional_member app];
    intros H; try discriminate; simplify_eq;
    match goal with
    | Htags : JSON.Str <$> _ = JSON.Str <$> _ |- _ =>
        apply Str_fmap_inj in Htags; by subst
    end.
Qed.

Lemma dreams_to_json_inj (dreams1 dreams2 : list DreamEntry) :
  dreams_to_json dreams1 = dreams_to_json dreams2 → dreams1 = dreams2.
Proof.
  unfold dreams_to_json, array_of. intros H. injection H as H.
  revert dreams2 H. induction dreams1 as [|d l IH]; intros [|d2 l2] H; try done.
  rewrite !fmap_cons in H.
  assert (entry_props d = entry_props d2) as Hd by congruence.
  assert (JSON.Obj <$> (entry_props <$> l) = JSON.Obj <$> (entry_props <$> l2))
    as Hl by congruence.
  f_equal; [by apply entry_props_inj|by apply IH].
Qed.
End TypedValues.
(** ** Persistence *)

Section Persistence.
Variable JSON_parse : string → option JSON.value.
Variable within_quota : gmap string string → bool.
Hypothesis JSON_parse_agrees : JSON.agrees JSON_parse.
Implicit Types (ls : gmap string string) (store : list JSON.members).

Lemma JSON_parse_stringify v :
  JSON.storable v → JSON_parse (JSON.stringify v) = Some v.
Proof.
  intros Hv. pose proof (JSON_parse_agrees (JSON.stringify v)) as H.
  by rewrite (parse_stringify v Hv) in H.
Qed.

Lemma save_effect_mounted st :
  App.st_mounted (App.save_effect within_quota st) = true →
  App.st_localStorage (App.save_effect within_quota st)
  = <["dream_journal" := JSON.stringify (array_of (App.st_dreams st))]>
      (App.st_localStorage st).
Proof.
  unfold App.save_effect, App.setItem.
  by destruct (within_quota _).
Qed.

Lemma load_effect_saved ls v :
  JSON.storable v →
  App.load_effect JSON_parse (<["dream_journal" := JSON.stringify v]> ls) = Some v.
Proof.
  intros Hv. unfold App.load_effect. rewrite lookup_insert_eq.
  assert (JS.truthy (JSON.stringify v) = true) as ->.
  { apply truthy_nonempty, stringify_nonempty. }
  by apply JSON_parse_stringify.
Qed.

End Persistence.

(** The parser of the host agrees with the model. *)
Lemma Host_JSON_parse_agrees : JSON.agrees Host.JSON_parse.
Proof. intros text. unfold Host.JSON_parse. by destruct (JSON.parse text). Qed.

(** ** The store as a state machine *)

Section Store.
Import App.
Variable JSON_parse : string → option JSON.value.
Variable within_quota : gmap string string → bool.
Implicit Types (st : AppState) (m : Mutation) (ms : list Mutation)
  (e : Event) (es : list Event) (prev store : list JSON.members)
  (d u analysis : JSON.members) (nd : DreamEntry).

(** *** Renders and effects *)

Lemma run_snoc es e st :
  run within_quota (es ++ [e]) st = step within_quota (run within_quota es st) e.
Proof. unfold App.run. by rewrite fold_left_app. Qed.

Lemma mutations_snoc es e :
  mutations (es ++ [e])
  = mutations es ++ match e with Mutate m => [m] | Effects => [] end.
Proof. unfold mutations. rewrite omap_app. by destruct e. Qed.

Lemma apply_all_snoc ms m prev :
  apply_all (ms ++ [m]) prev = update_of m (apply_all ms prev).
Proof. unfold apply_all. by rewrite fold_left_app. Qed.

(** An application that is unmounted stays so. *)
Lemma mounted_step st e :
  st_mounted (step within_quota st e) = true → st_mounted st = true.
Proof. unfold App.step. destruct (st_mounted st) eqn:Hm; [done|congruence]. Qed.

Lemma mounted_run es st :
  st_mounted (run within_quota es st) = true → st_mounted st = true.
Proof.
  induction es as [|e es IH] using rev_ind; [done|].
  rewrite run_snoc. intros H%mounted_step. auto.
Qed.

Lemma st_dreams_save_effect st :
  st_dreams (save_effect within_quota st) = st_dreams st.
Proof. unfold App.save_effect. by destruct (setItem _ _ _ _). Qed.

Lemma st_dreams_step st e :
  st_mounted st = true →
  st_dreams (step within_quota st e)
  = match e with
    | Mutate m => update_of m (st_dreams st)
    | Effects => st_dreams st
    end.
Proof.
  intros Hm. unfold App.step. rewrite Hm. destruct e as [m|]; [done|].
  destruct (st_unsaved st); [apply st_dreams_save_effect|done].
Qed.

(** The list of a mounted application is the list at the start with the
    state updates of the events applied in their order. *)
Lemma st_dreams_run es st :
  st_mounted (run within_quota es st) = true →
  st_dreams (run within_quota es st) = apply_all (mutations es) (st_dreams st).
Proof.
  induction es as [|e es IH] using rev_ind; [done|].
  rewrite run_snoc, mutations_snoc. intros Hm.
  pose proof (mounted_step _ _ Hm) as Hm'.
  rewrite st_dreams_step, (IH Hm') by done.
  destruct e as [m|]; [by rewrite apply_all_snoc|by rewrite app_nil_r].
Qed.

Lemma persisted_save_effect st :
  st_mounted (save_effect within_quota st) = true →
  persisted (save_effect within_quota st)
  ∧ st_unsaved (save_effect within_quota st) = false.
Proof.
  unfold persisted, App.save_effect, App.setItem.
  destruct (within_quota _); [|done]. intros _.
  cbn [st_localStorage st_dreams st_unsaved]. split; [apply lookup_insert_eq|done].
Qed.

(** The storage holds the text of the list whenever the save effect of
    the last render has run. *)
Lemma persisted_reachable st :
  reachable JSON_parse within_quota st →
  st_mounted st = true → st_unsaved st = false → persisted st.
Proof.
  induction 1 as [ls loaded Hload|st e Hst IH].
  - unfold App.mount. cbv zeta.
    set (first := save_effect within_quota _).
    destruct loaded as [dreams|].
    + destruct (st_mounted first) eqn:Hm; [done|]. intros; congruence.
    + intros Hm _. by apply persisted_save_effect.
  - intros Hm' Hu'. pose proof (mounted_step _ _ Hm') as Hm.
    revert Hm' Hu'. unfold App.step. rewrite Hm.
    destruct e as [m|]; [done|].
    destruct (st_unsaved st) eqn:Hu; [|auto].
    intros Hm' _. by apply persisted_save_effect.
Qed.

(** C7. The storage is written by the save effect, which runs after the
    render that follows a state update, not with the update. In every
    state that the application passes through: when the save effect of
    the last render has run and not thrown, the storage holds the text of
    the list in memory; a state update leaves the storage as it was, so
    that until the next effects the storage holds the text of an older
    list, and updates that are rendered together are saved once; and when
    the effects have run, either the stored text is that of the list, or
    [setItem] has thrown for want of room, the storage is as it was and
    the application is unmounted. *)
Theorem save_effect_write_through st :
  reachable JSON_parse within_quota st →
  (st_mounted st = true → st_unsaved st = false → persisted st) ∧
  (∀ m, st_localStorage (step within_quota st (Mutate m)) = st_localStorage st) ∧
  (∀ ms, st_mounted st = true →
     let st' := run within_quota ((Mutate <$> ms) ++ [Effects]) st in
     (st_mounted st' = true →
        st_dreams st' = apply_all ms (st_dreams st) ∧ persisted st') ∧
     (st_mounted st' = false →
        st_localStorage st' = st_localStorage st ∧
        within_quota
          (<["dream_journal" := JSON.stringify (array_of (apply_all ms (st_dreams st)))]>
             (st_localStorage st)) = false)).
Proof.
  intros Hst. split; [by apply persisted_reachable|]. split.
  { intros m. unfold App.step. by destruct (st_mounted st). }
  intros ms Hm st'.
  assert (∀ ms, let st1 := run within_quota (Mutate <$> ms) st in
            st_mounted st1 = true ∧ st_localStorage st1 = st_localStorage st ∧
            st_dreams st1 = apply_all ms (st_dreams st) ∧
            (ms ≠ [] → st_unsaved st1 = true) ∧
            reachable JSON_parse within_quota st1) as Hrun.
  { clear ms st'. intros ms. induction ms as [|m ms IH] using rev_ind.
    { cbn. by repeat split. }
    cbv zeta in *. rewrite fmap_app. change (Mutate <$> [m]) with [Mutate m].
    rewrite run_snoc, apply_all_snoc.
    destruct IH as (Hm1 & Hls1 & Hd1 & _ & Hr1).
    unfold App.step at 1 2 3 4. rewrite Hm1.
    cbn [st_mounted st_localStorage st_dreams st_unsaved].
    rewrite Hd1. repeat split; try done.
    by apply (reachable_step _ _ _ (Mutate m)) in Hr1. }
  destruct (Hrun ms) as (Hm1 & Hls1 & Hd1 & Hu1 & Hr1).
  subst st'. rewrite run_snoc. unfold App.step. rewrite Hm1.
  destruct (st_unsaved (run within_quota (Mutate <$> ms) st)) eqn:Hu.
  - split.
    + intros Hm2. rewrite st_dreams_save_effect. split; [done|].
      by apply persisted_save_effect.
    + unfold App.save_effect, App.setItem. rewrite Hd1, Hls1.
      by destruct (within_quota _).
  - split; [|congruence]. intros _. split; [done|].
    by apply persisted_reachable.
Qed.

(** *** Ids *)

Lemma get_with_analysis key d analysis :
  JSON.get key (with_analysis d analysis)
  = if String.eqb "isProcessing" key then Some (JSON.Bool false)
    else match JSON.get key (reverse analysis) with
         | Some v => Some v
         | None => JSON.get key d
         end.
Proof. unfold with_analysis. by rewrite get_set_member, get_spread. Qed.

Lemma get_id_with_analysis d analysis :
  JSON.get "id" analysis = None →
  JSON.get "id" (with_analysis d analysis) = JSON.get "id" d.
Proof.
  intros Hnone. unfold with_analysis.
  by rewrite get_set_member, get_spread_None.
Qed.

Lemma complete_dream_lookup nd analysis prev (i : nat) :
  complete_dream nd analysis prev !! i =
  (λ d, if is_newDream nd d then with_analysis d analysis else d) <$> prev !! i.
Proof. unfold complete_dream, autoTranscribe. apply list_lookup_fmap. Qed.

Lemma is_newDream_spec nd d :
  is_newDream nd d = true ↔ JSON.get "id" d = Some (JSON.Str (id nd)).
Proof. apply strict_eq_Str. Qed.

Lemma ids_complete_dream nd analysis prev :
  JSON.get "id" analysis = None → ids (complete_dream nd analysis prev) = ids prev.
Proof.
  intros Hnone. unfold ids, complete_dream, autoTranscribe.
  induction prev as [|d l IH]; [done|].
  cbn [List.map fmap list_fmap] in *. rewrite IH. f_equal.
  destruct (is_newDream nd d); [by apply get_id_with_analysis|done].
Qed.

Lemma ids_handleUpdateDream u prev :
  string_ids prev → ids (handleUpdateDream u prev) = ids prev.
Proof.
  unfold ids, handleUpdateDream, same_id, members_same_id.
  induction 1 as [|d l [s Hd] _ IH]; [done|].
  cbn [List.map fmap list_fmap] in *. rewrite IH. f_equal.
  rewrite Hd. destruct (JSON.strict_eq _ _) eqn:Heq; [|done].
  by apply strict_eq_Str_l in Heq.
Qed.

Lemma string_ids_ids prev prev' : ids prev' = ids prev → string_ids prev → string_ids prev'.
Proof.
  unfold string_ids, ids. rewrite !Forall_lookup. intros Hids H i d' Hi.
  assert ((JSON.get "id" <$> prev') !! i = Some (JSON.get "id" d')) as Hi'.
  { by rewrite list_lookup_fmap, Hi. }
  rewrite Hids, list_lookup_fmap in Hi'.
  destruct (prev !! i) as [d|] eqn:Hd; [|done].
  injection Hi' as Hi'. destruct (H i d Hd) as [s Hs]. exists s. congruence.
Qed.

Lemma ids_update_of m prev :
  string_ids prev → keeps_ids m →
  ids (update_of m prev) =
  match m with
  | RecordingInserted now_id _ _ => id_of_clock now_id :: ids prev
  | _ => ids prev
  end.
Proof.
  intros Hprev Hm. destruct m; cbn [update_of].
  - reflexivity.
  - by apply ids_complete_dream.
  - by apply ids_handleUpdateDream.
Qed.

Lemma string_ids_update_of m prev :
  string_ids prev → keeps_ids m → string_ids (update_of m prev).
Proof.
  intros Hprev Hm. pose proof (ids_update_of m prev Hprev Hm) as Hids.
  destruct m as [now_id now_ts audio| |];
    try (by apply (string_ids_ids prev)).
  cbn [update_of insert_dream]. constructor; [by eexists|done].
Qed.

Lemma length_update_of m prev :
  length (update_of m prev) =
  match m with
  | RecordingInserted _ _ _ => S (length prev)
  | _ => length prev
  end.
Proof.
  destruct m; cbn [update_of]; [done| |apply length_map].
  unfold complete_dream. destruct autoTranscribe; apply length_map.
Qed.

Lemma clock_readings_snoc ms m :
  clock_readings (ms ++ [m]) =
  clock_readings ms ++
  match m with
  | RecordingInserted now_id _ _ => [now_id]
  | _ => []
  end.
Proof. unfold clock_readings. rewrite omap_app. by destruct m. Qed.

(** The ids after a series of state updates: those of its recordings,
    newest first, in front of the ids that were there. *)
Lemma ids_apply_all ms prev :
  string_ids prev → Forall keeps_ids ms →
  string_ids (apply_all ms prev) ∧
  ids (apply_all ms prev)
  = reverse (id_of_clock <$> clock_readings ms) ++ ids prev.
Proof.
  intros Hprev. induction ms as [|m ms IH] using rev_ind; [done|].
  intros [Hms Hm]%Forall_app. rewrite Forall_singleton in Hm.
  destruct (IH Hms) as [Hstr Hids].
  rewrite apply_all_snoc, clock_readings_snoc.
  split; [by apply string_ids_update_of|].
  rewrite ids_update_of, Hids by done.
  destruct m; rewrite ?app_nil_r; try done.
  by rewrite fmap_app, reverse_app.
Qed.

Lemma length_apply_all ms prev :
  length (apply_all ms prev) = (length (clock_readings ms) + length prev)%nat.
Proof.
  induction ms as [|m ms IH] using rev_ind; [done|].
  rewrite apply_all_snoc, clock_readings_snoc, length_update_of, IH, length_app.
  destruct m; simpl; lia.
Qed.

Lemma NoDup_reverse {B} (l : list B) : NoDup (reverse l) ↔ NoDup l.
Proof. by rewrite reverse_Permutation. Qed.

Lemma id_of_clock_inj : Inj (=) (=) id_of_clock.
Proof.
  intros x y H. unfold id_of_clock, JS.toString in H.
  injection H as H. by apply (inj pretty) in H.
Qed.

(** C8. Ids are unique as far as the clock and the analyses make them so.
    A recording whose audio could be read puts the decimal string of its
    clock reading in front of the ids, and one whose audio could not be
    read adds no entry. In a run of a mounted application from a store
    whose ids are strings, in which no analysis has a property [id], an
    update by id and a completion leave the ids as they are; so the ids at
    the end are pairwise different exactly when those at the start are,
    the clock readings of the recordings are pairwise different, and none
    of them prints as an id that was already there. *)
Theorem ids_unique_iff_clock_fresh es st :
  st_mounted (run within_quota es st) = true →
  string_ids (st_dreams st) →
  Forall keeps_ids (mutations es) →
  let readings := clock_readings (mutations es) in
  (∀ blob now_id now_timestamp analysis,
     clock_readings (handleRecordingComplete blob now_id now_timestamp analysis)
     = match blob with
       | GeminiService.Resolved _ => [now_id]
       | GeminiService.Rejected _ => []
       end) ∧
  ids (st_dreams (run within_quota es st))
    = reverse (id_of_clock <$> readings) ++ ids (st_dreams st) ∧
  length (st_dreams (run within_quota es st))
    = (length readings + length (st_dreams st))%nat ∧
  (NoDup (ids (st_dreams (run within_quota es st))) ↔
   NoDup (ids (st_dreams st)) ∧ NoDup readings ∧
   ∀ now, now ∈ readings → id_of_clock now ∉ ids (st_dreams st)).
Proof.
  intros Hm Hstr Hkeep readings.
  split; [by intros [audio|error] ? ? ?|].
  rewrite (st_dreams_run es st Hm).
  destruct (ids_apply_all (mutations es) (st_dreams st) Hstr Hkeep) as [_ Hids].
  split; [exact Hids|]. split; [apply length_apply_all|].
  rewrite Hids, NoDup_app, NoDup_reverse.
  pose proof id_of_clock_inj.
  rewrite (NoDup_fmap id_of_clock). split.
  - intros (Hclock & Hdisj & Hnd). split; [done|]. split; [done|].
    intros now Hnow. apply Hdisj. rewrite elem_of_reverse.
    by apply list_elem_of_fmap_2.
  - intros (Hnd & Hclock & Hfresh). split; [done|]. split; [|done].
    intros x [now [-> Hnow]]%elem_of_reverse%list_elem_of_fmap. by apply Hfresh.
Qed.

(** *** The pending flag of a recording *)

Lemma complete_dream_absent nd analysis prev :
  Some (JSON.Str (id nd)) ∉ ids prev → complete_dream nd analysis prev = prev.
Proof.
  unfold complete_dream, autoTranscribe, ids.
  induction prev as [|d l IH]; [done|].
  rewrite fmap_cons. intros [Hne Hl]%not_elem_of_cons.
  cbn [List.map]. rewrite (IH Hl).
  destruct (is_newDream nd d) eqn:Heq; [|done].
  apply is_newDream_spec in Heq. congruence.
Qed.

Lemma pending_in_step X m prev :
  pending_in X prev → leaves_pending X m → pending_in X (update_of m prev).
Proof.
  intros (d & Hd & Hid & Hpend) Hm. destruct m as [n1 n2 audio|nd a|u];
    cbn [update_of leaves_pending] in *.
  - exists d. split; [by right|done].
  - apply list_elem_of_lookup in Hd as [i Hi].
    exists d. split; [|done]. apply list_elem_of_lookup. exists i.
    rewrite complete_dream_lookup, Hi. simpl.
    destruct (is_newDream nd d) eqn:Heq; [|done].
    apply is_newDream_spec in Heq. congruence.
  - apply list_elem_of_lookup in Hd as [i Hi].
    destruct (same_id d u) eqn:Heq.
    + assert (JSON.get "id" u = Some (JSON.Str X)) as Hu.
      { unfold same_id, members_same_id in Heq. rewrite Hid in Heq.
        by apply strict_eq_Str_l in Heq. }
      exists u. split; [|split; [done|by apply Hm]].
      apply list_elem_of_lookup. exists i.
      rewrite handleUpdateDream_lookup_by, Hi. simpl. by rewrite Heq.
    + exists d. split; [|done]. apply list_elem_of_lookup. exists i.
      rewrite handleUpdateDream_lookup_by, Hi. simpl. by rewrite Heq.
Qed.

Lemma pending_in_apply_all X ms prev :
  pending_in X prev → Forall (leaves_pending X) ms →
  pending_in X (apply_all ms prev).
Proof.
  intros Hst. induction ms as [|m ms IH] using rev_ind; [done|].
  intros [Hms Hm]%Forall_app. rewrite apply_all_snoc.
  rewrite Forall_singleton in Hm.
  apply pending_in_step; [by apply IH|done].
Qed.

End Store.

(** Updates of the list between two runs of the effects are not in the
    storage: after the first recording of an empty journal is inserted,
    the storage still holds the text of the empty list. *)
Lemma persisted_not_after_mutation :
  ¬ (∀ st m, App.reachable Host.JSON_parse (λ _, true) st →
             persisted (App.step (λ _, true) st (App.Mutate m))).
Proof.
  intros H.
  specialize (H (App.mount (λ _, true) ∅ None)
                (App.RecordingInserted 1700000000000 1700000000000 "QUJD")
                (App.reachable_mount _ _ ∅ None eq_refl)).
  unfold persisted in H. vm_compute in H. discriminate.
Qed.


(** Two recordings that end in the same millisecond: a state that the
    application passes through in which two entries share an id. *)
Lemma ids_unique_counterexample :
  ¬ (∀ st, App.reachable Host.JSON_parse (λ _, true) st →
           NoDup (ids (App.st_dreams st))).
Proof.
  intros H.
  specialize (H (App.run (λ _, true)
                   [App.Mutate (App.RecordingInserted 1700000000000 1700000000000 "QUJD");
                    App.Mutate (App.RecordingInserted 1700000000000 1700000000000 "REVG")]
                   (App.mount (λ _, true) ∅ None))).
  assert (App.reachable Host.JSON_parse (λ _, true)
            (App.run (λ _, true)
               [App.Mutate (App.RecordingInserted 1700000000000 1700000000000 "QUJD");
                App.Mutate (App.RecordingInserted 1700000000000 1700000000000 "REVG")]
               (App.mount (λ _, true) ∅ None))) as Hr.
  { do 2 apply App.reachable_step. by apply (App.reachable_mount _ _ ∅ None). }
  specialize (H Hr). vm_compute in H.
  apply NoDup_cons in H as [Hin _]. apply Hin. by left.
Qed.
(** ** The analysis service *)

Section Analysis.
Import GeminiService.
Variable generateContent : string → string → outcome GenerateContentResponse.
Variable JSON_parse : string → option JSON.value.

(** C5. [analyzeDreamAudio] always resolves, whatever the request does and
    whatever parser the platform has. It resolves to the value that
    [JSON.parse] gives for the response when the request resolved with a
    non-empty text that parses, and to the fallback object (the failure
    sentence, the one tag [Error], the mood [Unknown], the score 0) when
    the request was rejected, when the response has no text or an empty
    one, and when [JSON.parse] throws on the text. *)
Theorem analyzeDreamAudio_total (audioBase64 mimeType : string) :
  let request := generateContent mimeType (cleanBase64 audioBase64) in
  ∃ v, analyzeDreamAudio generateContent JSON_parse audioBase64 mimeType
       = Resolved v ∧
       ((∃ t, request = Resolved {| text := Some t |} ∧ t ≠ ""
              ∧ JSON_parse t = Some v)
        ∨ (v = JSON.Obj
                 [("transcription",
                   JSON.Str "Analysis failed. Please try again later.");
                  ("tags", JSON.Arr [JSON.Str "Error"]);
                  ("mood", JSON.Str "Unknown");
                  ("lucidityScore", JSON.Num (JS.Int 0))]
           ∧ ((∃ e, request = Rejected e)
              ∨ request = Resolved {| text := None |}
              ∨ request = Resolved {| text := Some "" |}
              ∨ ∃ t, request = Resolved {| text := Some t |}
                     ∧ JSON_parse t = None))).
Proof.
  intros request. unfold analyzeDreamAudio. fold request.
  destruct request as [[[t|]]|e]; cbn [bind try_catch text].
  - destruct t as [|c t]; cbn [JS.truthy].
    + eexists. split; [reflexivity|]. right. split; [done|]. eauto.
    + destruct (JSON_parse (String c t)) as [v|] eqn:Hparse.
      * exists v. split; [done|]. left. exists (String c t). by repeat split.
      * eexists. split; [reflexivity|]. right. split; [done|].
        do 3 right. eauto.
  - eexists. split; [reflexivity|]. right. split; [done|]. eauto.
  - eexists. split; [reflexivity|]. right. split; [done|]. eauto.
Qed.
End Analysis.
(** ** Worked examples *)

Example filtered_by_text :
  App.filtered Host.toLowerCase Host.toLocaleDateString Sample.dreams "FLY"
  = [Sample.flying].
Proof. vm_compute. reflexivity. Qed.

Example filtered_by_tag :
  App.filtered Host.toLowerCase Host.toLocaleDateString Sample.dreams "dog chased"
  = [Sample.chased].
Proof. vm_compute. reflexivity. Qed.

Example filtered_by_date :
  App.filtered Host.toLowerCase Host.toLocaleDateString Sample.dreams "Monday"
  = [Sample.forest].
Proof. vm_compute. reflexivity. Qed.

Example filtered_no_results :
  App.filtered Host.toLowerCase Host.toLocaleDateString Sample.dreams "ocean" = [].
Proof. vm_compute. reflexivity. Qed.

Example grouped_newest_first :
  App.groupedDreams Host.toLowerCase Host.toLocaleDateString Sample.dreams ""
  = [ {| App.date := "Tuesday, November 14";
         App.dreams := [Sample.flying; Sample.chased] |};
      {| App.date := "Monday, November 13"; App.dreams := [Sample.forest] |} ].
Proof. vm_compute. reflexivity. Qed.

(** With a mixed input order the groups follow discovery order and a date
    still has one group only. *)
Example grouped_mixed_order :
  App.grouped Host.toLocaleDateString [Sample.chased; Sample.forest; Sample.flying]
  = [ {| App.date := "Tuesday, November 14";
         App.dreams := [Sample.chased; Sample.flying] |};
      {| App.date := "Monday, November 13"; App.dreams := [Sample.forest] |} ].
Proof. vm_compute. reflexivity. Qed.

Example removeTag_duplicates :
  DreamCard.removeTag (Some (λ d, tags d)) Sample.chased "Chased" = Some ["Dog"].
Proof. vm_compute. reflexivity. Qed.

Example addTag_trims :
  DreamCard.addTag (Some (λ d, tags d)) Sample.forest "  Forest " =
  Some ["Forest"; "Forest"].
Proof. vm_compute. reflexivity. Qed.

Example addTag_blank :
  DreamCard.addTag (Some (λ d, tags d)) Sample.forest "   " = None.
Proof. vm_compute. reflexivity. Qed.

Example load_corrupted :
  App.dreams_after_mount Host.JSON_parse {["dream_journal" := "[{oops"]}
  = JSON.Arr [].
Proof. vm_compute. reflexivity. Qed.

(** A stored text that parses becomes the state, list or not. *)
Example load_number :
  App.dreams_after_mount Host.JSON_parse {["dream_journal" := "1.5"]}
  = JSON.Num (JS.Dec 15 1).
Proof. vm_compute. reflexivity. Qed.

Example parse_numerals :
  JSON.parse "[7.0, 1e3, -0, 1.50, 1e999, 0.001]"
  = JSON.Parsed (JSON.Arr [JSON.Num (JS.Int 7); JSON.Num (JS.Int 1000);
                           JSON.Num JS.NegZero; JSON.Num (JS.Dec 15 1);
                           JSON.Num (JS.Infinity false); JSON.Num (JS.Dec 1 3)]).
Proof. vm_compute. reflexivity. Qed.

Example stringify_numbers :
  JSON.stringify (JSON.Arr [JSON.Num (JS.Dec 75 1); JSON.Num JS.NaN;
                            JSON.Num JS.NegZero; JSON.Num (JS.Infinity true);
                            JSON.Num (JS.Int 1700000000000)])
  = "[7.5,null,0,null,1700000000000]".
Proof. vm_compute. reflexivity. Qed.

(** A text with white space, with its properties in another order than the
    schema has them. *)
Example parse_spaced_object :
  JSON.parse ("{ " +:+ JSON.quote "mood" (" : " +:+ JSON.quote "Calm"
                (" , " +:+ JSON.quote "1" (": [ ]}" ))))
  = JSON.Parsed (JSON.Obj [("1", JSON.Arr []); ("mood", JSON.Str "Calm")]).
Proof. vm_compute. reflexivity. Qed.

Example analyzeDreamAudio_unparseable :
  GeminiService.analyzeDreamAudio
    (λ _ _, GeminiService.Resolved {| GeminiService.text := Some "not json" |})
    Host.JSON_parse "data:audio/webm;base64,QUJD" "audio/webm"
  = GeminiService.Resolved GeminiService.fallback.
Proof. vm_compute. reflexivity. Qed.

Example analyzeDreamAudio_fraction :
  GeminiService.analyzeDreamAudio
    (λ _ _, GeminiService.Resolved
              {| GeminiService.text :=
                   Some (JSON.stringify (JSON.Obj Sample.analysis)) |})
    Host.JSON_parse "data:audio/webm;base64,QUJD" "audio/webm"
  = GeminiService.Resolved (JSON.Obj Sample.analysis).
Proof. vm_compute. reflexivity. Qed.

(** The response need not be an object. *)
Example analyzeDreamAudio_null :
  GeminiService.analyzeDreamAudio
    (λ _ _, GeminiService.Resolved {| GeminiService.text := Some "null" |})
    Host.JSON_parse "data:audio/webm;base64,QUJD" "audio/webm"
  = GeminiService.Resolved JSON.Null.
Proof. vm_compute. reflexivity. Qed.

(** What a spread reads of a value that is not an object. *)
Example own_props_of_array_and_string :
  JSON.own_props (JSON.Arr [JSON.Null; JSON.Bool true])
  = Some [("0", JSON.Null); ("1", JSON.Bool true)] ∧
  JSON.own_props (JSON.Str "ab") = Some [("0", JSON.Str "a"); ("1", JSON.Str "b")] ∧
  JSON.own_props (JSON.Num (JS.Int 5)) = Some [] ∧
  JSON.own_props JSON.Null = Some [].
Proof. vm_compute. by repeat split. Qed.

(** A score that the response gives as the numeral [1e999] is an infinity
    in the store. *)
Example infinite_score_from_response :
  let response := "{" +:+ JSON.quote "lucidityScore" ":1e999}" in
  let props := [("lucidityScore", JSON.Num (JS.Infinity false))] in
  Host.JSON_parse response = Some (JSON.Obj props) ∧
  JSON.get "lucidityScore"
  <$> apply_all
        (App.handleRecordingComplete (GeminiService.Resolved "QUJD") 5 6 props) []
  = [Some (JSON.Num (JS.Infinity false))].
Proof. vm_compute. by split. Qed.

(** An analysis with a property [id] gives the entry that id: here the id
    of another entry of the store. *)
Example completion_rewrites_id :
  let props := [("id", JSON.Str "1699990000000")] in
  ids (apply_all
         (App.handleRecordingComplete (GeminiService.Resolved "QUJD") 5 6 props)
         Sample.store)
  = [Some (JSON.Str "1699990000000"); Some (JSON.Str "1700000000000");
     Some (JSON.Str "1699990000000"); Some (JSON.Str "1699900000000")].
Proof. vm_compute. reflexivity. Qed.

(** With room for forty bytes, the save effect of the first render stores
    the text of the empty list, and that of the render with the first
    recording throws: the storage keeps the text of the empty list and the
    application is unmounted. *)
Example quota_exceeded :
  let st :=
    App.run (Host.within_quota 40)
      [App.Mutate (App.RecordingInserted 1700000000000 1700000000000 "QUJD");
       App.Effects]
      (App.mount (Host.within_quota 40) ∅ None) in
  App.st_mounted st = false ∧
  App.st_localStorage st !! "dream_journal" = Some "[]" ∧
  length (App.st_dreams st) = 1%nat.
Proof. vm_compute. by repeat split. Qed.

(** A recording whose audio cannot be read leaves the store as it was. *)
Example recording_unreadable :
  apply_all
    (App.handleRecordingComplete (GeminiService.Rejected "NotReadableError")
       5 6 Sample.analysis) Sample.store
  = Sample.store ∧
  App.busy_after (GeminiService.Rejected "NotReadableError") = true.
Proof. vm_compute. by split. Qed.
(** ** The theorems at concrete inputs *)

Lemma filtered_spec_witness :
  Host.toLowerCase "" = "" ∧
  App.filtered Host.toLowerCase Host.toLocaleDateString Sample.dreams "" =
  Sample.dreams.
Proof.
  split; [reflexivity|].
  apply (proj2 (proj2 (proj2
           (filtered_spec Host.toLowerCase Host.toLocaleDateString eq_refl
              Sample.dreams "FLY")))).
Defined.

Lemma handleUpdateDream_frame_witness :
  let u := with_tags Sample.chased ["Dog"] in
  Forall (λ d, id d ≠ id u) [Sample.flying; Sample.forest] ∧
  App.handleUpdateDream u [Sample.flying; Sample.forest]
  = [Sample.flying; Sample.forest] ∧
  App.handleUpdateDream u Sample.dreams !! 1%nat = Some u.
Proof.
  intros u.
  assert (Forall (λ d, id d ≠ id u) [Sample.flying; Sample.forest]) as Hall.
  { repeat constructor; vm_compute; discriminate. }
  split; [exact Hall|]. split.
  - apply (proj1 (handleUpdateDream_frame u [Sample.flying; Sample.forest]) Hall).
  - apply (proj1 (proj2 (proj2 (handleUpdateDream_frame u Sample.dreams))
                   1%nat Sample.chased eq_refl) eq_refl).
Defined.

Lemma removeTag_idempotent_addTag_keeps_duplicates_witness :
  ∃ d2, DreamCard.addTag (Some (λ d, d)) Sample.forest "  Forest " = Some d2 ∧
        tags d2 = ["Forest"; "Forest"] ∧ ¬ NoDup (tags d2).
Proof.
  destruct (proj1 (proj2 (removeTag_idempotent_addTag_keeps_duplicates
                            (λ d, d) Sample.forest "Forest"))
              "  Forest " eq_refl ltac:(discriminate))
    as (d2 & Hadd & Htags & _ & _ & Hdup).
  exists d2. split; [exact Hadd|]. split; [exact Htags|].
  apply Hdup. vm_compute. by left.
Defined.


Lemma save_effect_write_through_witness :
  let st :=
    App.run (λ _, true)
      [App.Mutate (App.RecordingInserted 1700000000000 1700000000000 "QUJD");
       App.Effects]
      (App.mount (λ _, true) ∅ None) in
  App.reachable Host.JSON_parse (λ _, true) st ∧ persisted st.
Proof.
  intros st.
  assert (App.reachable Host.JSON_parse (λ _, true) st) as Hst.
  { do 2 apply App.reachable_step. by apply (App.reachable_mount _ _ ∅ None). }
  split; [exact Hst|].
  apply (proj1 (save_effect_write_through Host.JSON_parse (λ _, true) st Hst));
    reflexivity.
Defined.


Lemma ids_unique_witness :
  let st := App.mkAppState Sample.store ∅ false true in
  let es :=
    [App.Mutate (App.RecordingInserted 1700000005000 1700000005000 "QUJD");
     App.Effects;
     App.Mutate (App.RecordingInserted 1700000006000 1700000006000 "REVG");
     App.Mutate
       (App.AnalysisResolved
          (App.newDream 1700000005000 1700000005000 "QUJD") Sample.analysis);
     App.Effects] in
  App.st_mounted (App.run (λ _, true) es st) = true ∧
  string_ids (App.st_dreams st) ∧
  Forall keeps_ids (mutations es) ∧
  NoDup (ids (App.st_dreams (App.run (λ _, true) es st))).
Proof.
  intros st es.
  assert (string_ids (App.st_dreams st)) as Hstr.
  { repeat constructor; eexists; reflexivity. }
  assert (Forall keeps_ids (mutations es)) as Hkeep.
  { repeat constructor. }
  split; [reflexivity|]. split; [exact Hstr|]. split; [exact Hkeep|].
  apply (proj2 (proj2 (proj2 (proj2 (ids_unique_iff_clock_fresh (λ _, true) es st
                                       eq_refl Hstr Hkeep))))).
  assert (ids (App.st_dreams st)
          = [Some (JSON.Str "1700000000000"); Some (JSON.Str "1699990000000");
             Some (JSON.Str "1699900000000")]) as -> by reflexivity.
  change (clock_readings (mutations es)) with [1700000005000; 1700000006000]%Z.
  split; [|split].
  - repeat (apply NoDup_cons_2;
            [rewrite ?not_elem_of_cons; repeat split;
             try discriminate; apply not_elem_of_nil|]).
    apply NoDup_nil_2.
  - repeat (apply NoDup_cons_2;
            [rewrite ?not_elem_of_cons; repeat split;
             try discriminate; apply not_elem_of_nil|]).
    apply NoDup_nil_2.
  - intros now Hnow.
    apply elem_of_cons in Hnow as [->|Hnow];
      [rewrite !not_elem_of_cons; repeat split;
       try (vm_compute; discriminate); apply not_elem_of_nil|].
    apply elem_of_cons in Hnow as [->|Hnow];
      [rewrite !not_elem_of_cons; repeat split;
       try (vm_compute; discriminate); apply not_elem_of_nil|].
    by apply elem_of_nil in Hnow.
Defined.
(** * Further properties of the code *)

(** ** The selection of the interpretation view *)

Section Selection.
Implicit Types (prev sel : list string) (x y : string) (dreams : list DreamEntry).

Lemma array_includes_spec (l : list string) x :
  JS.array_includes l x = true ↔ x ∈ l.
Proof.
  unfold JS.array_includes. rewrite existsb_exists. split.
  - intros (y & Hy & Heq). apply String.eqb_eq in Heq. subst.
    by apply list_elem_of_In.
  - intros Hx. exists x. split; [by apply list_elem_of_In|apply String.eqb_refl].
Qed.

Lemma array_includes_false (l : list string) x :
  JS.array_includes l x = false ↔ x ∉ l.
Proof.
  rewrite <- array_includes_spec. destruct (JS.array_includes l x); split; congruence.
Qed.

Lemma toggle_present x prev :
  x ∈ prev → App.toggleDreamSelection x prev = filter (λ y, y ≠ x) prev.
Proof.
  intros Hx. unfold App.toggleDreamSelection.
  rewrite (proj2 (array_includes_spec prev x) Hx). apply removeTag_filter.
Qed.

Lemma toggle_absent x prev :
  x ∉ prev → App.toggleDreamSelection x prev = prev ++ [x].
Proof.
  intros Hx. unfold App.toggleDreamSelection.
  by rewrite (proj2 (array_includes_false prev x) Hx).
Qed.

Lemma toggleDreamSelection_flips_aux x prev :
  (x ∈ App.toggleDreamSelection x prev ↔ x ∉ prev) ∧
  (∀ y, y ≠ x → (y ∈ App.toggleDreamSelection x prev ↔ y ∈ prev)).
Proof.
  split.
  - destruct (decide (x ∈ prev)) as [Hx|Hx].
    + rewrite toggle_present, list_elem_of_filter by done. tauto.
    + rewrite toggle_absent, elem_of_app, list_elem_of_singleton by done. tauto.
  - intros y Hy. destruct (decide (x ∈ prev)) as [Hx|Hx].
    + rewrite toggle_present, list_elem_of_filter by done. tauto.
    + rewrite toggle_absent, elem_of_app, list_elem_of_singleton by done. tauto.
Qed.

(** X1. A click on a row flips the selection of its id and of no other
    id: the id is selected afterwards exactly when it was not before, every
    other id is selected exactly when it was before, and the ids that stay
    keep their order, a new id going to the end. *)
Theorem toggleDreamSelection_flips x prev :
  (x ∈ App.toggleDreamSelection x prev ↔ x ∉ prev) ∧
  (∀ y, y ≠ x → (y ∈ App.toggleDreamSelection x prev ↔ y ∈ prev)) ∧
  (x ∈ prev → App.toggleDreamSelection x prev = filter (λ y, y ≠ x) prev) ∧
  (x ∉ prev → App.toggleDreamSelection x prev = prev ++ [x]).
Proof.
  destruct (toggleDreamSelection_flips_aux x prev) as [Hx Hy].
  split; [done|]. split; [done|]. split; [apply toggle_present|apply toggle_absent].
Qed.

Lemma toggle_NoDup x prev : NoDup prev → NoDup (App.toggleDreamSelection x prev).
Proof.
  intros Hnd. destruct (decide (x ∈ prev)) as [Hx|Hx].
  - rewrite toggle_present by done. by apply NoDup_filter.
  - rewrite toggle_absent by done. apply NoDup_app. split; [done|]. split.
    + intros y Hy ->%list_elem_of_singleton. done.
    + apply NoDup_singleton.
Qed.

Lemma toggle_elem_of x y prev :
  y ∈ App.toggleDreamSelection x prev ↔ (if decide (y = x) then y ∉ prev else y ∈ prev).
Proof.
  destruct (toggleDreamSelection_flips_aux x prev) as [Hx Hy].
  case_decide as Heq; [subst; apply Hx|by apply Hy].
Qed.

Lemma selection_after_snoc clicks x :
  selection_after (clicks ++ [x]) = App.toggleDreamSelection x (selection_after clicks).
Proof. unfold selection_after. by rewrite fold_left_app. Qed.

(** X2. Whatever rows are clicked in whatever order, the selection never
    holds an id twice, and an id is selected exactly when its row has been
    clicked an odd number of times. *)
Theorem selection_after_clicks clicks x :
  NoDup (selection_after clicks) ∧
  (x ∈ selection_after clicks ↔
   Nat.odd (length (filter (λ y, y = x) clicks)) = true).
Proof.
  induction clicks as [|c clicks [IHnd IH]] using rev_ind.
  - split; [constructor|]. cbn. split; [by intros ?%elem_of_nil|done].
  - rewrite selection_after_snoc. split; [by apply toggle_NoDup|].
    rewrite toggle_elem_of, filter_app, length_app.
    case_decide as Heq.
    + subst c. rewrite filter_cons_True, filter_nil by done. cbn [length].
      rewrite Nat.add_1_r, Nat.odd_succ, <- Nat.negb_odd.
      rewrite IH. destruct (Nat.odd _); cbn; split; congruence.
    + rewrite filter_cons_False, filter_nil by congruence. cbn [length].
      by rewrite Nat.add_0_r.
Qed.

(** X3. Clicking a row twice restores the selection when the id was not
    selected; when it was, the selection holds the same ids with that id
    moved to the end. *)
Theorem toggleDreamSelection_twice x prev :
  NoDup prev →
  (x ∉ prev →
   App.toggleDreamSelection x (App.toggleDreamSelection x prev) = prev) ∧
  (x ∈ prev →
   App.toggleDreamSelection x (App.toggleDreamSelection x prev)
   = filter (λ y, y ≠ x) prev ++ [x]) ∧
  App.toggleDreamSelection x (App.toggleDreamSelection x prev) ≡ₚ prev.
Proof.
  intros Hnd.
  assert (x ∉ prev →
    App.toggleDreamSelection x (App.toggleDreamSelection x prev) = prev) as Habsent.
  { intros Hx. rewrite (toggle_absent x prev Hx).
    rewrite toggle_present by (apply elem_of_app; right; by left).
    rewrite filter_app, filter_cons_False, filter_nil, app_nil_r by tauto.
    by apply filter_ne_absent. }
  assert (x ∈ prev →
    App.toggleDreamSelection x (App.toggleDreamSelection x prev)
    = filter (λ y, y ≠ x) prev ++ [x]) as Hpresent.
  { intros Hx. rewrite (toggle_present x prev Hx).
    apply toggle_absent. rewrite list_elem_of_filter. tauto. }
  split; [done|]. split; [done|].
  destruct (decide (x ∈ prev)) as [Hx|Hx]; [|by rewrite Habsent].
  rewrite Hpresent by done.
  apply NoDup_Permutation; [|done|].
  - apply NoDup_app. split; [by apply NoDup_filter|]. split; [|apply NoDup_singleton].
    intros y [Hy _]%list_elem_of_filter ->%list_elem_of_singleton. done.
  - intros y. rewrite elem_of_app, list_elem_of_filter, list_elem_of_singleton.
    destruct (decide (y = x)) as [->|]; tauto.
Qed.
End Selection.

(** ** Substrings of concatenations *)

Section Substrings.
Implicit Types (s t u q : string).

Lemma string_app_assoc s t u : (s +:+ t) +:+ u = s +:+ (t +:+ u).
Proof. induction s as [|c s IH]; [done|]. rewrite !app_String. by rewrite IH. Qed.

Lemma string_app_empty_r s : s +:+ "" = s.
Proof. induction s as [|c s IH]; [done|]. rewrite app_String. by rewrite IH. Qed.

Lemma is_substring_refl s : is_substring s s.
Proof. exists "", "". by rewrite app_empty_l, string_app_empty_r. Qed.

Lemma is_substring_app_l q s t : is_substring q s → is_substring q (s +:+ t).
Proof.
  intros (pre & post & ->). exists pre, (post +:+ t).
  by rewrite !string_app_assoc.
Qed.

Lemma is_substring_app_r q s t : is_substring q t → is_substring q (s +:+ t).
Proof.
  intros (pre & post & ->). exists (s +:+ pre), post.
  by rewrite !string_app_assoc.
Qed.

Lemma is_substring_trans q s t : is_substring q s → is_substring s t → is_substring q t.
Proof.
  intros (pre & post & ->) (pre' & post' & ->).
  exists (pre' +:+ pre), (post +:+ post'). by rewrite !string_app_assoc.
Qed.

Lemma is_substring_join (l : list string) sep x :
  x ∈ l → is_substring x (JS.join l sep).
Proof.
  unfold JS.join. induction l as [|y l IH]; [by intros ?%elem_of_nil|].
  intros [->|Hx]%elem_of_cons.
  - destruct l; [apply is_substring_refl|].
    cbn [String.concat]. apply is_substring_app_l, is_substring_refl.
  - destruct l as [|z l]; [by apply elem_of_nil in Hx|].
    cbn [String.concat]. do 2 apply is_substring_app_r. by apply IH.
Qed.
End Substrings.

Ltac substring_here :=
  repeat first
    [ apply is_substring_refl
    | apply is_substring_app_l; apply is_substring_refl
    | apply is_substring_app_r ].

(** ** The other calls to the service *)

Section OtherServices.
Import GeminiService.

(** X4. [interpretDreams] always resolves, and never to the empty text: to
    the text of the response when there is one, to one fixed sentence when
    the response has no text or an empty one, and to another when the
    request is rejected. *)
Theorem interpretDreams_total (toLocaleDateString : JS.number → string)
    (generateContent : string → outcome GenerateContentResponse)
    (dreams : list DreamEntry) :
  let request := generateContent (interpret_contents toLocaleDateString dreams) in
  ∃ result,
    interpretDreams toLocaleDateString generateContent dreams = Resolved result ∧
    result ≠ "" ∧
    ((∃ t, request = Resolved {| text := Some t |} ∧ t ≠ "" ∧ result = t)
     ∨ (result = "Could not generate interpretation."
        ∧ (request = Resolved {| text := None |}
           ∨ request = Resolved {| text := Some "" |}))
     ∨ (result = "Failed to interpret dreams. Please try again."
        ∧ ∃ e, request = Rejected e)).
Proof.
  intros request. unfold interpretDreams. fold request.
  destruct request as [[[t|]]|e]; cbn [bind try_catch text].
  - destruct t as [|c t]; cbn [JS.or_else JS.truthy].
    + eexists. split; [reflexivity|]. split; [done|]. right. left. eauto.
    + eexists. split; [reflexivity|]. split; [done|]. left.
      exists (String c t). by repeat split.
  - eexists. split; [reflexivity|]. split; [done|]. right. left. eauto.
  - eexists. split; [reflexivity|]. split; [done|]. do 2 right. eauto.
Qed.

(** X5. The text sent for interpretation quotes every dream it is given:
    its formatted date, its mood, each of its tags and its transcription
    occur in the contents of the request. *)
Theorem interpret_contents_quotes (toLocaleDateString : JS.number → string)
    (dreams : list DreamEntry) (d : DreamEntry) :
  d ∈ dreams →
  let contents := interpret_contents toLocaleDateString dreams in
  is_substring (toLocaleDateString (timestamp d)) contents ∧
  is_substring (mood d) contents ∧
  (∀ tag, tag ∈ tags d → is_substring tag contents) ∧
  is_substring (transcription d) contents.
Proof.
  intros Hd contents.
  assert (is_substring (dream_block toLocaleDateString d) contents) as Hblock.
  { unfold contents, interpret_contents.
    do 3 apply is_substring_app_r. apply is_substring_app_l.
    apply is_substring_join. by apply list_elem_of_fmap_2. }
  split; [|split; [|split]]; [|
    |intros tag Htag; apply (is_substring_trans _ (JS.join (tags d) ", "));
       [by apply is_substring_join|]|];
    (eapply is_substring_trans; [|exact Hblock]);
    unfold dream_block; substring_here.
Qed.

Lemma first_inline_image_None (ps : list Part) :
  first_inline_image ps = None ↔ Forall (λ p, inlineData p = None) ps.
Proof.
  induction ps as [|p ps IH]; cbn [first_inline_image].
  - split; [constructor|done].
  - destruct (inlineData p) as [d|] eqn:Hp.
    + split; [done|]. intros Hall. inversion Hall. congruence.
    + rewrite IH. split; [by constructor|]. by inversion 1.
Qed.

Lemma first_inline_image_Some (ps : list Part) image :
  first_inline_image ps = Some image →
  ∃ ps1 p ps2 d,
    ps = ps1 ++ p :: ps2 ∧ Forall (λ p, inlineData p = None) ps1 ∧
    inlineData p = Some d ∧
    image = "data:" +:+ JS.template (mimeType d) +:+ ";base64,"
            +:+ JS.template (data d).
Proof.
  induction ps as [|p ps IH]; cbn [first_inline_image]; [done|].
  destruct (inlineData p) as [d|] eqn:Hp.
  - intros [= <-]. by exists [], p, ps, d.
  - intros (ps1 & q & ps2 & d & -> & Hall & Hq & ->)%IH.
    exists (p :: ps1), q, ps2, d. repeat split; [|done]. by constructor.
Qed.

(** How [generateDreamImage] ends, in terms of the request. *)
Lemma generateDreamImage_resolves
    (generateContent : string → outcome ImageResponse)
    (transcription mood : string) :
  let request := generateContent (image_prompt transcription mood) in
  ∃ r,
    generateDreamImage generateContent transcription mood = Resolved r ∧
    (r = None ↔
       (∃ e, request = Rejected e)
       ∨ ∃ response, request = Resolved response
           ∧ Forall (λ p, inlineData p = None) (response_parts response)) ∧
    (∀ image, r = Some image →
       JS.truthy image = true ∧ JS.startsWith image "data:" = true ∧
       ∃ response ps1 p ps2 d,
         request = Resolved response ∧
         response_parts response = ps1 ++ p :: ps2 ∧
         Forall (λ p, inlineData p = None) ps1 ∧ inlineData p = Some d ∧
         image = "data:" +:+ JS.template (mimeType d) +:+ ";base64,"
                 +:+ JS.template (data d)).
Proof.
  intros request. unfold generateDreamImage. fold request.
  destruct request as [response|e]; cbn [bind try_catch].
  - eexists. split; [reflexivity|]. split.
    + rewrite first_inline_image_None. split.
      * intros Hall. right. by exists response.
      * intros [[e [=]]|(r' & [= <-] & Hall)]. done.
    + intros image (ps1 & p & ps2 & d & Hps & Hall & Hp & ->)%first_inline_image_Some.
      split; [reflexivity|]. split; [apply startsWith_spec; by eexists|].
      by exists response, ps1, p, ps2, d.
  - exists None. split; [done|]. split; [|done].
    split; [|done]. intros _. left. by exists e.
Qed.


End OtherServices.

(** ** [cleanBase64] *)

Section CleanBase64.
Import GeminiService.
Implicit Types (s p r w rest : string).

Lemma strip_prefix_app p s : JS.strip_prefix p (p +:+ s) = Some s.
Proof.
  induction p as [|c p IH]; [done|]. rewrite app_String. cbn [JS.strip_prefix].
  by rewrite Ascii.eqb_refl.
Qed.

Lemma strip_prefix_Some p s r : JS.strip_prefix p s = Some r → s = p +:+ r.
Proof.
  revert s. induction p as [|c p IH]; intros s; cbn [JS.strip_prefix].
  - by intros [= ->].
  - destruct s as [|b s]; [done|].
    destruct (Ascii.eqb_spec c b) as [->|]; [|done].
    intros ->%IH. by rewrite app_String.
Qed.

Lemma skip_word_chars_split s :
  ∃ w, is_word w = true ∧ s = w +:+ skip_word_chars s.
Proof.
  induction s as [|c s (w & Hw & IH)]; [by exists ""|].
  cbn [skip_word_chars]. destruct (is_word_char c) eqn:Hc.
  - exists (String c w). split; [cbn; by rewrite Hc|].
    rewrite app_String. by rewrite <- IH.
  - by exists "".
Qed.

Lemma skip_word_chars_app w c rest :
  is_word w = true → is_word_char c = false →
  skip_word_chars (w +:+ String c rest) = String c rest.
Proof.
  intros Hw Hc. induction w as [|b w IH].
  - rewrite app_empty_l. cbn. by rewrite Hc.
  - cbn in Hw. apply andb_true_iff in Hw as [Hb Hw].
    rewrite app_String. cbn [skip_word_chars]. rewrite Hb. by apply IH.
Qed.

(** X8. [cleanBase64] removes exactly a prefix of the form [data:audio/],
    one or more word characters, [;base64,]: a text with such a prefix loses
    it, and every other text is returned as it is. *)
Theorem cleanBase64_spec :
  (∀ w rest, is_word w = true → w ≠ "" →
     cleanBase64 ("data:audio/" +:+ w +:+ ";base64," +:+ rest) = rest) ∧
  (∀ b64,
     cleanBase64 b64 = b64
     ∨ ∃ w, is_word w = true ∧ w ≠ ""
            ∧ b64 = "data:audio/" +:+ w +:+ ";base64," +:+ cleanBase64 b64).
Proof.
  split.
  - intros w rest Hw Hne. unfold cleanBase64. rewrite strip_prefix_app.
    destruct w as [|c w]; [done|]. cbn in Hw.
    apply andb_true_iff in Hw as [Hc Hw]. rewrite app_String, Hc.
    change (";base64," +:+ rest) with (String ";" ("base64," +:+ rest)).
    rewrite skip_word_chars_app by done.
    change (String ";" ("base64," +:+ rest)) with (";base64," +:+ rest).
    by rewrite strip_prefix_app.
  - intros b64. unfold cleanBase64.
    destruct (JS.strip_prefix "data:audio/" b64) as [[|c r]|] eqn:Hdata;
      [by left| |by left].
    destruct (is_word_char c) eqn:Hc; [|by left].
    destruct (JS.strip_prefix ";base64," (skip_word_chars r)) as [rest|] eqn:Hb;
      [|by left].
    right. destruct (skip_word_chars_split r) as (w & Hw & Hr).
    exists (String c w). split; [cbn; by rewrite Hc|]. split; [done|].
    apply strip_prefix_Some in Hdata. apply strip_prefix_Some in Hb.
    rewrite Hdata, app_String. do 2 f_equal. rewrite Hr at 1.
    by rewrite Hb.
Qed.
End CleanBase64.

(** ** How updates of the store compose *)

Section UpdatesCompose.
Import GeminiService.
Implicit Types (u d nd : DreamEntry) (prev : list DreamEntry)
  (analysis : JSON.members) (store : list JSON.members).

(** An update by id undoes whatever was done before to the entries with
    that id and to no others. *)
Lemma handleUpdateDream_after_map u (g : DreamEntry → DreamEntry) prev :
  (∀ d, id (g d) = id d) → (∀ d, id d ≠ id u → g d = d) →
  App.handleUpdateDream u (List.map g prev) = App.handleUpdateDream u prev.
Proof.
  intros Hid Hother. unfold App.handleUpdateDream, same_id, DreamEntry_same_id.
  rewrite List.map_map. apply List.map_ext. intros d. rewrite Hid.
  destruct (String.eqb_spec (id d) (id u)); [done|]. by apply Hother.
Qed.

Lemma handleUpdateDream_overwrites u1 u2 prev :
  id u1 = id u2 →
  App.handleUpdateDream u2 (App.handleUpdateDream u1 prev)
  = App.handleUpdateDream u2 prev.
Proof.
  intros Heq. apply handleUpdateDream_after_map.
  - intros d. unfold same_id, DreamEntry_same_id.
    destruct (String.eqb_spec (id d) (id u1)); congruence.
  - intros d Hne. unfold same_id, DreamEntry_same_id.
    destruct (String.eqb_spec (id d) (id u1)); congruence.
Qed.

Lemma get_id_entry_props d : JSON.get "id" (entry_props d) = Some (JSON.Str (id d)).
Proof. reflexivity. Qed.

(** On the objects of the store: an update by id undoes the completion of
    a recording with that id whose analysis has no property [id]. *)
Lemma handleUpdateDream_overwrites_completion u nd analysis store :
  id nd = id u → JSON.get "id" analysis = None →
  App.handleUpdateDream (entry_props u) (App.complete_dream nd analysis store)
  = App.handleUpdateDream (entry_props u) store.
Proof.
  intros Heq Hnone.
  unfold App.complete_dream, App.autoTranscribe, App.handleUpdateDream.
  rewrite List.map_map. apply List.map_ext. intros o.
  unfold same_id, members_same_id. rewrite get_id_entry_props.
  destruct (App.is_newDream nd o) eqn:Hnew; [|done].
  rewrite get_id_with_analysis by done.
  apply is_newDream_spec in Hnew. rewrite Hnew, Heq. cbn [JSON.strict_eq].
  by rewrite String.eqb_refl.
Qed.

(** On the objects of the store: an update by id and the completion of a
    recording with another id, whose analysis has no property [id], give
    the same store in either order. *)
Lemma handleUpdateDream_complete_dream_commute u nd analysis store :
  id nd ≠ id u → JSON.get "id" analysis = None →
  App.handleUpdateDream (entry_props u) (App.complete_dream nd analysis store)
  = App.complete_dream nd analysis (App.handleUpdateDream (entry_props u) store).
Proof.
  intros Hne Hnone.
  unfold App.complete_dream, App.autoTranscribe, App.handleUpdateDream.
  rewrite !List.map_map. apply List.map_ext. intros o.
  unfold same_id, members_same_id. rewrite get_id_entry_props.
  assert (App.is_newDream nd (entry_props u) = false) as Hu.
  { apply not_true_is_false. intros H%is_newDream_spec.
    rewrite get_id_entry_props in H. congruence. }
  destruct (App.is_newDream nd o) eqn:Hnew.
  - rewrite get_id_with_analysis by done.
    pose proof Hnew as Hid. apply is_newDream_spec in Hid. rewrite Hid.
    cbn [JSON.strict_eq].
    rewrite (proj2 (String.eqb_neq _ _) Hne). by rewrite Hnew.
  - destruct (JSON.strict_eq (JSON.get "id" o) (Some (JSON.Str (id u))));
      [by rewrite Hu|by rewrite Hnew].
Qed.

(** X9. The last update of an entry wins. The image handler updates with
    the entry of the render in which the button was pressed: the entry
    [u] with the id, the tags and the pending flag that the card had at
    the press, the transcription of the text area and the image. So when
    the image arrives, an update of the same entry made in the meantime (a
    tag added or removed, an edited text) is undone: the store is as if
    that update had never happened, and the entries with that id carry the
    tags the card had at the press. On the objects of the store, the same
    holds of the completion of a recording with that id whose analysis has
    no property [id]. *)
Theorem image_update_discards_earlier_update
    (generateContent : string → outcome ImageResponse)
    (dream : DreamEntry) (editedTranscription : string)
    (update : list DreamEntry → list DreamEntry) :
  DreamCard.handleGenerateImage (Some App.handleUpdateDream) dream
    (generateDreamImage generateContent) editedTranscription
  = Resolved (Updated update) →
  (∀ u prev, id u = id dream →
     update (App.handleUpdateDream u prev) = update prev) ∧
  (∀ prev, Forall (λ d, id d = id dream →
                        tags d = tags dream
                        ∧ transcription d = editedTranscription
                        ∧ isProcessing d = isProcessing dream)
             (update prev)) ∧
  (∃ u, update = App.handleUpdateDream u ∧
        id u = id dream ∧ tags u = tags dream ∧
        transcription u = editedTranscription ∧
        isProcessing u = isProcessing dream ∧
        (∃ image, generatedImage u = Some image ∧ image ≠ "") ∧
        ∀ nd analysis store,
          id nd = id dream → JSON.get "id" analysis = None →
          App.handleUpdateDream (entry_props u)
            (App.complete_dream nd analysis store)
          = App.handleUpdateDream (entry_props u) store).
Proof.
  unfold DreamCard.handleGenerateImage.
  destruct (generateDreamImage generateContent editedTranscription (mood dream))
    as [[image|]|e]; cbn [bind]; [|done..].
  destruct (JS.truthy image) eqn:Himage; [|done]. intros [= <-].
  split; [|split].
  - intros u prev Hu. by apply handleUpdateDream_overwrites.
  - intros prev. apply Forall_lookup. intros i d Hi.
    rewrite handleUpdateDream_lookup in Hi.
    destruct (prev !! i) as [d0|]; [|done]. cbn in Hi. injection Hi as <-.
    destruct (String.eqb_spec (id d0) (id dream)); [done|]. by intros ?.
  - exists (with_image dream editedTranscription image).
    split; [done|]. do 4 (split; [done|]). split.
    + exists image. split; [done|]. by apply truthy_nonempty.
    + intros nd analysis store Hnd Hnone.
      by apply handleUpdateDream_overwrites_completion.
Qed.

(** X10. Updates of different entries do not interfere: two updates by id
    with different ids give the same store in either order; and on the
    objects of the store, so do an update by id and the completion of a
    recording with another id whose analysis has no property [id]. *)
Theorem updates_of_different_ids_commute u1 u2 prev :
  id u1 ≠ id u2 →
  App.handleUpdateDream u1 (App.handleUpdateDream u2 prev)
  = App.handleUpdateDream u2 (App.handleUpdateDream u1 prev) ∧
  (∀ analysis store,
     JSON.get "id" analysis = None →
     App.handleUpdateDream (entry_props u1) (App.complete_dream u2 analysis store)
     = App.complete_dream u2 analysis
         (App.handleUpdateDream (entry_props u1) store)).
Proof.
  intros Hne. split.
  - unfold App.handleUpdateDream, same_id, DreamEntry_same_id.
    rewrite !List.map_map; apply List.map_ext; intros d;
      destruct (String.eqb_spec (id d) (id u1)) as [H1|H1];
      destruct (String.eqb_spec (id d) (id u2)) as [H2|H2];
      repeat match goal with
        | |- context [String.eqb ?x ?y] => destruct (String.eqb_spec x y)
        end; congruence.
  - intros analysis store Hnone.
    apply handleUpdateDream_complete_dream_commute; [congruence|done].
Qed.
End UpdatesCompose.

(** ** The interpretation workflow *)

Section Oracle.
Import GeminiService.
Implicit Types (d : DreamEntry) (dreams : list DreamEntry)
  (sel : list string) (st : App.OracleState).

Lemma selectedDreams_filter dreams sel :
  App.selectedDreams dreams sel = filter (λ d, id d ∈ sel) dreams.
Proof.
  unfold App.selectedDreams. apply List_filter_stdpp.
  intros d. apply array_includes_spec.
Qed.

Lemma interpretDreams_resolves (toLocaleDateString : JS.number → string)
    (generateContent : string → outcome GenerateContentResponse) dreams :
  ∃ result,
    interpretDreams toLocaleDateString generateContent dreams = Resolved result
    ∧ result ≠ "".
Proof.
  unfold interpretDreams.
  destruct (generateContent _) as [[[[|c t]|]]|e];
    cbn [bind try_catch text JS.or_else JS.truthy]; by eexists.
Qed.

(** X11. The dreams sent for interpretation are the entries of the store
    whose id is selected, in the order of the store: the order of the
    clicks that selected them plays no part. *)
Theorem selectedDreams_in_store_order dreams sel :
  App.selectedDreams dreams sel `sublist_of` dreams ∧
  (∀ d, d ∈ App.selectedDreams dreams sel ↔ d ∈ dreams ∧ id d ∈ sel) ∧
  (∀ sel', (∀ x, x ∈ sel ↔ x ∈ sel') →
           App.selectedDreams dreams sel' = App.selectedDreams dreams sel).
Proof.
  rewrite selectedDreams_filter. split; [apply sublist_filter|].
  split; [intros d; rewrite list_elem_of_filter; tauto|].
  intros sel' Hsame. rewrite selectedDreams_filter.
  apply list_filter_iff. intros d. symmetry. apply Hsame.
Qed.

(** X12. With the service of this program, the interpretation handler does
    nothing on an empty selection; on any other it ends with the busy flag
    down and a result that the view shows, whatever the service answered.
    The selection is kept in both cases. *)
Theorem handleInterpretSelected_done (toLocaleDateString : JS.number → string)
    (generateContent : string → outcome GenerateContentResponse) dreams st :
  let st' :=
    App.handleInterpretSelected
      (interpretDreams toLocaleDateString generateContent) dreams st in
  App.selectedDreamIds st' = App.selectedDreamIds st ∧
  (App.selectedDreamIds st = [] → st' = st) ∧
  (App.selectedDreamIds st ≠ [] →
   App.isInterpreting st' = false ∧ App.shows_result st' = true ∧
   App.interpretationResult st'
   = match interpretDreams toLocaleDateString generateContent
             (App.selectedDreams dreams (App.selectedDreamIds st)) with
     | Resolved r => Some r
     | Rejected _ => None
     end).
Proof.
  intros st'. subst st'. unfold App.handleInterpretSelected.
  destruct (App.selectedDreamIds st) as [|x sel] eqn:Hsel; cbn [length Nat.eqb].
  - by rewrite Hsel.
  - destruct (interpretDreams_resolves toLocaleDateString generateContent
                (App.selectedDreams dreams (x :: sel))) as (r & -> & Hr).
    cbn. split; [done|]. split; [done|]. intros _.
    split; [done|]. split; [|done]. by destruct r.
Qed.

Lemma ui_run_snoc es e s :
  App.ui_run (es ++ [e]) s = App.ui_step (App.ui_run es s) e.
Proof. unfold App.ui_run. by rewrite fold_left_app. Qed.

(** The invariant of the selection: no id twice, every id that of an entry
    of the store. *)
Lemma ui_step_selection s e :
  keeps_store_ids e →
  NoDup (snd s) ∧ snd s ⊆ id <$> fst s →
  NoDup (snd (App.ui_step s e))
  ∧ snd (App.ui_step s e) ⊆ id <$> fst (App.ui_step s e).
Proof.
  intros He [Hnd Hsub]. destruct e as [update|row]; cbn [App.ui_step].
  - cbn [fst snd]. split; [done|]. intros x Hx. by apply He, Hsub.
  - destruct (fst s !! row) as [dream|] eqn:Hrow; [|done]. cbn [fst snd].
    split; [by apply toggle_NoDup|].
    intros y Hy. apply toggle_elem_of in Hy. case_decide as Heq.
    + subst y. apply list_elem_of_fmap. exists dream.
      split; [done|]. by eapply list_elem_of_lookup_2.
    + by apply Hsub.
Qed.

Lemma ids_typed_handleUpdateDream (u : DreamEntry) (prev : list DreamEntry) :
  id <$> App.handleUpdateDream u prev = id <$> prev.
Proof.
  unfold App.handleUpdateDream, same_id, DreamEntry_same_id.
  induction prev as [|d l IH]; [done|].
  cbn [List.map fmap list_fmap] in *. rewrite IH. f_equal.
  destruct (String.eqb_spec (id d) (id u)); congruence.
Qed.

(** X13. Through any series of clicks on rows and of state updates that
    take no id out of the store, the selection holds no id twice and only
    ids of entries of the store; so a selection that is not empty always
    gives the interpretation at least one dream. The insert of a recording
    and the update by id are such state updates. *)
Theorem selection_within_store es s :
  NoDup (snd s) → snd s ⊆ id <$> fst s → Forall keeps_store_ids es →
  let s' := App.ui_run es s in
  (NoDup (snd s') ∧ snd s' ⊆ id <$> fst s' ∧
   (snd s' ≠ [] → App.selectedDreams (fst s') (snd s') ≠ [])) ∧
  (∀ u, keeps_store_ids (App.StoreUpdated (App.handleUpdateDream u))) ∧
  (∀ newDream, keeps_store_ids (App.StoreUpdated (App.insert_dream newDream))).
Proof.
  intros Hnd Hsub Hes s'. subst s'. split.
  2:{ split.
      - intros u prev. by rewrite ids_typed_handleUpdateDream.
      - intros nd prev x Hx. unfold App.insert_dream. rewrite fmap_cons.
        by right. }
  assert (NoDup (snd (App.ui_run es s)) ∧
          snd (App.ui_run es s) ⊆ id <$> fst (App.ui_run es s)) as [Hnd' Hsub'].
  { induction es as [|e es IH] using rev_ind; [done|].
    apply Forall_app in Hes as [Hes He]. rewrite Forall_singleton in He.
    rewrite ui_run_snoc. apply ui_step_selection; auto. }
  split; [done|]. split; [done|].
  destruct (snd (App.ui_run es s)) as [|x sel] eqn:Hsel; [done|]. intros _.
  assert (x ∈ id <$> fst (App.ui_run es s)) as Hx by (apply Hsub'; by left).
  apply list_elem_of_fmap in Hx as (d & -> & Hd).
  intros Hnil.
  assert (d ∈ App.selectedDreams (fst (App.ui_run es s)) (id d :: sel)) as Hin.
  { rewrite selectedDreams_filter, list_elem_of_filter. split; [by left|done]. }
  rewrite Hnil in Hin. by apply elem_of_nil in Hin.
Qed.
End Oracle.

(** ** The list view: what is shown, and narrowing a search *)

Section ListScreens.
Variable toLowerCase : string → string.
Variable toLocaleDateString : JS.number → string.

Local Abbreviation keeps := (App.keeps toLowerCase toLocaleDateString).
Local Abbreviation filtered := (App.filtered toLowerCase toLocaleDateString).
Local Abbreviation groupedDreams :=
  (App.groupedDreams toLowerCase toLocaleDateString).
Local Abbreviation renderList := (App.renderList toLowerCase toLocaleDateString).

Lemma grouped_nil_iff (l : list DreamEntry) :
  App.grouped toLocaleDateString l = [] ↔ l = [].
Proof.
  split; [|by intros ->]. intros Hnil.
  destruct (grouped_inv toLocaleDateString l) as [_ _ _ _ _ Hperm].
  rewrite Hnil in Hperm. cbn in Hperm. symmetry in Hperm.
  by apply Permutation_nil_r in Hperm.
Qed.

Lemma length_eqb_0 {A} (l : list A) : (length l =? 0)%nat = true ↔ l = [].
Proof. destruct l; cbn; split; congruence. Qed.

(** X14. The list view shows the notice of the empty journal exactly when
    the store is empty, the notice that nothing was found exactly when the
    store is not empty and the filter keeps none of its entries, and the
    timeline of the groups otherwise. *)
Theorem renderList_cases dreams searchQuery :
  (renderList dreams searchQuery = App.VoidIsSilent ↔ dreams = []) ∧
  (renderList dreams searchQuery = App.NoDreamsFound ↔
   dreams ≠ [] ∧
   Forall (λ d, keeps (toLowerCase searchQuery) d = false) dreams) ∧
  (∀ groups, renderList dreams searchQuery = App.Timeline groups ↔
     groups = groupedDreams dreams searchQuery ∧
     Exists (λ d, keeps (toLowerCase searchQuery) d = true) dreams).
Proof.
  assert (filtered dreams searchQuery = [] ↔
          Forall (λ d, keeps (toLowerCase searchQuery) d = false) dreams) as Hnone.
  { unfold App.filtered. induction dreams as [|d l IH]; cbn.
    - split; [constructor|done].
    - destruct (keeps (toLowerCase searchQuery) d) eqn:Hd.
      + split; [done|]. intros H. inversion H; congruence.
      + rewrite IH. split; [by constructor|]. intros H. by inversion H. }
  assert (Exists (λ d, keeps (toLowerCase searchQuery) d = true) dreams ↔
          ¬ Forall (λ d, keeps (toLowerCase searchQuery) d = false) dreams) as Hsome.
  { clear Hnone. induction dreams as [|d l IH].
    - split; [by intros ?%Exists_nil|]. intros H. destruct H. constructor.
    - rewrite Exists_cons, Forall_cons, IH.
      destruct (keeps (toLowerCase searchQuery) d).
      + split; [|by left]. intros _ [? _]. done.
      + split.
        * intros [?|H] [_ HF]; [done|by apply H].
        * intros H. right. intros HF. by apply H. }
  unfold App.renderList, App.groupedDreams.
  destruct (length dreams =? 0)%nat eqn:Hlen.
  { apply length_eqb_0 in Hlen. subst dreams.
    split; [done|]. split; [split; [done|by intros [? _]]|].
    intros groups. split; [done|]. by intros [_ ?%Exists_nil]. }
  assert (dreams ≠ []) as Hne.
  { intros ->. discriminate. }
  destruct (length (App.grouped _ _) =? 0)%nat eqn:Hg.
  - apply length_eqb_0, grouped_nil_iff, Hnone in Hg.
    split; [split; [done|by intros ?]|]. split; [done|].
    intros groups. split; [done|]. intros [_ HE]. by apply Hsome in HE.
  - assert (¬ Forall (λ d, keeps (toLowerCase searchQuery) d = false) dreams) as HnF.
    { intros HF. apply Hnone, grouped_nil_iff in HF.
      rewrite HF in Hg. discriminate. }
    split; [split; [done|by intros ?]|].
    split; [split; [done|by intros [_ ?]]|].
    intros groups. split.
    + intros [= <-]. split; [done|]. by apply Hsome.
    + by intros [-> _].
Qed.

Lemma keeps_narrower q1 q2 d :
  is_substring q1 q2 → keeps q2 d = true → keeps q1 d = true.
Proof.
  intros Hsub. unfold App.keeps.
  destruct (JS.truthy q1) eqn:H1; [|done].
  destruct (JS.truthy q2) eqn:H2; cbn [negb].
  - rewrite !orb_true_iff, !includes_spec.
    intros [[H|H]|H]; eauto using is_substring_trans.
  - intros _. destruct q2; [|done].
    destruct Hsub as ([|? ?] & post & Heq); [|done].
    rewrite app_empty_l in Heq. destruct q1; [done|].
    rewrite app_String in Heq. discriminate.
Qed.

Lemma List_filter_narrower {A} (f g : A → bool) (l : list A) :
  (∀ x, f x = true → g x = true) →
  List.filter f (List.filter g l) = List.filter f l.
Proof.
  intros Hfg. induction l as [|x l IH]; [done|]. cbn.
  destruct (g x) eqn:Hg; cbn.
  - by rewrite IH.
  - destruct (f x) eqn:Hf; [|done]. apply Hfg in Hf. congruence.
Qed.

(** X15. Narrowing a search only removes entries: when the lower-cased
    form of one query occurs in the lower-cased form of another, the longer
    query keeps a sublist of what the shorter one keeps, namely what it
    keeps of the shorter one's result. *)
Theorem filtered_narrower dreams q1 q2 :
  is_substring (toLowerCase q1) (toLowerCase q2) →
  filtered dreams q2 = filtered (filtered dreams q1) q2 ∧
  filtered dreams q2 `sublist_of` filtered dreams q1.
Proof.
  intros Hsub.
  assert (filtered dreams q2 = filtered (filtered dreams q1) q2) as Heq.
  { unfold App.filtered. symmetry. apply List_filter_narrower.
    intros d. by apply keeps_narrower. }
  split; [done|]. rewrite Heq. unfold App.filtered at 1.
  rewrite (List_filter_stdpp _ (λ d, keeps (toLowerCase q2) d = true))
    by done.
  apply sublist_filter.
Qed.
End ListScreens.

(** ** src/components/RecorderButton.tsx *)

Section FormatTime.
Import RecorderButton.
Open Scope Z_scope.

Lemma two_digits_table :
  forallb (λ n, let r := Z.of_nat n in
                String.eqb (JS.padStart (JS.toString r) 2 "0")
                  (String (decimal_digit (r / 10))
                     (String (decimal_digit (r mod 10)) "")))
    (seq 0 60) = true.
Proof. vm_compute. reflexivity. Qed.

Lemma two_digits r :
  0 ≤ r < 60 →
  JS.padStart (JS.toString r) 2 "0"
  = String (decimal_digit (r / 10)) (String (decimal_digit (r mod 10)) "").
Proof.
  intros Hr. pose proof two_digits_table as Htable.
  rewrite forallb_forall in Htable.
  specialize (Htable (Z.to_nat r)). cbv zeta in Htable.
  rewrite Z2Nat.id in Htable by lia.
  apply String.eqb_eq, Htable, in_seq. lia.
Qed.

Lemma decimal_digit_inj j k :
  0 ≤ j < 10 → 0 ≤ k < 10 → decimal_digit j = decimal_digit k → j = k.
Proof.
  intros Hj Hk Heq. unfold decimal_digit in Heq.
  apply (f_equal N_of_ascii) in Heq.
  rewrite !N_ascii_embedding in Heq by lia. lia.
Qed.

Lemma string_app_inj s s' t t' :
  String.length s = String.length s' → s +:+ t = s' +:+ t' → s = s' ∧ t = t'.
Proof.
  revert s'. induction s as [|c s IH]; intros [|c' s'] Hlen Heq;
    try discriminate.
  - by rewrite !app_empty_l in Heq.
  - rewrite !app_String in Heq. injection Heq as -> Heq.
    injection Hlen as Hlen. destruct (IH s' Hlen Heq) as [-> ->]. done.
Qed.

Lemma formatTime_shape seconds :
  0 ≤ seconds →
  formatTime seconds
  = JS.toString (seconds / 60) +:+ ":"
    +:+ String (decimal_digit (seconds mod 60 / 10))
          (String (decimal_digit (seconds mod 60 mod 10)) "").
Proof.
  intros Hs. unfold formatTime. cbv zeta.
  rewrite Z.rem_mod_nonneg by lia.
  rewrite two_digits by (apply Z.mod_pos_bound; lia). done.
Qed.

(** X16. For a duration that is not negative, [formatTime] prints the whole
    minutes, a colon and the remaining seconds in exactly two digits; two
    different durations are never printed alike. *)
Theorem formatTime_spec :
  (∀ seconds, 0 ≤ seconds →
     formatTime seconds
     = JS.toString (seconds / 60) +:+ ":"
       +:+ String (decimal_digit (seconds mod 60 / 10))
             (String (decimal_digit (seconds mod 60 mod 10)) "")) ∧
  (∀ a b, 0 ≤ a → 0 ≤ b → formatTime a = formatTime b → a = b).
Proof.
  split; [exact formatTime_shape|].
  intros a b Ha Hb Heq. rewrite !formatTime_shape in Heq by done.
  rewrite <- !string_app_assoc in Heq.
  pose proof (f_equal String.length Heq) as Hlen.
  rewrite !length_app_string in Hlen. cbn [String.length] in Hlen.
  apply string_app_inj in Heq as [Hmin Hsec];
    [|rewrite !length_app_string; cbn [String.length]; lia].
  apply string_app_inj in Hmin as [Hmin _];
    [|lia].
  apply (inj pretty) in Hmin.
  injection Hsec as H1 H2.
  pose proof (Z.mod_pos_bound a 60 ltac:(lia)).
  pose proof (Z.mod_pos_bound b 60 ltac:(lia)).
  apply decimal_digit_inj in H1;
    [|split; [apply Z.div_pos; lia|apply Z.div_lt_upper_bound; lia]..].
  apply decimal_digit_inj in H2; [|apply Z.mod_pos_bound; lia..].
  rewrite (Z.div_mod a 60), (Z.div_mod b 60) by lia.
  rewrite (Z.div_mod (a mod 60) 10), (Z.div_mod (b mod 60) 10) by lia.
  congruence.
Qed.
End FormatTime.

Section Recorder.
Import RecorderButton.
Implicit Types (st s : State) (e : Event) (es body tail : list Event).

Lemma recorder_run_app es es' st : run (es ++ es') st = run es' (run es st).
Proof. unfold run. by rewrite fold_left_app. Qed.

Lemma recorder_run_snoc es e st : run (es ++ [e]) st = fst (step (run es st) e).
Proof. by rewrite recorder_run_app. Qed.

Lemma recorded_snoc es e : recorded (es ++ [e]) = recorded es ++ recorded [e].
Proof. unfold recorded. by rewrite omap_app. Qed.

Lemma ticks_snoc timer es e : ticks timer (es ++ [e]) = (ticks timer es + ticks timer [e])%nat.
Proof. unfold ticks. by rewrite List.filter_app, length_app. Qed.

(** While a recording started from rest is in progress. *)
Lemma capture_inv st body :
  idle st → forallb is_capture body = true →
  let s := run body (start_granted st) in
  isRecording s = true ∧ mediaRecorderRef s = Some (next_handle st) ∧
  timerRef s = Some (Pos.succ (next_handle st)) ∧
  intervals s = [Pos.succ (next_handle st)] ∧
  recorders s = [next_handle st] ∧
  duration s = Z.of_nat (ticks (Pos.succ (next_handle st)) body) ∧
  chunksRef s = recorded body.
Proof.
  intros (_ & _ & Hint & Hrec) Hbody. cbv zeta.
  induction body as [|e body IH] using rev_ind.
  - cbn. by rewrite Hint, Hrec.
  - rewrite forallb_app in Hbody. apply andb_true_iff in Hbody as [Hbody He].
    destruct (IH Hbody) as (Hr & Hm & Ht & Hi & Hrs & Hd & Hc).
    rewrite recorder_run_snoc, recorded_snoc, ticks_snoc.
    destruct e as [| |data|timer| |]; try discriminate; cbn [step fst].
    + unfold ondataavailable. cbn [recorded omap ticks List.filter length].
      destruct data; cbn; rewrite ?app_nil_r, ?Nat.add_0_r; by rewrite ?Hc.
    + unfold tick. rewrite Hi. cbn [recorded omap ticks List.filter].
      rewrite app_nil_r. destruct (Pos.eqb_spec timer (Pos.succ (next_handle st))) as [->|Hne].
      * rewrite bool_decide_eq_true_2 by (by left). cbn.
        repeat split; try done. rewrite Hd, Pos.eqb_refl. cbn [length]. lia.
      * rewrite bool_decide_eq_false_2
          by (by intros ->%list_elem_of_singleton).
        cbn. apply Pos.eqb_neq in Hne. rewrite Hne. cbn.
        rewrite Nat.add_0_r. done.
Qed.

(** After the stop, at rest. *)
Lemma rest_inv s tail :
  idle s → forallb is_capture tail = true →
  idle (run tail s) ∧ duration (run tail s) = duration s ∧
  chunksRef (run tail s) = chunksRef s ++ recorded tail.
Proof.
  intros Hidle Htail. induction tail as [|e tail IH] using rev_ind.
  - cbn. by rewrite app_nil_r.
  - rewrite forallb_app in Htail. apply andb_true_iff in Htail as [Htail He].
    destruct (IH Htail) as ((Hr & Ht & Hi & Hrs) & Hd & Hc).
    rewrite recorder_run_snoc, recorded_snoc.
    destruct e as [| |data|timer| |]; try discriminate; cbn [step fst].
    + unfold ondataavailable, idle. cbn [recorded omap].
      destruct data; cbn; rewrite ?app_nil_r, ?Hc, <- ?app_assoc; done.
    + unfold tick. rewrite Hi.
      rewrite bool_decide_eq_false_2 by apply not_elem_of_nil.
      cbn. by rewrite app_nil_r.
Qed.

(** X17. A recording from rest: after the microphone is granted and while
    data and ticks arrive the component is recording, and the duration it
    shows is the number of ticks of its own timer. Once stop is clicked it
    is at rest again, with no timer and no recorder left running, later
    ticks no longer count, and the recording handed over when the recorder
    stops is the data of positive size that arrived from the grant on, in
    order. *)
Theorem recording_session st body tail :
  idle st →
  forallb is_capture body = true → forallb is_capture tail = true →
  let timer := Pos.succ (next_handle st) in
  let recording := run (MicrophoneGranted :: body) st in
  let stopped := run (MicrophoneGranted :: body ++ StopClicked :: tail) st in
  isRecording recording = true ∧
  duration recording = Z.of_nat (ticks timer body) ∧
  idle stopped ∧
  duration stopped = duration recording ∧
  snd (step stopped RecorderStopped)
  = [RecordingComplete (String.concat "" (recorded (body ++ tail)))].
Proof.
  intros Hidle Hbody Htail timer recording stopped.
  subst timer recording stopped.
  change (run (MicrophoneGranted :: body) st) with (run body (start_granted st)).
  change (run (MicrophoneGranted :: body ++ StopClicked :: tail) st)
    with (run (body ++ StopClicked :: tail) (start_granted st)).
  destruct (capture_inv st body Hidle Hbody) as (Hr & Hm & Ht & Hi & Hrs & Hd & Hc).
  split; [done|]. split; [done|].
  rewrite recorder_run_app.
  change (run (StopClicked :: tail) ?s) with (run tail (stopRecording s)).
  set (s := run body (start_granted st)) in *.
  assert (idle (stopRecording s) ∧ duration (stopRecording s) = duration s
          ∧ chunksRef (stopRecording s) = chunksRef s) as (Hidle' & Hd' & Hc').
  { unfold stopRecording, idle. rewrite Hm, Hr, Ht, Hi, Hrs. cbn.
    by rewrite !Pos.eqb_refl. }
  destruct (rest_inv (stopRecording s) tail Hidle' Htail) as (Hrest & Hd'' & Hc'').
  split; [done|]. split; [congruence|].
  cbn [step snd]. unfold onstop. rewrite Hc'', Hc', Hc.
  unfold recorded. by rewrite omap_app.
Qed.

(** What holds for ever of the timer and the recorder of a start that was
    followed by another start before any stop. *)
Lemma leak_inv (timer recorder : positive) s e :
  (timer ∈ intervals s ∧ recorder ∈ recorders s ∧
   timerRef s ≠ Some timer ∧ mediaRecorderRef s ≠ Some recorder ∧
   (timer < next_handle s)%positive ∧ (recorder < next_handle s)%positive) →
  let s' := fst (step s e) in
  timer ∈ intervals s' ∧ recorder ∈ recorders s' ∧
  timerRef s' ≠ Some timer ∧ mediaRecorderRef s' ≠ Some recorder ∧
  (timer < next_handle s')%positive ∧ (recorder < next_handle s')%positive.
Proof.
  intros (Hi & Hr & Ht & Hm & Hlt & Hlr). cbv zeta.
  destruct e as [| |data|t| |]; cbn [step fst]; try done.
  - unfold start_granted. cbn.
    split; [by right|]. split; [by right|].
    split; [intros [= <-]; lia|]. split; [intros [= <-]; lia|]. lia.
  - unfold ondataavailable. by destruct (0 <? String.length data)%nat.
  - unfold tick. by destruct (bool_decide _).
  - unfold stopRecording. destruct (mediaRecorderRef s) as [r|] eqn:Hmr;
      [|by rewrite Hmr].
    destruct (isRecording s); [|by rewrite Hmr]. cbn.
    split.
    { destruct (timerRef s) as [t|]; [|done].
      apply list_elem_of_In, filter_In. split; [by apply list_elem_of_In|].
      apply negb_true_iff, Pos.eqb_neq. congruence. }
    split; [|done].
    apply list_elem_of_In, filter_In. split; [by apply list_elem_of_In|].
    apply negb_true_iff, Pos.eqb_neq. congruence.
Qed.

(** X18. A second start before any stop (the button is pressed twice while
    the permission for the microphone is pending) leaves the timer and the
    recorder of the first start running for good: whatever happens
    afterwards, no stop and no later start clears that timer or stops that
    recorder, and every tick of that timer is added to the duration of
    whichever recording is shown. *)
Theorem double_start_leaks st es :
  let recorder := next_handle st in
  let timer := Pos.succ (next_handle st) in
  let s := run (MicrophoneGranted :: MicrophoneGranted :: es) st in
  timer ∈ intervals s ∧ recorder ∈ recorders s ∧
  duration (fst (step s (Tick timer))) = (duration s + 1)%Z.
Proof.
  intros recorder timer s.
  assert (timer ∈ intervals s ∧ recorder ∈ recorders s ∧
          timerRef s ≠ Some timer ∧ mediaRecorderRef s ≠ Some recorder ∧
          (timer < next_handle s)%positive ∧ (recorder < next_handle s)%positive)
    as (Hi & Hr & _).
  { subst s.
    change (run (MicrophoneGranted :: MicrophoneGranted :: es) st)
      with (run es (start_granted (start_granted st))).
    induction es as [|e es IH] using rev_ind.
    - subst timer recorder. cbn.
      split; [right; by left|]. split; [right; by left|].
      split; [intros [= H]; lia|]. split; [intros [= H]; lia|]. lia.
    - rewrite recorder_run_snoc. by apply leak_inv. }
  split; [done|]. split; [done|].
  cbn [step fst]. unfold tick. by rewrite bool_decide_eq_true_2.
Qed.
End Recorder.

(** ** A recording from the response of the service to the store *)

Section EndToEnd.
Import GeminiService.
Variable generateContent : string → string → outcome GenerateContentResponse.
Variable JSON_parse : string → option JSON.value.
Implicit Types (l base source props : JSON.members) (key : string).

Lemma keys_replace_member key v l :
  fst <$> JSON.replace_member key v l = fst <$> l.
Proof.
  induction l as [|[k' v'] l IH]; [done|]. cbn [JSON.replace_member].
  destruct (String.eqb k' key); [done|]. by rewrite !fmap_cons, IH.
Qed.

(** Defining a property that is there leaves the names as they are. *)
Lemma keys_set_member key v l :
  key ∈ fst <$> l → fst <$> JSON.set_member key v l = fst <$> l.
Proof.
  intros Hin. unfold JSON.set_member.
  destruct (JSON.get key l) eqn:Hget; [apply keys_replace_member|].
  by apply get_None in Hget.
Qed.

Lemma keys_spread base source :
  Forall (λ kv, fst kv ∈ fst <$> base) source →
  fst <$> JSON.spread base source = fst <$> base.
Proof.
  induction source as [|[k v] source IH] using rev_ind; [done|].
  intros [Hsource Hk]%Forall_app. rewrite Forall_singleton in Hk.
  rewrite spread_snoc, keys_set_member; rewrite IH; done.
Qed.

(** Two objects with the same names in the same order and the same value
    under every name are the same. *)
Lemma members_ext l1 l2 :
  fst <$> l1 = fst <$> l2 → NoDup (fst <$> l1) →
  (∀ key, JSON.get key l1 = JSON.get key l2) → l1 = l2.
Proof.
  revert l2. induction l1 as [|[k1 v1] l1 IH]; intros [|[k2 v2] l2]; try done.
  rewrite !fmap_cons. cbn [fst]. intros [= <- Hkeys] [Hk Hnd]%NoDup_cons Hget.
  pose proof (Hget k1) as Hhead. cbn [JSON.get] in Hhead.
  rewrite String.eqb_refl in Hhead. injection Hhead as <-.
  f_equal. apply IH; [done|done|]. intros key.
  destruct (String.eqb_spec k1 key) as [<-|Hne].
  - assert (JSON.get k1 l1 = None) as -> by (by apply get_None).
    symmetry. apply get_None. by rewrite <- Hkeys.
  - specialize (Hget key). cbn [JSON.get] in Hget.
    by rewrite (proj2 (String.eqb_neq _ _) Hne) in Hget.
Qed.

Lemma get_Permutation key l1 l2 :
  NoDup (fst <$> l1) → l1 ≡ₚ l2 → JSON.get key l1 = JSON.get key l2.
Proof.
  intros Hnd Hperm.
  assert (NoDup (fst <$> l2)) as Hnd2 by (by rewrite <- Hperm).
  destruct (JSON.get key l2) as [v|] eqn:Hget.
  - apply get_Some_NoDup; [done|]. rewrite Hperm. by apply get_Some_NoDup in Hget.
  - apply get_None. apply get_None in Hget. by rewrite Hperm.
Qed.

(** The entry of a recording once an analysis with the four properties
    of the schema, in whatever order, is spread over it. *)
Lemma with_analysis_declared (now_id now_timestamp : Z) (base64Audio : string)
    props (tr tg md sc : JSON.value) :
  props ≡ₚ [("transcription", tr); ("tags", tg); ("mood", md);
            ("lucidityScore", sc)] →
  App.with_analysis
    (entry_props (App.newDream now_id now_timestamp base64Audio)) props
  = [("id", JSON.Str (JS.toString now_id));
     ("timestamp", JSON.Num (JS.Int now_timestamp));
     ("audioBase64", JSON.Str base64Audio);
     ("transcription", tr); ("tags", tg); ("mood", md);
     ("lucidityScore", sc); ("isProcessing", JSON.Bool false)].
Proof.
  intros Hperm.
  set (entry := entry_props (App.newDream now_id now_timestamp base64Audio)).
  assert (NoDup (fst <$> props)) as Hnd.
  { rewrite Hperm. apply (bool_decide_unpack _). vm_compute. exact I. }
  assert (fst <$> JSON.spread entry props = fst <$> entry) as Hkeys.
  { apply keys_spread. rewrite Hperm.
    repeat constructor; apply (bool_decide_unpack _); vm_compute; exact I. }
  apply members_ext.
  - unfold App.with_analysis. rewrite keys_set_member; rewrite Hkeys; [done|].
    apply (bool_decide_unpack _). vm_compute. exact I.
  - unfold App.with_analysis. rewrite keys_set_member; rewrite Hkeys.
    + apply (bool_decide_unpack _). vm_compute. exact I.
    + apply (bool_decide_unpack _). vm_compute. exact I.
  - intros key. rewrite get_with_analysis, get_reverse by done.
    rewrite (get_Permutation key _ _ Hnd Hperm).
    subst entry. unfold entry_props, App.newDream.
    cbn [id timestamp audioBase64 transcription tags mood lucidityScore
         isProcessing generatedImage optional_member app fmap list_fmap JSON.get].
    repeat match goal with
      | |- context [String.eqb ?k key] =>
          destruct (String.eqb_spec k key) as [<-|?]; [reflexivity|]
      end.
    reflexivity.
Qed.

End EndToEnd.
(** ** What the store leaves alone *)

Section Frames.
Import GeminiService.

Lemma localStorage_save_effect within_quota st (key : string) :
  key ≠ "dream_journal" →
  App.st_localStorage (App.save_effect within_quota st) !! key
  = App.st_localStorage st !! key.
Proof.
  intros Hkey. unfold App.save_effect, App.setItem.
  destruct (within_quota _); cbn [App.st_localStorage]; [|done].
  by rewrite lookup_insert_ne.
Qed.

Lemma localStorage_step within_quota st e (key : string) :
  key ≠ "dream_journal" →
  App.st_localStorage (App.step within_quota st e) !! key
  = App.st_localStorage st !! key.
Proof.
  intros Hkey. unfold App.step. destruct (App.st_mounted st); [|done].
  destruct e as [m|]; [done|].
  destruct (App.st_unsaved st); [by apply localStorage_save_effect|done].
Qed.

(** X20. The application writes to one key of the local storage only:
    mounting on a storage and any series of state updates and effects
    afterwards leave the value of every other key as it was, whatever was
    loaded and whatever the quota. *)
Theorem other_keys_untouched (within_quota : gmap string string → bool)
    (localStorage : gmap string string) (loaded : option (list JSON.members))
    (es : list App.Event) (key : string) :
  key ≠ "dream_journal" →
  App.st_localStorage
    (App.run within_quota es (App.mount within_quota localStorage loaded)) !! key
  = localStorage !! key.
Proof.
  intros Hkey. induction es as [|e es IH] using rev_ind.
  - unfold App.run, App.mount. cbn [fold_left]. cbv zeta.
    destruct loaded as [dreams|].
    + destruct (App.st_mounted _); cbn [App.st_localStorage];
        by rewrite localStorage_save_effect.
    + by rewrite localStorage_save_effect.
  - rewrite run_snoc. by rewrite localStorage_step.
Qed.

(** X21. What a card hands to its callback is always the entry it shows
    with other tags, another transcription or an image: the id, the time
    stamp, the audio, the mood, the score and the pending flag are those
    of the shown entry. Without a callback no handler does anything. *)
Theorem card_updates_keep_identity {R} (f : DreamEntry → R)
    (dream : DreamEntry) (input : string)
    (generateDreamImage : string → string → outcome (option string)) (r : R) :
  DreamCard.addTag (Some f) dream input = Some r
  ∨ DreamCard.removeTag (Some f) dream input = Some r
  ∨ DreamCard.handleTranscriptionBlur (Some f) dream input = Some r
  ∨ DreamCard.handleGenerateImage (Some f) dream generateDreamImage input
    = Resolved (Updated r) →
  (∃ u, r = f u ∧ id u = id dream ∧ timestamp u = timestamp dream ∧
        audioBase64 u = audioBase64 dream ∧ mood u = mood dream ∧
        lucidityScore u = lucidityScore dream ∧
        isProcessing u = isProcessing dream) ∧
  DreamCard.addTag (R:=R) None dream input = None ∧
  DreamCard.removeTag (R:=R) None dream input = None ∧
  DreamCard.handleTranscriptionBlur (R:=R) None dream input = None ∧
  DreamCard.handleGenerateImage (R:=R) None dream generateDreamImage input
  = Resolved NoEffect.
Proof.
  intros Hr. split; [|done].
  destruct Hr as [Hr|[Hr|[Hr|Hr]]].
  - unfold DreamCard.addTag in Hr.
    destruct (JS.truthy (JS.trim input)); [|done].
    injection Hr as <-. by eexists.
  - unfold DreamCard.removeTag in Hr. injection Hr as <-. by eexists.
  - unfold DreamCard.handleTranscriptionBlur in Hr.
    destruct (negb _); [|done]. injection Hr as <-. by eexists.
  - unfold DreamCard.handleGenerateImage in Hr.
    destruct (generateDreamImage input (mood dream)) as [[image|]|e];
      cbn [bind] in Hr; [|done..].
    destruct (JS.truthy image); [|done]. injection Hr as <-. by eexists.
Qed.
End Frames.

(** ** The further theorems at concrete inputs *)

Lemma toggleDreamSelection_twice_witness :
  NoDup ["a"; "b"] ∧
  App.toggleDreamSelection "b" (App.toggleDreamSelection "b" ["a"; "b"])
  ≡ₚ ["a"; "b"].
Proof.
  assert (NoDup ["a"; "b"]) as Hnd.
  { apply (bool_decide_unpack _). vm_compute. exact I. }
  split; [exact Hnd|].
  exact (proj2 (proj2 (toggleDreamSelection_twice "b" ["a"; "b"] Hnd))).
Defined.

Lemma interpret_contents_quotes_witness :
  Sample.chased ∈ Sample.dreams ∧
  is_substring "Chased by a dog"
    (GeminiService.interpret_contents Host.toLocaleDateString Sample.dreams).
Proof.
  assert (Sample.chased ∈ Sample.dreams) as Hd.
  { unfold Sample.dreams. right. left. }
  split; [exact Hd|].
  exact (proj2 (proj2 (proj2
           (interpret_contents_quotes Host.toLocaleDateString Sample.dreams
              Sample.chased Hd)))).
Defined.

Lemma cleanBase64_spec_witness :
  is_word "webm" = true ∧ "webm" ≠ "" ∧
  GeminiService.cleanBase64 "data:audio/webm;base64,QUJD" = "QUJD".
Proof.
  split; [reflexivity|]. split; [discriminate|].
  apply (proj1 cleanBase64_spec "webm" "QUJD"); [reflexivity|discriminate].
Defined.

Lemma image_update_discards_earlier_update_witness :
  let u := with_image Sample.flying "Flying over the sea"
             "data:image/png;base64,iVBOR" in
  let update := App.handleUpdateDream u in
  DreamCard.handleGenerateImage (Some App.handleUpdateDream) Sample.flying
    (GeminiService.generateDreamImage (λ _, GeminiService.Resolved Sample.painted))
    "Flying over the sea"
  = GeminiService.Resolved (Updated update) ∧
  update (App.handleUpdateDream (with_tags Sample.flying ["Sea"]) Sample.dreams)
  = update Sample.dreams ∧
  (id Sample.flying = id Sample.flying →
   JSON.get "id" Sample.analysis = None →
   App.handleUpdateDream (entry_props u)
     (App.complete_dream Sample.flying Sample.analysis Sample.store)
   = App.handleUpdateDream (entry_props u) Sample.store).
Proof.
  intros u update.
  assert (DreamCard.handleGenerateImage (Some App.handleUpdateDream) Sample.flying
            (GeminiService.generateDreamImage
               (λ _, GeminiService.Resolved Sample.painted))
            "Flying over the sea"
          = GeminiService.Resolved (Updated update)) as Hpress.
  { reflexivity. }
  split; [exact Hpress|]. split.
  - apply (proj1 (image_update_discards_earlier_update _ _ _ _ Hpress)).
    reflexivity.
  - intros _ _. vm_compute. reflexivity.
Defined.

Lemma updates_of_different_ids_commute_witness :
  let u1 := with_tags Sample.flying ["Sea"] in
  let u2 := with_tags Sample.chased [] in
  id u1 ≠ id u2 ∧
  App.handleUpdateDream u1 (App.handleUpdateDream u2 Sample.dreams)
  = App.handleUpdateDream u2 (App.handleUpdateDream u1 Sample.dreams) ∧
  JSON.get "id" Sample.analysis = None ∧
  App.handleUpdateDream (entry_props u1)
    (App.complete_dream u2 Sample.analysis Sample.store)
  = App.complete_dream u2 Sample.analysis
      (App.handleUpdateDream (entry_props u1) Sample.store).
Proof.
  intros u1 u2.
  assert (id u1 ≠ id u2) as Hne.
  { vm_compute. discriminate. }
  split; [exact Hne|]. split; [|split; [reflexivity|]].
  - exact (proj1 (updates_of_different_ids_commute _ _ Sample.dreams Hne)).
  - exact (proj2 (updates_of_different_ids_commute u1 u2 Sample.dreams Hne)
             Sample.analysis Sample.store eq_refl).
Defined.

Lemma selection_within_store_witness :
  let s := (Sample.dreams, []) in
  let es := [App.RowClicked 0;
             App.StoreUpdated (App.insert_dream Sample.twin);
             App.StoreUpdated (App.handleUpdateDream (with_tags Sample.flying []));
             App.RowClicked 2; App.RowClicked 9] in
  NoDup (snd s) ∧ snd s ⊆ id <$> fst s ∧ Forall keeps_store_ids es ∧
  snd (App.ui_run es s) = ["1700000000000"; "1699990000000"] ∧
  App.selectedDreams (fst (App.ui_run es s)) (snd (App.ui_run es s)) ≠ [].
Proof.
  intros s es.
  assert (NoDup (snd s)) as Hnd by apply NoDup_nil_2.
  assert (snd s ⊆ id <$> fst s) as Hsub.
  { intros x Hx. by apply elem_of_nil in Hx. }
  pose proof (selection_within_store es s Hnd Hsub) as Hthm.
  assert (Forall keeps_store_ids es) as Hes.
  { apply Forall_cons_2; [exact I|].
    apply Forall_cons_2;
      [exact (proj2 (proj2 (selection_within_store [] s Hnd Hsub
                              (Forall_nil_2 _))) Sample.twin)|].
    apply Forall_cons_2;
      [exact (proj1 (proj2 (selection_within_store [] s Hnd Hsub
                              (Forall_nil_2 _))) (with_tags Sample.flying []))|].
    apply Forall_cons_2; [exact I|].
    apply Forall_cons_2; [exact I|]. apply Forall_nil_2. }
  split; [exact Hnd|]. split; [exact Hsub|]. split; [exact Hes|].
  split; [reflexivity|].
  apply (proj2 (proj2 (proj1 (Hthm Hes)))).
  vm_compute. discriminate.
Defined.

Lemma filtered_narrower_witness :
  is_substring (Host.toLowerCase "fly") (Host.toLowerCase "FLYING") ∧
  App.filtered Host.toLowerCase Host.toLocaleDateString Sample.dreams "FLYING"
  `sublist_of`
  App.filtered Host.toLowerCase Host.toLocaleDateString Sample.dreams "fly".
Proof.
  assert (is_substring (Host.toLowerCase "fly") (Host.toLowerCase "FLYING"))
    as Hsub.
  { by exists "", "ing". }
  split; [exact Hsub|].
  exact (proj2 (filtered_narrower Host.toLowerCase Host.toLocaleDateString
                  Sample.dreams "fly" "FLYING" Hsub)).
Defined.

Lemma formatTime_spec_witness :
  (0 ≤ 75)%Z ∧ RecorderButton.formatTime 75 = "1:15".
Proof.
  split; [lia|].
  rewrite (proj1 formatTime_spec 75%Z) by lia. reflexivity.
Defined.

Lemma recording_session_witness :
  idle RecorderButton.initial ∧
  forallb is_capture Sample.capture = true ∧
  forallb is_capture Sample.flush = true ∧
  RecorderButton.duration
    (RecorderButton.run
       (RecorderButton.MicrophoneGranted
          :: Sample.capture ++ RecorderButton.StopClicked :: Sample.flush)
       RecorderButton.initial) = 2%Z ∧
  snd (RecorderButton.step
         (RecorderButton.run
            (RecorderButton.MicrophoneGranted
               :: Sample.capture ++ RecorderButton.StopClicked :: Sample.flush)
            RecorderButton.initial)
         RecorderButton.RecorderStopped)
  = [RecorderButton.RecordingComplete "abcd"].
Proof.
  assert (idle RecorderButton.initial) as Hidle by done.
  assert (forallb is_capture Sample.capture = true) as Hbody by reflexivity.
  assert (forallb is_capture Sample.flush = true) as Htail by reflexivity.
  split; [exact Hidle|]. split; [exact Hbody|]. split; [exact Htail|].
  destruct (recording_session RecorderButton.initial Sample.capture Sample.flush
              Hidle Hbody Htail) as (_ & Hduration & _ & Hsame & Hblob).
  split; [|exact Hblob].
  rewrite Hsame, Hduration. reflexivity.
Defined.


Lemma other_keys_untouched_witness :
  "theme" ≠ "dream_journal" ∧
  App.st_localStorage
    (App.run (λ _, true)
       [App.Mutate (App.RecordingInserted 5 5 "QUJD"); App.Effects]
       (App.mount (λ _, true) {["theme" := "dark"]} None)) !! "theme"
  = Some "dark".
Proof.
  assert ("theme" ≠ "dream_journal") as Hkey by discriminate.
  split; [exact Hkey|].
  rewrite (other_keys_untouched (λ _, true) {["theme" := "dark"]} None
             [App.Mutate (App.RecordingInserted 5 5 "QUJD"); App.Effects]
             "theme" Hkey).
  apply lookup_singleton_eq.
Defined.

Lemma card_updates_keep_identity_witness :
  DreamCard.addTag (Some (λ u : DreamEntry, u)) Sample.flying "  Sea "
  = Some (with_tags Sample.flying ["Flying"; "Water"; "Sea"]) ∧
  ∃ u, with_tags Sample.flying ["Flying"; "Water"; "Sea"] = u ∧
       id u = id Sample.flying ∧ isProcessing u = isProcessing Sample.flying.
Proof.
  assert (DreamCard.addTag (Some (λ u : DreamEntry, u)) Sample.flying "  Sea "
          = Some (with_tags Sample.flying ["Flying"; "Water"; "Sea"])) as Hadd.
  { reflexivity. }
  split; [exact Hadd|].
  destruct (proj1 (card_updates_keep_identity (λ u : DreamEntry, u) Sample.flying
                     "  Sea " (λ _ _, GeminiService.Resolved None) _
                     (or_introl Hadd)))
    as (u & Hu & Hid & _ & _ & _ & _ & Hbusy).
  by exists u.
Defined.
